(** * X86RaisedValueTracker: register-value resolution of the X86 raiser

    A shallow embedding of [X86/X86RaisedValueTracker.cpp] (llvm-mctoll):
    the per-register, per-block definition table, the predecessor walk
    that collects reaching definitions, the promotion of a register with
    several reaching definitions to a stack slot, and the synthesis of
    the EFLAGS bits.  *)

From Stdlib Require Import ZArith Lia.
From stdpp Require Import base decidable option list gmap sets strings numbers.

Open Scope Z_scope.

Set Warnings "-register-all,-clear-no-such-hyp".

(** ** The fragment of LLVM IR the tracker builds and inspects *)

Module IR.

(** [llvm::Type].  [PairTy] is the literal two-field struct returned by
    the [*.with.overflow] intrinsics. *)
Inductive Ty : Type :=
  | IntegerTy (bits : N)
  | FloatTy
  | DoubleTy
  | PointerTy (pointee : Ty)
  | VoidTy
  | PairTy (fst_ty snd_ty : Ty).

#[global] Instance Ty_eq_dec : EqDecision Ty.
Proof. solve_decision. Defined.

Definition isIntegerTy (t : Ty) : bool :=
  match t with IntegerTy _ => true | _ => false end.

Definition isFloatingPointTy (t : Ty) : bool :=
  match t with FloatTy | DoubleTy => true | _ => false end.

Definition isPointerTy (t : Ty) : bool :=
  match t with PointerTy _ => true | _ => false end.

(** [Type::getPrimitiveSizeInBits]: 0 for types that are not primitive. *)
Definition getPrimitiveSizeInBits (t : Ty) : N :=
  match t with
  | IntegerTy n => n
  | FloatTy => 32
  | DoubleTy => 64
  | _ => 0
  end%N.

Inductive BinOp : Type := Add | Sub | Mul | Shl | LShr | AShr | And | Or | Xor.

Inductive Predicate : Type := ICMP_EQ | ICMP_NE | ICMP_SGT.

Inductive CastOp : Type :=
  | Trunc | ZExt | SExt | BitCast | UIToFP | IntToPtr.

Inductive Intrinsic : Type :=
  | sadd_with_overflow | ssub_with_overflow | smul_with_overflow
  | uadd_with_overflow | usub_with_overflow
  | fshl | fshr.

#[global] Instance BinOp_eq_dec : EqDecision BinOp.
Proof. solve_decision. Defined.
#[global] Instance Predicate_eq_dec : EqDecision Predicate.
Proof. solve_decision. Defined.
#[global] Instance CastOp_eq_dec : EqDecision CastOp.
Proof. solve_decision. Defined.
#[global] Instance Intrinsic_eq_dec : EqDecision Intrinsic.
Proof. solve_decision. Defined.

(** [llvm::Value].  A value is identified with the term that built it:
    constants and arguments are unique objects in LLVM as well, an
    [AllocaInst] carries the index of the stack object created with it,
    and [Opaque] stands for an instruction the raiser produced elsewhere
    (identified by a number). *)
Inductive Value : Type :=
  | Argument (argNo : nat) (ty : Ty)
  | ConstantInt (bits : N) (val : Z)
  | Opaque (id : nat) (ty : Ty)
  | BinaryOperator (op : BinOp) (lhs rhs : Value)
  | ICmpInst (pred : Predicate) (lhs rhs : Value)
  | CastInst (op : CastOp) (src : Value) (destTy : Ty)
  | SelectInst (cond tval fval : Value)
  | CallInst (callee : Intrinsic) (args : list Value)
  | ExtractValueInst (agg : Value) (idx : nat)
  | AllocaInst (ty : Ty) (slot : nat)
  | LoadInst (ptr : Value)
  | StoreInst (val ptr : Value).

Fixpoint Value_eq_dec (x y : Value) {struct x} : {x = y} + {x <> y}.
Proof.
  decide equality; try solve_decision.
Defined.

#[global] Instance Value_eq_decision : EqDecision Value := Value_eq_dec.

(** [Value::getType]. *)
Fixpoint getType (v : Value) : Ty :=
  match v with
  | Argument _ ty => ty
  | ConstantInt bits _ => IntegerTy bits
  | Opaque _ ty => ty
  | BinaryOperator _ lhs _ => getType lhs
  | ICmpInst _ _ _ => IntegerTy 1
  | CastInst _ _ destTy => destTy
  | SelectInst _ tval _ => getType tval
  | CallInst callee args =>
      match args with
      | [] => VoidTy
      | a :: _ =>
          match callee with
          | fshl | fshr => getType a
          | _ => PairTy (getType a) (IntegerTy 1)
          end
      end
  | ExtractValueInst agg idx =>
      match getType agg with
      | PairTy t0 t1 => match idx with O => t0 | _ => t1 end
      | _ => VoidTy
      end
  | AllocaInst ty _ => PointerTy ty
  | LoadInst ptr =>
      match getType ptr with PointerTy t => t | _ => VoidTy end
  | StoreInst _ _ => VoidTy
  end.

(** [dyn_cast<CastInst>] applied until the value is no cast any more. *)
Fixpoint stripCasts (v : Value) : Value :=
  match v with
  | CastInst _ src _ => stripCasts src
  | _ => v
  end.

(** [dyn_cast<Instruction>]: arguments and constants are no instructions. *)
Definition isInstruction (v : Value) : bool :=
  match v with
  | Argument _ _ | ConstantInt _ _ => false
  | _ => true
  end.

(** [Instruction::getOperand]. *)
Definition getOperand (v : Value) (i : nat) : option Value :=
  match v with
  | BinaryOperator _ a b | ICmpInst _ a b | StoreInst a b => [a; b] !! i
  | CastInst _ a _ | LoadInst a | ExtractValueInst a _ => [a] !! i
  | SelectInst c a b => [c; a; b] !! i
  | CallInst _ args => args !! i
  | _ => None
  end.

(** [CastInst::getCastOpcode (V, false, DestTy, false)] for an integer
    source, the only case the tracker reaches. *)
Definition getCastOpcode (srcTy destTy : Ty) : option CastOp :=
  match srcTy, destTy with
  | IntegerTy s, IntegerTy d =>
      Some (if (d <? s)%N then Trunc else if (s <? d)%N then ZExt else BitCast)
  | IntegerTy _, (FloatTy | DoubleTy) => Some UIToFP
  | IntegerTy _, PointerTy _ => Some IntToPtr
  | _, _ => None
  end.

(** *** Evaluation of integer-typed values

    Integers of width [w] are represented by their unsigned value in
    [0, 2^w).  [None] is poison, a value that is no integer, or a value
    that depends on memory. *)

Record Valuation : Type := {
  argVal : nat -> Z;
  opaqueVal : nat -> Z;
}.

Definition wrap (w : N) (z : Z) : Z := z mod 2 ^ Z.of_N w.

Definition signed (w : N) (z : Z) : Z :=
  if z <? 2 ^ (Z.of_N w - 1) then z else z - 2 ^ Z.of_N w.

Definition widthOf (v : Value) : N := getPrimitiveSizeInBits (getType v).

Definition evalBinOp (op : BinOp) (w : N) (x y : Z) : option Z :=
  match op with
  | Add => Some (wrap w (x + y))
  | Sub => Some (wrap w (x - y))
  | Mul => Some (wrap w (x * y))
  | Shl => if y <? Z.of_N w then Some (wrap w (Z.shiftl x y)) else None
  | LShr => if y <? Z.of_N w then Some (Z.shiftr x y) else None
  | AShr => if y <? Z.of_N w then Some (wrap w (Z.shiftr (signed w x) y)) else None
  | And => Some (Z.land x y)
  | Or => Some (Z.lor x y)
  | Xor => Some (Z.lxor x y)
  end.

Definition evalPredicate (p : Predicate) (w : N) (x y : Z) : bool :=
  match p with
  | ICMP_EQ => bool_decide (x = y)
  | ICMP_NE => bool_decide (x <> y)
  | ICMP_SGT => signed w y <? signed w x
  end.

Definition evalCast (op : CastOp) (srcW destW : N) (x : Z) : option Z :=
  match op with
  | Trunc => Some (wrap destW x)
  | ZExt | BitCast => Some x
  | SExt => Some (wrap destW (signed srcW x))
  | UIToFP | IntToPtr => None
  end.

(** Second field of the result of a [*.with.overflow] intrinsic. *)
Definition overflowBit (f : Intrinsic) (w : N) (x y : Z) : option bool :=
  let inRange z := (- 2 ^ (Z.of_N w - 1) <=? z) && (z <? 2 ^ (Z.of_N w - 1)) in
  match f with
  | uadd_with_overflow => Some (2 ^ Z.of_N w <=? x + y)
  | usub_with_overflow => Some (x <? y)
  | sadd_with_overflow => Some (negb (inRange (signed w x + signed w y)))
  | ssub_with_overflow => Some (negb (inRange (signed w x - signed w y)))
  | smul_with_overflow => Some (negb (inRange (signed w x * signed w y)))
  | fshl | fshr => None
  end.

Definition overflowResult (f : Intrinsic) (w : N) (x y : Z) : option Z :=
  match f with
  | uadd_with_overflow | sadd_with_overflow => Some (wrap w (x + y))
  | usub_with_overflow | ssub_with_overflow => Some (wrap w (x - y))
  | smul_with_overflow => Some (wrap w (signed w x * signed w y))
  | fshl | fshr => None
  end.

Definition funnelShift (f : Intrinsic) (w : N) (a b c : Z) : option Z :=
  let concat := a * 2 ^ Z.of_N w + b in
  let amt := c mod Z.of_N w in
  match f with
  | fshl => Some (wrap w (Z.shiftr (Z.shiftl concat amt) (Z.of_N w)))
  | fshr => Some (wrap w (Z.shiftr concat amt))
  | _ => None
  end.

Fixpoint eval (rho : Valuation) (v : Value) : option Z :=
  match v with
  | Argument n ty => Some (wrap (getPrimitiveSizeInBits ty) (argVal rho n))
  | ConstantInt bits z => Some (wrap bits z)
  | Opaque id ty => Some (wrap (getPrimitiveSizeInBits ty) (opaqueVal rho id))
  | BinaryOperator op a b =>
      x ← eval rho a; y ← eval rho b; evalBinOp op (widthOf a) x y
  | ICmpInst p a b =>
      x ← eval rho a; y ← eval rho b;
      Some (if evalPredicate p (widthOf a) x y then 1 else 0)
  | CastInst op a destTy =>
      x ← eval rho a; evalCast op (widthOf a) (getPrimitiveSizeInBits destTy) x
  | SelectInst c a b =>
      cv ← eval rho c; if cv =? 0 then eval rho b else eval rho a
  | CallInst f args =>
      match args with
      | [a; b; c] =>
          x ← eval rho a; y ← eval rho b; z ← eval rho c;
          funnelShift f (widthOf a) x y z
      | _ => None
      end
  | ExtractValueInst agg idx =>
      match agg with
      | CallInst f [a; b] =>
          x ← eval rho a; y ← eval rho b;
          match idx with
          | O => overflowResult f (widthOf a) x y
          | _ => o ← overflowBit f (widthOf a) x y; Some (if o : bool then 1 else 0)
          end
      | _ => None
      end
  | AllocaInst _ _ | LoadInst _ | StoreInst _ _ => None
  end.

End IR.

Import IR.

(** ** Failures

    An [assert] that fails stops the raiser; reading a vector past its
    end and following a null pointer are undefined behaviour.  All are
    outcomes of their own, so that no theorem below silently steps over
    one of them. *)

Inductive error : Type :=
  | AssertionFailure (msg : string)
  | IndexOutOfBounds (idx : nat)
  | NullDereference
  | OutOfFuel.

Inductive result (A : Type) : Type :=
  | Ok (a : A)
  | Abort (e : error).

Arguments Ok {A} a.
Arguments Abort {A} e.

#[global] Instance result_ret : MRet result := fun A a => Ok a.

#[global] Instance result_bind : MBind result := fun A B f r =>
  match r with
  | Ok a => f a
  | Abort e => Abort e
  end.

Definition assert (b : bool) (msg : string) : result unit :=
  if b then Ok tt else Abort (AssertionFailure msg).

(** ** Machine code: functions, blocks, instructions *)

Record MachineOperand : Type := {
  isReg : bool;
  isDef : bool;
  getReg : N;
}.

Record MachineInstr : Type := {
  (** name of the opcode, e.g. [SHL32ri] *)
  opcodeName : string;
  (** number of the block the instruction is in *)
  parentNumber : Z;
  getNumDefs : nat;
  operands : list MachineOperand;
  getNumExplicitOperands : nat;
  (** [findTiedOperandIdx(1)]; [None] when operand 1 is not tied *)
  tiedOperandIdx1 : option nat;
}.

Record MachineBasicBlock : Type := {
  predecessors : list Z;
  instrs : list MachineInstr;
}.

(** The block numbered [n] is the [n]-th block of the function. *)
Definition MachineFunction : Type := list MachineBasicBlock.

Definition getBlockNumbered (MF : MachineFunction) (n : Z) : option MachineBasicBlock :=
  if n <? 0 then None else MF !! Z.to_nat n.

Definition predecessorsOf (MF : MachineFunction) (n : Z) : list Z :=
  from_option predecessors [] (getBlockNumbered MF n).

(** Modelled from the spec: [INVALID_MBB] is declared outside of the
    tracker; it is the block number of a lookup that found no
    definition, a number no block has. *)
Definition INVALID_MBB : Z := -1.

(** Modelled from the spec: the null register, the sentinel that is no
    register. *)
Module X86.
Definition NoRegister : N := 0%N.
End X86.

(** Modelled from the spec: the enumeration of the bits of EFLAGS is
    declared in [X86RegisterUtils.h]; the flag bits are distinct
    one-bit pseudo-registers.  The numbers are the positions of the bits
    in the flags register. *)
Module EFLAGS.
Definition CF : N := 0%N.
Definition PF : N := 2%N.
Definition AF : N := 4%N.
Definition ZF : N := 6%N.
Definition SF : N := 7%N.
Definition OF : N := 11%N.
Definition UNDEFINED : N := 32%N.
End EFLAGS.

(** ** What the tracker consumes from the raiser

    [X86MachineInstructionRaiser], [X86RegisterUtils], the data layout
    and the register tables are declared outside of the tracker; the
    record collects the members the tracker calls. *)
Record X86MachineInstructionRaiser : Type := {
  getMF : MachineFunction;
  (** types of the arguments of the raised function, in order *)
  raisedFunctionArgs : list Ty;
  find64BitSuperReg : N -> N;
  (** 1-based position of the register among the integer arguments,
      not positive when the register carries no argument *)
  getArgumentNumber : N -> Z;
  getPhysRegType : N -> Ty;
  (** [X86RegisterUtils] *)
  GPR64ArgRegs64Bit : list N;
  is64BitPhysReg : N -> bool;
  is32BitPhysReg : N -> bool;
  is16BitPhysReg : N -> bool;
  is8BitPhysReg : N -> bool;
  getPhysRegSizeInBits : N -> N;
  isEflagBit : N -> bool;
  (** register numbers of [X86::EFLAGS], [X86::FPSW], [X86::FPCW] *)
  X86_EFLAGS : N;
  X86_FPSW : N;
  X86_FPCW : N;
  (** [DataLayout::getPrefTypeAlignment] *)
  getPrefTypeAlignment : Ty -> Z;
  (** order of the addresses of [Value] objects, by which [std::sort]
      compares the second components of two pairs *)
  addrLt : option Value -> option Value -> bool;
}.

(** ** The state of the tracker and of the function being raised *)

(** [std::pair<unsigned, Value *>]: size in bits and value; [None] is
    [nullptr], the value of a definition that is not raised yet. *)
Abbreviation DefInfo := (N * option Value)%type.
Abbreviation MBBNoToValueMap := (gmap Z DefInfo).
Abbreviation PhysRegMBBValueDefMap := (gmap N MBBNoToValueMap).

(** A stack object of [MachineFrameInfo]. *)
Record StackObject : Type := {
  objSize : Z;
  objOffset : Z;
  objAlloca : option Value;
}.

Record Tracker : Type := {
  physRegDefsInMBB : PhysRegMBBValueDefMap;
  (** instruction list of the raised basic block of each machine block *)
  raisedBlocks : gmap Z (list Value);
  (** allocas inserted in the entry block *)
  entryAllocas : list Value;
  (** [MF.getFrameInfo()] *)
  frameObjects : list StackObject;
  (** promotions recorded for blocks that are not raised yet *)
  defsToPromote : list (N * Z * Value);
}.

Definition setDefs (t : Tracker) (defs : PhysRegMBBValueDefMap) : Tracker :=
  {| physRegDefsInMBB := defs;
     raisedBlocks := raisedBlocks t;
     entryAllocas := entryAllocas t;
     frameObjects := frameObjects t;
     defsToPromote := defsToPromote t |}.

(** [BB->getInstList().push_back(I)] on the raised block of block [MBBNo]. *)
Definition pushBack (MBBNo : Z) (I : Value) (t : Tracker) : Tracker :=
  {| physRegDefsInMBB := physRegDefsInMBB t;
     raisedBlocks := <[MBBNo := default [] (raisedBlocks t !! MBBNo) ++ [I]]> (raisedBlocks t);
     entryAllocas := entryAllocas t;
     frameObjects := frameObjects t;
     defsToPromote := defsToPromote t |}.

(** [physRegDefsInMBB[Reg][MBBNo]] read through [operator[]]: a missing
    entry is value-initialised. *)
Definition defInfoAt (defs : PhysRegMBBValueDefMap) (Reg : N) (MBBNo : Z) : DefInfo :=
  default (0%N, None) (defs !! Reg ≫= fun m => m !! MBBNo).

(** [physRegDefsInMBB[Reg][MBBNo] = info]. *)
Definition setDefInfo (defs : PhysRegMBBValueDefMap) (Reg : N) (MBBNo : Z)
    (info : DefInfo) : PhysRegMBBValueDefMap :=
  <[Reg := <[MBBNo := info]> (default ∅ (defs !! Reg))]> defs.

(** [physRegDefsInMBB[Reg][MBBNo].second = Val]. *)
Definition setDefValue (defs : PhysRegMBBValueDefMap) (Reg : N) (MBBNo : Z)
    (Val : option Value) : PhysRegMBBValueDefMap :=
  setDefInfo defs Reg MBBNo ((defInfoAt defs Reg MBBNo).1, Val).

(** [physRegDefsInMBB[Reg][MBBNo].first = Size]. *)
Definition setDefSize (defs : PhysRegMBBValueDefMap) (Reg : N) (MBBNo : Z)
    (Size : N) : PhysRegMBBValueDefMap :=
  setDefInfo defs Reg MBBNo (Size, (defInfoAt defs Reg MBBNo).2).

(** ** The tracker *)

Section X86RaisedValueTracker.

Variable x86MIRaiser : X86MachineInstructionRaiser.

(** *** Construction *)

(** The loop over the arguments of the raised function.  [ArgNum] is the
    number of the argument at the head of [args]. *)
Fixpoint seedArguments (args : list Ty) (ArgNum : nat)
    (defs : PhysRegMBBValueDefMap) : result PhysRegMBBValueDefMap :=
  match args with
  | [] => Ok defs
  | ArgTy :: rest =>
      let RegArgCount := length (GPR64ArgRegs64Bit x86MIRaiser) in
      if (RegArgCount <? ArgNum)%nat then Ok defs
      else
        _ ← assert (isIntegerTy ArgTy) "Unhandled argument type in raised function type";
        let ArgTySzInBits := getPrimitiveSizeInBits ArgTy in
        match GPR64ArgRegs64Bit x86MIRaiser !! ArgNum with
        | None => Abort (IndexOutOfBounds ArgNum)
        | Some Reg =>
            seedArguments rest (S ArgNum) (setDefInfo defs Reg 0 (ArgTySzInBits, None))
        end
  end.

Definition physRegSzInBits (PhysReg : N) : result N :=
  if is64BitPhysReg x86MIRaiser PhysReg then Ok 64%N
  else if is32BitPhysReg x86MIRaiser PhysReg then Ok 32%N
  else if is16BitPhysReg x86MIRaiser PhysReg then Ok 16%N
  else if is8BitPhysReg x86MIRaiser PhysReg then Ok 8%N
  else Abort (AssertionFailure "Unexpected Physical register encountered").

Definition seedOperand (MBBNo : Z) (defs : PhysRegMBBValueDefMap)
    (MO : MachineOperand) : result PhysRegMBBValueDefMap :=
  if negb (isReg MO) || negb (isDef MO) then Ok defs
  else
    let PhysReg := getReg MO in
    if bool_decide (PhysReg = X86_EFLAGS x86MIRaiser)
       || bool_decide (PhysReg = X86_FPSW x86MIRaiser)
       || bool_decide (PhysReg = X86_FPCW x86MIRaiser)
    then Ok defs
    else
      let SuperReg := find64BitSuperReg x86MIRaiser PhysReg in
      PhysRegSzInBits ← physRegSzInBits PhysReg;
      Ok (setDefInfo defs SuperReg MBBNo (PhysRegSzInBits, None)).

Fixpoint seedOperands (MBBNo : Z) (ops : list MachineOperand)
    (defs : PhysRegMBBValueDefMap) : result PhysRegMBBValueDefMap :=
  match ops with
  | [] => Ok defs
  | MO :: rest => defs' ← seedOperand MBBNo defs MO; seedOperands MBBNo rest defs'
  end.

Definition seedInstr (MBBNo : Z) (defs : PhysRegMBBValueDefMap)
    (MI : MachineInstr) : result PhysRegMBBValueDefMap :=
  match getNumDefs MI with
  | O => Ok defs
  | S _ => seedOperands MBBNo (operands MI) defs
  end.

Fixpoint seedInstrs (MBBNo : Z) (MIs : list MachineInstr)
    (defs : PhysRegMBBValueDefMap) : result PhysRegMBBValueDefMap :=
  match MIs with
  | [] => Ok defs
  | MI :: rest => defs' ← seedInstr MBBNo defs MI; seedInstrs MBBNo rest defs'
  end.

Fixpoint seedBlocks (MBBs : list MachineBasicBlock) (MBBNo : Z)
    (defs : PhysRegMBBValueDefMap) : result PhysRegMBBValueDefMap :=
  match MBBs with
  | [] => Ok defs
  | MBB :: rest =>
      defs' ← seedInstrs MBBNo (instrs MBB) defs; seedBlocks rest (MBBNo + 1) defs'
  end.

(** [X86RaisedValueTracker::X86RaisedValueTracker], on the state [t] of
    the function before the tracker exists. *)
Definition X86RaisedValueTracker (t : Tracker) : result Tracker :=
  defs ← seedArguments (raisedFunctionArgs x86MIRaiser) 0 ∅;
  defs' ← seedBlocks (getMF x86MIRaiser) 0 defs;
  Ok (setDefs t defs').

(** *** Local value numbering *)

Definition setPhysRegSSAValue (PhysReg : N) (MBBNo : Z) (Val : option Value)
    (t : Tracker) : result Tracker :=
  _ ← assert (bool_decide (PhysReg <> X86.NoRegister))
        "Attempt to set value of an invalid register";
  let SuperReg := find64BitSuperReg x86MIRaiser PhysReg in
  let defs1 := setDefValue (physRegDefsInMBB t) SuperReg MBBNo Val in
  let defs2 := setDefSize defs1 SuperReg MBBNo (getPhysRegSizeInBits x86MIRaiser PhysReg) in
  _ ← assert (bool_decide ((defInfoAt defs2 SuperReg MBBNo).1 <> 0%N))
        "Found incorrect size of physical register";
  Ok (setDefs t defs2).

Definition getInBlockRegOrArgDefVal (PhysReg : N) (MBBNo : Z) (t : Tracker)
    : result (Z * option Value) :=
  let SuperReg := find64BitSuperReg x86MIRaiser PhysReg in
  '(DefMBBNo, DefValue) ←
    (match physRegDefsInMBB t !! SuperReg with
     | Some mbbToValMap =>
         match mbbToValMap !! MBBNo with
         | Some (Size, Val) =>
             _ ← assert (bool_decide (Size <> 0%N))
                   "Found incorrect size of physical register";
             Ok (MBBNo, Val)
         | None => Ok (INVALID_MBB, None)
         end
     | None => Ok (INVALID_MBB, None)
     end : result (Z * option Value));
  match DefValue with
  | None =>
      if MBBNo =? 0 then
        let pos := getArgumentNumber x86MIRaiser PhysReg in
        if (0 <? pos) && (pos <=? Z.of_nat (length (raisedFunctionArgs x86MIRaiser))) then
          match raisedFunctionArgs x86MIRaiser !! Z.to_nat (pos - 1) with
          | Some ArgTy => Ok (0, Some (Argument (Z.to_nat (pos - 1)) ArgTy))
          | None => Ok (DefMBBNo, DefValue)
          end
        else Ok (DefMBBNo, DefValue)
      else Ok (DefMBBNo, DefValue)
  | Some _ => Ok (DefMBBNo, DefValue)
  end.

Definition getInBlockPhysRegSize (PhysReg : N) (MBBNo : Z) (t : Tracker) : result N :=
  let SuperReg := find64BitSuperReg x86MIRaiser PhysReg in
  match physRegDefsInMBB t !! SuperReg with
  | Some mbbToValMap =>
      match mbbToValMap !! MBBNo with
      | Some (Size, _) =>
          _ ← assert (bool_decide (Size <> 0%N))
                "Found incorrect size of physical register";
          Ok Size
      | None => Ok 0%N
      end
  | None => Ok 0%N
  end.

(** *** Reaching definitions along the predecessors *)

(** The locals of [getGlobalReachingDefs] that its loops update. *)
Record Walk : Type := {
  BlockVisited : gset Z;
  ReachingDefs : list (Z * option Value);
  RDFound : bool;
}.

(** The inner [for] loop: unvisited predecessors are pushed at the back
    of the work list.  The head of the list is the back of the vector. *)
Definition pushUnvisited (Visited : gset Z) (preds WorkList : list Z) : list Z :=
  foldl (fun WL P => if decide (P ∈ Visited) then WL else P :: WL) WorkList preds.

(** The [while (!WorkList.empty())] loop.  Every iteration uses one unit
    of [fuel]; [walkFuel] below is enough for every function. *)
Fixpoint walkWorkList (fuel : nat) (PhysReg : N) (t : Tracker)
    (WorkList : list Z) (w : Walk) : result Walk :=
  match WorkList with
  | [] => Ok w
  | CurPredMBBNo :: WorkList' =>
      match fuel with
      | O => Abort OutOfFuel
      | S fuel' =>
          if decide (CurPredMBBNo ∈ BlockVisited w) then
            walkWorkList fuel' PhysReg t WorkList' w
          else
            let Visited := {[CurPredMBBNo]} ∪ BlockVisited w in
            ReachInfo ← getInBlockRegOrArgDefVal PhysReg CurPredMBBNo t;
            if bool_decide (ReachInfo.1 <> INVALID_MBB) then
              walkWorkList fuel' PhysReg t WorkList'
                {| BlockVisited := Visited;
                   ReachingDefs := ReachingDefs w ++ [ReachInfo];
                   RDFound := true |}
            else
              walkWorkList fuel' PhysReg t
                (pushUnvisited Visited
                   (predecessorsOf (getMF x86MIRaiser) CurPredMBBNo) WorkList')
                {| BlockVisited := Visited;
                   ReachingDefs := ReachingDefs w;
                   RDFound := RDFound w |}
      end
  end.

(** The [for (auto P : CurMBB->predecessors())] loop. *)
Fixpoint walkPredecessors (fuel : nat) (PhysReg : N) (t : Tracker)
    (AllPreds : bool) (preds : list Z) (w : Walk) : result Walk :=
  match preds with
  | [] => Ok w
  | P :: rest =>
      if AllPreds && negb (RDFound w) then Ok w
      else if decide (P ∈ BlockVisited w) then
        walkPredecessors fuel PhysReg t AllPreds rest w
      else
        w' ← walkWorkList fuel PhysReg t [P]
               {| BlockVisited := BlockVisited w;
                  ReachingDefs := ReachingDefs w;
                  RDFound := false |};
        walkPredecessors fuel PhysReg t AllPreds rest w'
  end.

(** A visit of block [b] costs one iteration, and one more for every
    predecessor it pushes. *)
Definition blockCost (MF : MachineFunction) (b : Z) : nat :=
  S (length (predecessorsOf MF b)).

Definition walkFuel (MF : MachineFunction) : nat :=
  2 + sum_list (blockCost MF <$> seqZ 0 (Z.of_nat (length MF))).

(** [operator<] of [std::pair<int, Value *>]. *)
Definition pairLt (a b : Z * option Value) : bool :=
  (a.1 <? b.1) || (negb (b.1 <? a.1) && addrLt x86MIRaiser a.2 b.2).

Fixpoint insertSorted (a : Z * option Value) (l : list (Z * option Value))
    : list (Z * option Value) :=
  match l with
  | [] => [a]
  | b :: l' => if pairLt b a then b :: insertSorted a l' else a :: l
  end.

(** [std::sort]. *)
Definition sort (l : list (Z * option Value)) : list (Z * option Value) :=
  foldr insertSorted [] l.

(** [std::unique] followed by [erase]: of every run of equal adjacent
    elements the first one stays. *)
Fixpoint unique (l : list (Z * option Value)) : list (Z * option Value) :=
  match l with
  | [] => []
  | a :: l' =>
      match l' with
      | [] => [a]
      | b :: _ => if decide (a = b) then unique l' else a :: unique l'
      end
  end.

Definition getGlobalReachingDefs (PhysReg : N) (MBBNo : Z) (AllPreds : bool)
    (t : Tracker) : result (list (Z * option Value)) :=
  let MF := getMF x86MIRaiser in
  match getBlockNumbered MF MBBNo with
  | None => Abort (AssertionFailure "Illegal block number")
  | Some CurMBB =>
      LocalDef ← getInBlockRegOrArgDefVal PhysReg MBBNo t;
      Defs ←
        (match LocalDef.2 with
         | Some _ =>
             _ ← assert (bool_decide (LocalDef.1 = MBBNo))
                   "Inconsistent local def info found";
             Ok [LocalDef]
         | None =>
             w ← walkPredecessors (walkFuel MF) PhysReg t AllPreds
                   (predecessors CurMBB)
                   {| BlockVisited := ∅; ReachingDefs := []; RDFound := true |};
             Ok (if AllPreds && negb (RDFound w) then [] else ReachingDefs w)
         end : result (list (Z * option Value)));
      Ok (if (1 <? length Defs)%nat then unique (sort Defs) else Defs)
  end.

(** *** Promotion of a register to a stack slot *)

Definition setFrameObjects (t : Tracker) (objs : list StackObject) : Tracker :=
  {| physRegDefsInMBB := physRegDefsInMBB t;
     raisedBlocks := raisedBlocks t;
     entryAllocas := entryAllocas t;
     frameObjects := objs;
     defsToPromote := defsToPromote t |}.

(** Modelled from the spec: [insertAllocaInEntryBlock] is a member of
    the raiser; it allocates the synthetic memory slot in the entry
    region of the function. *)
Definition insertAllocaInEntryBlock (Alloca : Value) (t : Tracker) : Tracker :=
  {| physRegDefsInMBB := physRegDefsInMBB t;
     raisedBlocks := raisedBlocks t;
     entryAllocas := entryAllocas t ++ [Alloca];
     frameObjects := frameObjects t;
     defsToPromote := defsToPromote t |}.

(** Modelled from the spec: [recordDefsToPromote] is a member of the
    raiser; it records the obligation to write the value that block
    [MBBNo] will give [PhysReg] into the slot, once it is available. *)
Definition recordDefsToPromote (PhysReg : N) (MBBNo : Z) (Alloca : Value)
    (t : Tracker) : Tracker :=
  {| physRegDefsInMBB := physRegDefsInMBB t;
     raisedBlocks := raisedBlocks t;
     entryAllocas := entryAllocas t;
     frameObjects := frameObjects t;
     defsToPromote := defsToPromote t ++ [(PhysReg, MBBNo, Alloca)] |}.

(** Modelled from the spec: [promotePhysregToStackSlot] is a member of
    the raiser; it emits a write of the reaching value into the slot,
    placed at the end of the block that produced the value, and returns
    the store. *)
Definition promotePhysregToStackSlot (PhysReg : N) (ReachingValue : Value)
    (MBBNo : Z) (Alloca : Value) (t : Tracker) : option Value * Tracker :=
  let StInst := StoreInst ReachingValue Alloca in
  (Some StInst, pushBack MBBNo StInst t).

(** The loop that finds the super-type of the reaching values. *)
Fixpoint allocTyLoop (RDs : list (Z * option Value)) (AllocTy : option Ty) : option Ty :=
  match RDs with
  | [] => AllocTy
  | RD :: rest =>
      match RD.2 with
      | Some V =>
          if isIntegerTy (getType V) then
            let Ty := getType V in
            allocTyLoop rest
              (match AllocTy with
               | None => Some Ty
               | Some A =>
                   if (getPrimitiveSizeInBits A <? getPrimitiveSizeInBits Ty)%N
                   then Some Ty else Some A
               end)
          else Some (IntegerTy 64)
      | None => Some (IntegerTy 64)
      end
  end.

(** The offset of the top of the stack: the least offset of an object,
    at most 0. *)
Definition stackTopOffset (objs : list StackObject) : Z :=
  foldl (fun top o => if objOffset o <? top then objOffset o else top) 0 objs.

(** The loop that stores every reaching definition in the slot. *)
Fixpoint storeReachingDefs (PhysReg : N) (Alloca : Value)
    (RDs : list (Z * option Value)) (t : Tracker) : result Tracker :=
  match RDs with
  | [] => Ok t
  | MBBVal :: rest =>
      match MBBVal.2 with
      | None =>
          storeReachingDefs PhysReg Alloca rest
            (recordDefsToPromote PhysReg MBBVal.1 Alloca t)
      | Some V =>
          let '(StInst, t') := promotePhysregToStackSlot PhysReg V MBBVal.1 Alloca t in
          _ ← assert (bool_decide (StInst <> None))
                "Failed to promote reaching definition to stack slot";
          storeReachingDefs PhysReg Alloca rest t'
      end
  end.

Definition getReachingDef (PhysReg : N) (MBBNo : Z) (AllPreds AnySubReg : bool)
    (t : Tracker) : result (option Value * Tracker) :=
  ReachingDefs ← getGlobalReachingDefs PhysReg MBBNo AllPreds t;
  let RDVecSz := length ReachingDefs in
  if (1 <? RDVecSz)%nat then
    match allocTyLoop ReachingDefs None with
    | None => Abort NullDereference
    | Some AllocTy =>
        let typeAlignment := getPrefTypeAlignment x86MIRaiser AllocTy in
        (* the alloca and the stack object created for it *)
        let StackFrameIndex := length (frameObjects t) in
        let Alloca := AllocaInst AllocTy StackFrameIndex in
        let objs := frameObjects t ++
          [{| objSize := typeAlignment; objOffset := 0; objAlloca := Some Alloca |}] in
        let ObjectSize := typeAlignment in
        let StackTopOffset := stackTopOffset objs in
        let Offset := StackTopOffset - ObjectSize in
        let t1 := setFrameObjects t
          (<[StackFrameIndex :=
               {| objSize := typeAlignment; objOffset := Offset;
                  objAlloca := Some Alloca |}]> objs) in
        let t2 := insertAllocaInEntryBlock Alloca t1 in
        (* a definition in MBBNo itself is stored in the entry block *)
        MBBNoRDPair ← getInBlockRegOrArgDefVal PhysReg MBBNo t2;
        let t3 :=
          match MBBNoRDPair.2 with
          | Some DefValue => pushBack 0 (StoreInst DefValue Alloca) t2
          | None => t2
          end in
        t4 ← storeReachingDefs PhysReg Alloca ReachingDefs t3;
        let LdReachingVal := LoadInst Alloca in
        let t5 := pushBack MBBNo LdReachingVal t4 in
        '(RetValue, t6) ←
          (if AnySubReg then Ok (LdReachingVal, t5)
           else
             let RegType :=
               if isEflagBit x86MIRaiser PhysReg then IntegerTy 1
               else getPhysRegType x86MIRaiser PhysReg in
             let LdReachingValType := getType LdReachingVal in
             _ ← assert (isIntegerTy LdReachingValType)
                   "Unhandled type mismatch of reaching register definition";
             if decide (RegType <> LdReachingValType) then
               match getCastOpcode LdReachingValType RegType with
               | Some op =>
                   let CInst := CastInst op LdReachingVal RegType in
                   Ok (CInst, pushBack MBBNo CInst t5)
               | None => Abort (AssertionFailure "Invalid cast")
               end
             else Ok (LdReachingVal, t5) : result (Value * Tracker));
        t7 ← setPhysRegSSAValue PhysReg MBBNo (Some RetValue) t6;
        Ok (Some RetValue, t7)
    end
  else
    match ReachingDefs with
    | [RD] => Ok (RD.2, t)
    | _ => Ok (None, t)
    end.

(** *** The bits of EFLAGS *)

(** Modelled from the spec: [instrNameStartsWith] is a member of the
    raiser; it tests whether the mnemonic of the instruction belongs to
    the named family, by the prefix of the name of its opcode. *)
Definition instrNameStartsWith (MI : MachineInstr) (name : string) : bool :=
  String.prefix name (opcodeName MI).

(** [ConstantInt::get] at a width: the number is taken modulo [2^bits]. *)
Definition constantInt (bits : N) (z : Z) : Value := ConstantInt bits (wrap bits z).

(** [ConstantFP::getZeroValueForNegation]: the null value of an integer
    type; the negative zero of a floating-point type is no value of
    this model. *)
Definition getZeroValueForNegation (ty : Ty) : option Value :=
  match ty with
  | IntegerTy bits => Some (ConstantInt bits 0)
  | _ => None
  end.

Definition isSub (v : Value) : bool :=
  match v with BinaryOperator Sub _ _ => true | _ => false end.

Definition isBinaryOperator (v : Value) : bool :=
  match v with BinaryOperator _ _ _ => true | _ => false end.

(** [getFunctionType()->getNumParams()] of a call of an intrinsic. *)
Definition getNumParams (v : Value) : option nat :=
  match v with
  | CallInst (fshl | fshr) _ => Some 3%nat
  | CallInst _ _ => Some 2%nat
  | _ => None
  end.

(** [TestInst->getOperand(0)] and [TestInst->getOperand(1)]. *)
Definition testArgs (TestInst : Value) : result (Value * Value) :=
  match getOperand TestInst 0, getOperand TestInst 1 with
  | Some a0, Some a1 => Ok (a0, a1)
  | _, _ => Abort (AssertionFailure "getOperand() out of range!")
  end.

Definition setFlagValue (FlagBit : N) (MBBNo : Z) (Val : option Value)
    (t : Tracker) : Tracker :=
  setDefs t (setDefValue (physRegDefsInMBB t) FlagBit MBBNo Val).

(** [case EFLAGS::ZF]. *)
Definition testZF (FlagBit : N) (MBBNo : Z) (TestResultVal : Value)
    (t : Tracker) : result Tracker :=
  let ResTyNumBits := getPrimitiveSizeInBits (getType TestResultVal) in
  let ZeroVal := constantInt ResTyNumBits 0 in
  let ZFTest := ICmpInst ICMP_EQ TestResultVal ZeroVal in
  Ok (setFlagValue FlagBit MBBNo (Some ZFTest) (pushBack MBBNo ZFTest t)).

(** [case EFLAGS::SF]. *)
Definition testSF (FlagBit : N) (MBBNo : Z) (TestResultVal : Value)
    (t : Tracker) : result Tracker :=
  let ResTyNumBits := getPrimitiveSizeInBits (getType TestResultVal) in
  let ShiftVal := constantInt ResTyNumBits 1 in
  let HighBitSetVal := constantInt ResTyNumBits (Z.of_N ResTyNumBits - 1) in
  let ShiftLeft := BinaryOperator Shl ShiftVal HighBitSetVal in
  let t1 := pushBack MBBNo ShiftLeft t in
  let AndInst := BinaryOperator And ShiftLeft TestResultVal in
  let t2 := pushBack MBBNo AndInst t1 in
  let SFTest := ICmpInst ICMP_EQ AndInst ShiftLeft in
  let t3 := pushBack MBBNo SFTest t2 in
  Ok (setFlagValue FlagBit MBBNo (Some SFTest) t3).

(** The overflow bit of a checked operation on the operands of the
    instruction that produced the tested value. *)
Definition overflowOfTestArgs (callee : Intrinsic) (MBBNo : Z) (TestInst : Value)
    (msg : string) (t : Tracker) : result (Value * Tracker) :=
  '(a0, a1) ← testArgs TestInst;
  _ ← assert (bool_decide (getType a0 = getType a1)) msg;
  let GetOF := CallInst callee [a0; a1] in
  let t1 := pushBack MBBNo GetOF t in
  let Bit := ExtractValueInst GetOF 1 in
  Ok (Bit, pushBack MBBNo Bit t1).

(** The test of the most-significant bit of the result, as the rotates
    compute it: the instructions are appended in the order of the
    source. *)
Definition msbIsSet (MBBNo : Z) (TestResultVal : Value) (back : Z)
    (t : Tracker) : Value * Tracker :=
  let ty := getPrimitiveSizeInBits (getType TestResultVal) in
  let OneValue := constantInt ty 1 in
  let LeftShift := constantInt ty (Z.of_N ty - back) in
  let BitSetConst := BinaryOperator Shl OneValue LeftShift in
  let t1 := pushBack MBBNo BitSetConst t in
  let BitSetResult := BinaryOperator And TestResultVal BitSetConst in
  let t2 := pushBack MBBNo BitSetResult t1 in
  let ZeroValue := constantInt ty 0 in
  let IsSet := ICmpInst ICMP_NE BitSetResult ZeroValue in
  (IsSet, pushBack MBBNo IsSet t2).

(** The test of the least-significant bit of the result. *)
Definition lsbIsSet (MBBNo : Z) (TestResultVal : Value) (t : Tracker)
    : Value * Tracker :=
  let ty := getPrimitiveSizeInBits (getType TestResultVal) in
  let OneValue := constantInt ty 1 in
  let ResultLSB := BinaryOperator And TestResultVal OneValue in
  let t1 := pushBack MBBNo ResultLSB t in
  let ResultCF := ICmpInst ICMP_EQ ResultLSB OneValue in
  (ResultCF, pushBack MBBNo ResultCF t1).

Definition isOneBitRotate (MI : MachineInstr) : result bool :=
  if bool_decide (getNumExplicitOperands MI = 2%nat) then
    match tiedOperandIdx1 MI with
    | Some idx => Ok (bool_decide (idx = 0%nat))
    | None => Abort (AssertionFailure "Operand isn't tied")
    end
  else Ok false.

(** [case EFLAGS::OF]. *)
Definition testOF (FlagBit : N) (MI : MachineInstr) (MBBNo : Z)
    (TestResultVal : Value) (t : Tracker) : result Tracker :=
  let TestResultVal := stripCasts TestResultVal in
  let TestInst := TestResultVal in
  _ ← assert (isInstruction TestInst)
        "Expect test producing instruction while testing and setting of EFLAGS";
  if instrNameStartsWith MI "SUB" || instrNameStartsWith MI "CMP" then
    '(Bit, t1) ← overflowOfTestArgs ssub_with_overflow MBBNo TestInst
                   "Differing types of test values unexpected" t;
    Ok (setFlagValue FlagBit MBBNo (Some Bit) t1)
  else if instrNameStartsWith MI "ADD" then
    '(Bit, t1) ← overflowOfTestArgs sadd_with_overflow MBBNo TestInst
                   "Differing types of test values unexpected" t;
    Ok (setFlagValue FlagBit MBBNo (Some Bit) t1)
  else if instrNameStartsWith MI "ROL" then
    one ← isOneBitRotate MI;
    if one : bool then
      let '(ResultCF, t1) := lsbIsSet MBBNo TestResultVal t in
      let '(MSBIsSet, t2) := msbIsSet MBBNo TestResultVal 1 t1 in
      let ResultOF := BinaryOperator Xor ResultCF MSBIsSet in
      Ok (setFlagValue FlagBit MBBNo (Some ResultOF) (pushBack MBBNo ResultOF t2))
    else Ok t
  else if instrNameStartsWith MI "ROR" then
    one ← isOneBitRotate MI;
    if one : bool then
      let '(MSBIsSet, t1) := msbIsSet MBBNo TestResultVal 1 t in
      let '(PreMSBIsSet, t2) := msbIsSet MBBNo TestResultVal 2 t1 in
      let ResultOF := BinaryOperator Xor MSBIsSet PreMSBIsSet in
      Ok (setFlagValue FlagBit MBBNo (Some ResultOF) (pushBack MBBNo ResultOF t2))
    else Ok t
  else Abort (AssertionFailure "*** EFLAGS update abstraction not handled yet").

(** The carry of a shift: the test of the bit at [ShiftAmt] of the
    destination, selected when the count is positive, the carry the
    block had before otherwise. *)
Definition selectShiftedOutBit (FlagBit : N) (MBBNo : Z)
    (DstArgVal CountArgVal ShiftAmt : Value) (t : Tracker) : result (Value * Tracker) :=
  let CountBits := getPrimitiveSizeInBits (getType CountArgVal) in
  let ZeroVal := constantInt CountBits 0 in
  let ShlInst := BinaryOperator Shl (constantInt CountBits 1) ShiftAmt in
  let t1 := pushBack MBBNo ShlInst t in
  let AndInst := BinaryOperator And DstArgVal ShlInst in
  let t2 := pushBack MBBNo AndInst t1 in
  let NewCFInst := ICmpInst ICMP_SGT AndInst ZeroVal in
  let t3 := pushBack MBBNo NewCFInst t2 in
  (* read through operator[]: the entry exists afterwards *)
  let info := defInfoAt (physRegDefsInMBB t3) FlagBit MBBNo in
  let t4 := setDefs t3 (setDefInfo (physRegDefsInMBB t3) FlagBit MBBNo info) in
  match info.2 with
  | None => Abort NullDereference
  | Some OldCF =>
      let CountValTest := ICmpInst ICMP_SGT CountArgVal ZeroVal in
      let SelectCF := SelectInst CountValTest NewCFInst OldCF in
      Ok (SelectCF, pushBack MBBNo SelectCF t4)
  end.

(** [case EFLAGS::CF]. *)
Definition testCF (FlagBit : N) (MI : MachineInstr) (MBBNo : Z)
    (TestResultVal : Value) (t : Tracker) : result Tracker :=
  let TestResultVal := stripCasts TestResultVal in
  '(NewCF, t') ←
    (if instrNameStartsWith MI "NEG" then
       let TestInst := TestResultVal in
       _ ← assert (isInstruction TestInst)
             "Expect test producing instruction while testing and setting of EFLAGS";
       _ ← assert (isSub TestInst) "Expect NEG to be raised as SUB";
       '(a0, a1) ← testArgs TestInst;
       _ ← assert (bool_decide (getType a0 = getType a1))
             "Differing types of test values not expected";
       match getZeroValueForNegation (getType a1) with
       | None =>
           Abort (AssertionFailure
             "Expected zero value of sub instruction while updating CF for NEG instruction")
       | Some ZeroVal =>
           _ ← assert (bool_decide (a0 = ZeroVal))
                 "Expected zero value of sub instruction while updating CF for NEG instruction";
           let CmpInst := ICmpInst ICMP_NE a0 ZeroVal in
           Ok (CmpInst, pushBack MBBNo CmpInst t)
       end
     else if instrNameStartsWith MI "SUB" || instrNameStartsWith MI "CMP" then
       let TestInst := TestResultVal in
       _ ← assert (isInstruction TestInst)
             "Expect test producing instruction while testing and setting of EFLAGS";
       overflowOfTestArgs usub_with_overflow MBBNo TestInst
         "Differing types of test values not expected" t
     else if instrNameStartsWith MI "ADD" then
       let TestInst := TestResultVal in
       _ ← assert (isInstruction TestInst)
             "Expect test producing instruction while testing and setting of EFLAGS";
       overflowOfTestArgs uadd_with_overflow MBBNo TestInst
         "Differing types of test values not expected" t
     else if instrNameStartsWith MI "SHRD" then
       let IntrinsicCall := TestResultVal in
       _ ← assert (bool_decide (getNumParams IntrinsicCall = Some 3%nat))
             "Expected call instruction with three arguments not found";
       match getOperand IntrinsicCall 1, getOperand IntrinsicCall 2 with
       | Some DstArgVal, Some CountArgVal =>
           let CountBits := getPrimitiveSizeInBits (getType CountArgVal) in
           let CountValTest := ICmpInst ICMP_SGT CountArgVal (constantInt CountBits 0) in
           let t1 := pushBack MBBNo CountValTest t in
           selectShiftedOutBit FlagBit MBBNo DstArgVal CountArgVal CountArgVal t1
       | _, _ => Abort (AssertionFailure "getOperand() out of range!")
       end
     else if instrNameStartsWith MI "SHL" then
       '(DstArgVal, CountArgVal) ←
         (if instrNameStartsWith MI "SHLD" then
            let IntrinsicCall := TestResultVal in
            _ ← assert (bool_decide (getNumParams IntrinsicCall = Some 3%nat))
                  "Expected call instruction with three arguments not found";
            match getOperand IntrinsicCall 0, getOperand IntrinsicCall 2 with
            | Some d, Some c => Ok (d, c)
            | _, _ => Abort (AssertionFailure "getOperand() out of range!")
            end
          else
            let BinOp := TestResultVal in
            _ ← assert (isBinaryOperator BinOp)
                  "Expected a shl binary operator with 2 operands";
            testArgs BinOp : result (Value * Value));
       let CountBits := getPrimitiveSizeInBits (getType CountArgVal) in
       let CountValTest := ICmpInst ICMP_SGT CountArgVal (constantInt CountBits 0) in
       let t1 := pushBack MBBNo CountValTest t in
       let TypeSizeVal :=
         constantInt CountBits (Z.of_N (getPrimitiveSizeInBits (getType DstArgVal))) in
       let ShiftAmt := BinaryOperator Sub TypeSizeVal CountArgVal in
       let t2 := pushBack MBBNo ShiftAmt t1 in
       selectShiftedOutBit FlagBit MBBNo DstArgVal CountArgVal ShiftAmt t2
     else if instrNameStartsWith MI "ROL" then
       Ok (lsbIsSet MBBNo TestResultVal t)
     else if instrNameStartsWith MI "ROR" then
       Ok (msbIsSet MBBNo TestResultVal 1 t)
     else if instrNameStartsWith MI "IMUL" then
       let TestInst := TestResultVal in
       _ ← assert (isBinaryOperator TestInst)
             "Expected a mul binary operator with 2 operands";
       '(NewOF, t1) ← overflowOfTestArgs smul_with_overflow MBBNo TestInst
                        "Differing types of test values unexpected" t;
       Ok (NewOF, setFlagValue EFLAGS.OF MBBNo (Some NewOF)
                    (setFlagValue EFLAGS.OF MBBNo (Some NewOF) t1))
     else Abort (AssertionFailure "*** Abstraction of CF for the instruction not handled yet")
     : result (Value * Tracker));
  Ok (setFlagValue FlagBit MBBNo (Some NewCF) t').

Definition testAndSetEflagSSAValue (FlagBit : N) (MI : MachineInstr)
    (TestResultVal : Value) (t : Tracker) : result Tracker :=
  _ ← assert ((EFLAGS.CF <=? FlagBit)%N && (FlagBit <? EFLAGS.UNDEFINED)%N)
        "Unknown EFLAGS bit specified";
  let MBBNo := parentNumber MI in
  _ ← assert (bool_decide (is_Some (getBlockNumbered (getMF x86MIRaiser) MBBNo)))
        "Illegal block number";
  t' ←
    (if bool_decide (FlagBit = EFLAGS.ZF) then testZF FlagBit MBBNo TestResultVal t
     else if bool_decide (FlagBit = EFLAGS.SF) then testSF FlagBit MBBNo TestResultVal t
     else if bool_decide (FlagBit = EFLAGS.OF) then testOF FlagBit MI MBBNo TestResultVal t
     else if bool_decide (FlagBit = EFLAGS.CF) then testCF FlagBit MI MBBNo TestResultVal t
     else Abort (AssertionFailure "Unhandled EFLAGS bit specified")
     : result Tracker);
  (* EFLAGS bit size is 1 *)
  Ok (setDefs t' (setDefSize (physRegDefsInMBB t') FlagBit MBBNo 1)).

Definition setEflagValue (FlagBit : N) (MBBNo : Z) (Set_ : bool) (t : Tracker)
    : result Tracker :=
  _ ← assert ((EFLAGS.CF <=? FlagBit)%N && (FlagBit <? EFLAGS.UNDEFINED)%N)
        "Unknown EFLAGS bit specified";
  let Val := constantInt 1 (if Set_ then 1 else 0) in
  let t1 := setFlagValue FlagBit MBBNo (Some Val) t in
  Ok (setDefs t1 (setDefSize (physRegDefsInMBB t1) FlagBit MBBNo 1)).

Definition getEflagReachingDef (FlagBit : N) (MBBNo : Z) (t : Tracker)
    : result (option Value * Tracker) :=
  _ ← assert ((EFLAGS.CF <=? FlagBit)%N && (FlagBit <? EFLAGS.UNDEFINED)%N)
        "Unknown EFLAGS bit specified";
  getReachingDef FlagBit MBBNo false false t.

End X86RaisedValueTracker.

(** ** A sample target and sample functions *)

Module Sample.

(** Register numbers of a small target: the six argument registers of
    the System V convention, two more general-purpose registers, and
    the flags and floating-point status registers. *)
Definition RDI : N := 1%N.
Definition RSI : N := 2%N.
Definition RDX : N := 3%N.
Definition RCX : N := 4%N.
Definition R8 : N := 5%N.
Definition R9 : N := 6%N.
Definition RAX : N := 7%N.
Definition RBX : N := 8%N.

Definition argRegs : list N := [RDI; RSI; RDX; RCX; R8; R9].

Definition argumentNumber (Reg : N) : Z :=
  if (1 <=? Reg)%N && (Reg <=? 6)%N then Z.of_N Reg else -1.

Definition i64 : Ty := IntegerTy 64.

(** Addresses of values: null first, then by the number of the
    argument or instruction, other values last. *)
Definition addrOf (v : option Value) : Z :=
  match v with
  | None => 0
  | Some (Argument n _) => 1 + Z.of_nat n
  | Some (Opaque n _) => 1000 + Z.of_nat n
  | Some _ => 100000
  end.

Definition raiser (MF : MachineFunction) (args : list Ty) : X86MachineInstructionRaiser :=
  {| getMF := MF;
     raisedFunctionArgs := args;
     find64BitSuperReg := fun Reg => Reg;
     getArgumentNumber := argumentNumber;
     getPhysRegType := fun _ => i64;
     GPR64ArgRegs64Bit := argRegs;
     is64BitPhysReg := fun Reg => (1 <=? Reg)%N && (Reg <=? 8)%N;
     is32BitPhysReg := fun _ => false;
     is16BitPhysReg := fun _ => false;
     is8BitPhysReg := fun _ => false;
     getPhysRegSizeInBits := fun Reg => if (1 <=? Reg)%N && (Reg <=? 8)%N then 64%N else 0%N;
     isEflagBit := fun _ => false;
     X86_EFLAGS := 100%N;
     X86_FPSW := 101%N;
     X86_FPCW := 102%N;
     getPrefTypeAlignment := fun ty => Z.of_N (getPrimitiveSizeInBits ty) / 8;
     addrLt := fun a b => addrOf a <? addrOf b |}.

Definition block (preds : list Z) : MachineBasicBlock :=
  {| predecessors := preds; instrs := [] |}.

Definition emptyTracker : Tracker :=
  {| physRegDefsInMBB := ∅; raisedBlocks := ∅; entryAllocas := [];
     frameObjects := []; defsToPromote := [] |}.

Definition withDefs (l : list (N * Z * DefInfo)) : Tracker :=
  setDefs emptyTracker
    (foldl (fun defs '(Reg, MBBNo, info) => setDefInfo defs Reg MBBNo info) ∅ l).

(** The diamond 0 -> {1, 2} -> 3. *)
Definition diamond : MachineFunction :=
  [block []; block [0]; block [0]; block [1; 2]].

Definition V1 : Value := Opaque 1 i64.
Definition V2 : Value := Opaque 2 i64.

(** The chain 0 -> 1 -> 2. *)
Definition chain : MachineFunction := [block []; block [0]; block [1]].

(** The entry block 0 branches to 1, 2 and 3; block 1 falls into 2 and
    block 2 into 3. *)
Definition skipping : MachineFunction :=
  [block []; block [0]; block [0; 1]; block [2; 0]].

(** Both middle blocks of the diamond hold the same value. *)
Definition sameValue : Tracker :=
  withDefs [(RAX, 1, (64%N, Some V1)); (RAX, 2, (64%N, Some V1))].

(** The middle blocks of the diamond hold different values. *)
Definition twoValues : Tracker :=
  withDefs [(RAX, 1, (64%N, Some V1)); (RAX, 2, (64%N, Some V2))].

(** Block 0 only defines the register. *)
Definition definedInBlock0 : Tracker := withDefs [(RAX, 0, (64%N, Some V1))].

(** Block 1 only defines the register. *)
Definition definedInBlock1 : Tracker := withDefs [(RAX, 1, (64%N, Some V1))].

(** Block 0 holds a value, the record of block 1 is pending. *)
Definition pendingInBlock1 : Tracker :=
  withDefs [(RAX, 0, (64%N, Some V1)); (RAX, 1, (64%N, None))].


Definition instr (name : string) : MachineInstr :=
  {| opcodeName := name; parentNumber := 0; getNumDefs := 1; operands := [];
     getNumExplicitOperands := 2; tiedOperandIdx1 := Some 0%nat |}.

(** The carry is set in block 0 before the instruction. *)
Definition carrySet : Tracker :=
  withDefs [(EFLAGS.CF, 0, (1%N, Some (ConstantInt 1 1)))].

Definition valuation (x : Z) : Valuation :=
  {| argVal := fun _ => x; opaqueVal := fun _ => 0 |}.

(** An instruction that defines the register [Reg] and uses [RBX]. *)
Definition defining (name : string) (Reg : N) : MachineInstr :=
  {| opcodeName := name; parentNumber := 0; getNumDefs := 1;
     operands := [{| isReg := true; isDef := true; getReg := Reg |};
                  {| isReg := true; isDef := false; getReg := RBX |}];
     getNumExplicitOperands := 2; tiedOperandIdx1 := None |}.

(** A function of two blocks; the second block defines [RAX]. *)
Definition definesRAX : MachineFunction :=
  [block []; {| predecessors := [0]; instrs := [defining "MOV64rr" RAX] |}].


End Sample.

(** ** Notions used to state the properties *)

(** The record the table holds for a register in a block, if any. *)
Definition storedRecord (x86MIRaiser : X86MachineInstructionRaiser) (t : Tracker)
    (PhysReg : N) (MBBNo : Z) : option DefInfo :=
  physRegDefsInMBB t !! find64BitSuperReg x86MIRaiser PhysReg ≫= fun m => m !! MBBNo.

(** [clearReach B b]: block [b] is reached from [B] against the edges of
    the control-flow graph through blocks for which the lookup of the
    register finds nothing. *)
Inductive clearReach (x86MIRaiser : X86MachineInstructionRaiser) (PhysReg : N)
    (t : Tracker) (B : Z) : Z -> Prop :=
  | clearReach_pred p :
      p ∈ predecessorsOf (getMF x86MIRaiser) B ->
      clearReach x86MIRaiser PhysReg t B p
  | clearReach_step q p :
      clearReach x86MIRaiser PhysReg t B q ->
      getInBlockRegOrArgDefVal x86MIRaiser PhysReg q t = Ok (INVALID_MBB, None) ->
      p ∈ predecessorsOf (getMF x86MIRaiser) q ->
      clearReach x86MIRaiser PhysReg t B p.

(** Every size the table stores is nonzero. *)
Definition sizesNonZero (t : Tracker) : Prop :=
  map_Forall (fun _ (m : MBBNoToValueMap) =>
    map_Forall (fun _ (info : DefInfo) => info.1 <> 0%N) m) (physRegDefsInMBB t).

#[global] Instance sizesNonZero_dec (t : Tracker) : Decision (sizesNonZero t).
Proof. unfold sizesNonZero. apply _. Defined.

(** What is left to do for a walk: the cost of the blocks of [l] that
    are not visited yet. *)
Definition unvisitedCost (MF : MachineFunction) (V : gset Z) (l : list Z) : nat :=
  sum_list ((fun b => if decide (b ∈ V) then 0%nat else blockCost MF b) <$> l).

(** What the loops of [getGlobalReachingDefs] maintain, for the walk
    from block [B]. *)
Definition walkInv (x86MIRaiser : X86MachineInstructionRaiser) (PhysReg : N)
    (t : Tracker) (B : Z) (w : Walk) : Prop :=
  (forall b, b ∈ BlockVisited w -> clearReach x86MIRaiser PhysReg t B b) /\
  (forall b v, (b, v) ∈ ReachingDefs w ->
     b ∈ BlockVisited w /\
     getInBlockRegOrArgDefVal x86MIRaiser PhysReg b t = Ok (b, v) /\
     b <> INVALID_MBB) /\
  NoDup (ReachingDefs w).*1.

(** What the work list guarantees: the predecessors of a visited block
    without a definition are visited or wait in the work list, and what
    the lookup finds at a visited block is among the hits. *)
Definition walkClosed (x86MIRaiser : X86MachineInstructionRaiser) (PhysReg : N)
    (t : Tracker) (WorkList : list Z) (w : Walk) : Prop :=
  (forall q, q ∈ BlockVisited w ->
     getInBlockRegOrArgDefVal x86MIRaiser PhysReg q t = Ok (INVALID_MBB, None) ->
     forall p, p ∈ predecessorsOf (getMF x86MIRaiser) q ->
       p ∈ BlockVisited w \/ p ∈ WorkList) /\
  (forall b rb rv, b ∈ BlockVisited w ->
     getInBlockRegOrArgDefVal x86MIRaiser PhysReg b t = Ok (rb, rv) ->
     rb <> INVALID_MBB -> (rb, rv) ∈ ReachingDefs w).

(** A table in which every record is pending and has a size that is
    not zero: the state of the table before anything is raised. *)
Definition allPending (defs : PhysRegMBBValueDefMap) : Prop :=
  forall Reg m MBBNo info,
    defs !! Reg = Some m -> m !! MBBNo = Some info ->
    info.1 <> 0%N /\ info.2 = None.

(** The registers the scan of the constructor passes over. *)
Definition isStatusReg (x86MIRaiser : X86MachineInstructionRaiser) (PhysReg : N) : bool :=
  bool_decide (PhysReg = X86_EFLAGS x86MIRaiser)
  || bool_decide (PhysReg = X86_FPSW x86MIRaiser)
  || bool_decide (PhysReg = X86_FPCW x86MIRaiser).

(** The sizes of the general-purpose registers. *)
Definition isGPRSize (Size : N) : Prop :=
  Size = 8%N \/ Size = 16%N \/ Size = 32%N \/ Size = 64%N.

(** The table holds a pending record of the size of a general-purpose
    register under the key [(SuperReg, MBBNo)]. *)
Definition seededAt (defs : PhysRegMBBValueDefMap) (SuperReg : N) (MBBNo : Z) : Prop :=
  exists Size,
    (defs !! SuperReg ≫= fun m => m !! MBBNo) = Some (Size, None) /\ isGPRSize Size.

(** The stores a promotion to the slot [Alloca] emits in block [B]: one
    for every reaching definition of [B] that has a value. *)
Definition storesFor (Alloca : Value) (B : Z) (RDs : list (Z * option Value))
    : list Value :=
  omap (fun RD : Z * option Value =>
          if decide (RD.1 = B) then (fun V => StoreInst V Alloca) <$> RD.2 else None) RDs.

(** The promotions recorded for later: one for every reaching definition
    that is pending. *)
Definition pendingFor (PhysReg : N) (Alloca : Value) (RDs : list (Z * option Value))
    : list (N * Z * Value) :=
  omap (fun RD : Z * option Value =>
          match RD.2 with
          | None => Some (PhysReg, RD.1, Alloca)
          | Some _ => None
          end) RDs.

(** The type of the value a query for [PhysReg] returns after a
    promotion, unless any sub-register is accepted. *)
Definition regTypeOf (x86MIRaiser : X86MachineInstructionRaiser) (PhysReg : N) : Ty :=
  if isEflagBit x86MIRaiser PhysReg then IntegerTy 1
  else getPhysRegType x86MIRaiser PhysReg.

(** The instruction list of the raised block of block [B]. *)
Definition instructionsOf (t : Tracker) (B : Z) : list Value :=
  default [] (raisedBlocks t !! B).

(** What an update of the flags in block [B] may change: the records of
    the registers [keys] in [B], and the end of the instruction list of
    the raised block of [B]. *)
Definition updatesIn (keys : list N) (B : Z) (t t' : Tracker) : Prop :=
  (forall Reg MBBNo, ~ (Reg ∈ keys /\ MBBNo = B) ->
     (physRegDefsInMBB t' !! Reg ≫= fun m => m !! MBBNo)
       = (physRegDefsInMBB t !! Reg ≫= fun m => m !! MBBNo)) /\
  (forall b, b <> B -> raisedBlocks t' !! b = raisedBlocks t !! b) /\
  instructionsOf t B `prefix_of` instructionsOf t' B /\
  entryAllocas t' = entryAllocas t /\
  frameObjects t' = frameObjects t /\
  defsToPromote t' = defsToPromote t.

(** The range of a signed integer of [n] bits. *)
Definition inSignedRange (n : N) (z : Z) : bool :=
  (- 2 ^ (Z.of_N n - 1) <=? z) && (z <? 2 ^ (Z.of_N n - 1)).

(** The numbers of the blocks of the definitions in [l] are in the
    order [R]: every definition is related to all that follow it. *)
Fixpoint orderedBy (R : Z -> Z -> Prop) (l : list (Z * option Value)) : Prop :=
  match l with
  | [] => True
  | a :: l' => Forall (fun y : Z * option Value => R a.1 y.1) l' /\ orderedBy R l'
  end.

(** ** Properties *)

Lemma bind_Ok {A B : Type} (r : result A) (f : A -> result B) (b : B) :
  r ≫= f = Ok b -> exists a, r = Ok a /\ f a = Ok b.
Proof. destruct r as [a|e]; simpl; [eauto | discriminate]. Qed.

Lemma assert_Ok (c : bool) (msg : string) (u : unit) : assert c msg = Ok u -> c = true.
Proof. destruct c; [done | discriminate]. Qed.

Ltac map_lookups :=
  repeat first [rewrite lookup_insert_eq | rewrite lookup_insert_ne by done].

Ltac inv_bind H :=
  let a := fresh "a" in
  let Ha := fresh "Ha" in
  apply bind_Ok in H as (a & Ha & H).

Section Properties.

Variable x86MIRaiser : X86MachineInstructionRaiser.

Abbreviation MF := (getMF x86MIRaiser).
Abbreviation lookupDef := (getInBlockRegOrArgDefVal x86MIRaiser).

(** *** The local lookup *)


Lemma lookupDef_record PhysReg MBBNo t Size Val :
  storedRecord x86MIRaiser t PhysReg MBBNo = Some (Size, Some Val) ->
  Size <> 0%N ->
  lookupDef PhysReg MBBNo t = Ok (MBBNo, Some Val).
Proof.
  unfold storedRecord, getInBlockRegOrArgDefVal. intros Hrec Hsz.
  destruct (physRegDefsInMBB t !! _) as [m|]; simpl in *; [|done].
  rewrite Hrec. simpl. by rewrite bool_decide_true.
Qed.


Lemma lookupDef_argument PhysReg t ArgTy :
  (storedRecord x86MIRaiser t PhysReg 0 = None \/
   exists Size, Size <> 0%N /\ storedRecord x86MIRaiser t PhysReg 0 = Some (Size, None)) ->
  0 < getArgumentNumber x86MIRaiser PhysReg ->
  raisedFunctionArgs x86MIRaiser !! Z.to_nat (getArgumentNumber x86MIRaiser PhysReg - 1)
    = Some ArgTy ->
  lookupDef PhysReg 0 t
    = Ok (0, Some (Argument (Z.to_nat (getArgumentNumber x86MIRaiser PhysReg - 1)) ArgTy)).
Proof.
  unfold storedRecord, getInBlockRegOrArgDefVal. intros Hrec Hpos Harg.
  assert (getArgumentNumber x86MIRaiser PhysReg
            <= Z.of_nat (length (raisedFunctionArgs x86MIRaiser))) as Hle.
  { apply lookup_lt_Some in Harg. lia. }
  assert ((0 <? getArgumentNumber x86MIRaiser PhysReg)
          && (getArgumentNumber x86MIRaiser PhysReg
                <=? Z.of_nat (length (raisedFunctionArgs x86MIRaiser))) = true) as Hc.
  { apply andb_true_intro. split; [by apply Z.ltb_lt | by apply Z.leb_le]. }
  destruct (physRegDefsInMBB t !! _) as [m|]; simpl in *.
  - destruct Hrec as [Hrec | (Size & Hsz & Hrec)]; rewrite Hrec; simpl.
    + by rewrite Hc, Harg.
    + rewrite bool_decide_true by done. simpl. by rewrite Hc, Harg.
  - by rewrite Hc, Harg.
Qed.

(** The block number of a lookup is the queried block, or the lookup
    found nothing. *)
Lemma lookupDef_block PhysReg MBBNo t b v :
  lookupDef PhysReg MBBNo t = Ok (b, v) ->
  (b = INVALID_MBB /\ v = None) \/ b = MBBNo.
Proof.
  unfold getInBlockRegOrArgDefVal. intros H.
  inv_bind H. destruct a as [b0 v0].
  assert ((b0 = INVALID_MBB /\ v0 = None) \/ b0 = MBBNo) as Hb0.
  { destruct (physRegDefsInMBB t !! _) as [m|]; [|left; by inversion Ha].
    destruct (m !! MBBNo) as [[Size Val]|]; [|left; by inversion Ha].
    inv_bind Ha. inversion Ha; subst. by right. }
  destruct v0 as [v0|]; [inversion H; subst; tauto|].
  destruct (MBBNo =? 0) eqn:Hz; [|inversion H; subst; tauto].
  apply Z.eqb_eq in Hz. subst MBBNo.
  destruct (_ && _); [|inversion H; subst; tauto].
  destruct (raisedFunctionArgs x86MIRaiser !! _); inversion H; subst; auto.
Qed.

(** *** The walk has fuel enough *)

Lemma predecessorsOf_out_of_range b :
  b ∉ seqZ 0 (Z.of_nat (length MF)) -> predecessorsOf MF b = [].
Proof.
  intros Hb. unfold predecessorsOf, getBlockNumbered.
  destruct (b <? 0) eqn:Hneg; [done|].
  apply Z.ltb_ge in Hneg.
  destruct (MF !! Z.to_nat b) eqn:Hl; [|done].
  apply lookup_lt_Some in Hl. exfalso. apply Hb.
  apply elem_of_seqZ. lia.
Qed.

Lemma unvisitedCost_mono (V V' : gset Z) l :
  V ⊆ V' -> (unvisitedCost MF V' l <= unvisitedCost MF V l)%nat.
Proof.
  intros Hsub. unfold unvisitedCost.
  induction l as [|a l IH]; csimpl; [lia|].
  destruct (decide (a ∈ V')), (decide (a ∈ V)); try lia.
  exfalso. set_solver.
Qed.

Lemma unvisitedCost_visit (V : gset Z) b l :
  b ∉ V -> b ∈ l ->
  (unvisitedCost MF ({[b]} ∪ V) l + blockCost MF b <= unvisitedCost MF V l)%nat.
Proof.
  intros HbV. unfold unvisitedCost.
  induction l as [|a l IH]; intros Hin; [by apply elem_of_nil in Hin|].
  csimpl. destruct (decide (a = b)) as [->|Hne].
  - rewrite decide_True; [|set_solver]. rewrite decide_False; [|done].
    pose proof (unvisitedCost_mono V ({[b]} ∪ V) l ltac:(set_solver)) as Hm.
    unfold unvisitedCost in Hm. lia.
  - apply elem_of_cons in Hin as [->|Hin]; [done|].
    specialize (IH Hin).
    destruct (decide (a ∈ {[b]} ∪ V)), (decide (a ∈ V)); try lia; set_solver.
Qed.

Lemma length_pushUnvisited (V : gset Z) preds WL :
  (length (pushUnvisited V preds WL) <= length preds + length WL)%nat.
Proof.
  unfold pushUnvisited. revert WL.
  induction preds as [|p preds IH]; intros WL; simpl; [lia|].
  destruct (decide (p ∈ V)).
  - specialize (IH WL). lia.
  - specialize (IH (p :: WL)). simpl in IH. lia.
Qed.

Lemma elem_of_pushUnvisited (V : gset Z) preds WL p :
  p ∈ pushUnvisited V preds WL -> p ∈ WL \/ p ∈ preds.
Proof.
  unfold pushUnvisited. revert WL.
  induction preds as [|q preds IH]; intros WL; simpl; [auto|].
  intros Hp. destruct (decide (q ∈ V)).
  - destruct (IH _ Hp); [auto | right; set_solver].
  - destruct (IH _ Hp) as [Hin|Hin]; [|right; set_solver].
    apply elem_of_cons in Hin as [->|Hin]; [right; set_solver | auto].
Qed.

(** One visit makes the measure of the loop go down. *)
Lemma visit_measure (V : gset Z) b WL :
  b ∉ V ->
  (length (pushUnvisited ({[b]} ∪ V) (predecessorsOf MF b) WL)
     + unvisitedCost MF ({[b]} ∪ V) (seqZ 0 (Z.of_nat (length MF)))
   <= length WL + unvisitedCost MF V (seqZ 0 (Z.of_nat (length MF))))%nat.
Proof.
  intros HbV.
  pose proof (length_pushUnvisited ({[b]} ∪ V) (predecessorsOf MF b) WL) as Hlen.
  destruct (decide (b ∈ seqZ 0 (Z.of_nat (length MF)))) as [Hin|Hout].
  - pose proof (unvisitedCost_visit V b _ HbV Hin) as Hc.
    unfold blockCost in Hc. lia.
  - rewrite (predecessorsOf_out_of_range b Hout) in *. simpl in *.
    pose proof (unvisitedCost_mono V ({[b]} ∪ V)
                  (seqZ 0 (Z.of_nat (length MF))) ltac:(set_solver)).
    lia.
Qed.

Lemma walkWorkList_fuel fuel PhysReg t WL w :
  (length WL + unvisitedCost MF (BlockVisited w) (seqZ 0 (Z.of_nat (length MF)))
     < fuel)%nat ->
  walkWorkList x86MIRaiser fuel PhysReg t WL w <> Abort OutOfFuel.
Proof.
  revert WL w. induction fuel as [|fuel IH]; intros WL w Hm; [lia|].
  destruct WL as [|b WL]; simpl; [done|].
  destruct (decide (b ∈ BlockVisited w)) as [Hv|Hv].
  - apply IH. simpl in Hm. lia.
  - destruct (getInBlockRegOrArgDefVal x86MIRaiser PhysReg b t) as [ri|e] eqn:Hri.
    + simpl. destruct (bool_decide (ri.1 ≠ INVALID_MBB)).
      * apply IH. simpl in *.
        pose proof (unvisitedCost_mono (BlockVisited w) ({[b]} ∪ BlockVisited w)
                      (seqZ 0 (Z.of_nat (length MF))) ltac:(set_solver)).
        lia.
      * apply IH. simpl in *.
        pose proof (visit_measure (BlockVisited w) b WL Hv). lia.
    + simpl. intros Heq. inversion Heq; subst.
      revert Hri. unfold getInBlockRegOrArgDefVal.
      destruct (physRegDefsInMBB t !! _) as [m|]; simpl.
      * destruct (m !! b) as [[Size Val]|]; simpl.
        -- destruct (bool_decide (Size ≠ 0%N)); simpl; [|discriminate].
           destruct Val; [discriminate|].
           destruct (b =? 0); [|discriminate].
           destruct (_ && _); [|discriminate].
           destruct (raisedFunctionArgs x86MIRaiser !! _); discriminate.
        -- destruct (b =? 0); [|discriminate].
           destruct (_ && _); [|discriminate].
           destruct (raisedFunctionArgs x86MIRaiser !! _); discriminate.
      * destruct (b =? 0); [|discriminate].
        destruct (_ && _); [|discriminate].
        destruct (raisedFunctionArgs x86MIRaiser !! _); discriminate.
Qed.

Lemma lookupDef_total PhysReg MBBNo t :
  sizesNonZero t -> exists r, lookupDef PhysReg MBBNo t = Ok r.
Proof.
  intros Hsz. unfold getInBlockRegOrArgDefVal.
  destruct (physRegDefsInMBB t !! _) as [m|] eqn:Hm; simpl.
  - destruct (m !! MBBNo) as [[Size Val]|] eqn:Hb; simpl.
    + rewrite bool_decide_true by apply (Hsz _ _ Hm _ _ Hb). simpl.
      destruct Val; [eauto|].
      destruct (MBBNo =? 0); [|eauto].
      destruct (_ && _); [|eauto].
      destruct (raisedFunctionArgs x86MIRaiser !! _); eauto.
    + destruct (MBBNo =? 0); [|eauto].
      destruct (_ && _); [|eauto].
      destruct (raisedFunctionArgs x86MIRaiser !! _); eauto.
  - destruct (MBBNo =? 0); [|eauto].
    destruct (_ && _); [|eauto].
    destruct (raisedFunctionArgs x86MIRaiser !! _); eauto.
Qed.

Lemma walkWorkList_total fuel PhysReg t WL w :
  sizesNonZero t ->
  (length WL + unvisitedCost MF (BlockVisited w) (seqZ 0 (Z.of_nat (length MF)))
     < fuel)%nat ->
  exists w', walkWorkList x86MIRaiser fuel PhysReg t WL w = Ok w'.
Proof.
  intros Hsz. revert WL w. induction fuel as [|fuel IH]; intros WL w Hm; [lia|].
  destruct WL as [|b WL]; simpl; [eauto|].
  destruct (decide (b ∈ BlockVisited w)) as [Hv|Hv].
  - apply IH. simpl in Hm. lia.
  - destruct (lookupDef_total PhysReg b t Hsz) as [ri ->]. simpl.
    destruct (bool_decide (ri.1 ≠ INVALID_MBB)).
    + apply IH. simpl in *.
      pose proof (unvisitedCost_mono (BlockVisited w) ({[b]} ∪ BlockVisited w)
                    (seqZ 0 (Z.of_nat (length MF))) ltac:(set_solver)).
      lia.
    + apply IH. simpl in *.
      pose proof (visit_measure (BlockVisited w) b WL Hv). lia.
Qed.

Lemma walkFuel_enough (V : gset Z) :
  (1 + unvisitedCost MF V (seqZ 0 (Z.of_nat (length MF))) < walkFuel MF)%nat.
Proof.
  pose proof (unvisitedCost_mono ∅ V (seqZ 0 (Z.of_nat (length MF)))
                ltac:(set_solver)) as Hm.
  assert (unvisitedCost MF ∅ (seqZ 0 (Z.of_nat (length MF)))
          = sum_list (blockCost MF <$> seqZ 0 (Z.of_nat (length MF)))) as Heq.
  { unfold unvisitedCost.
    f_equal; apply list_fmap_ext; intros i b _; rewrite decide_False; first [done|set_solver]. }
  unfold walkFuel. lia.
Qed.

#[local] Opaque walkFuel.

Lemma walkPredecessors_total PhysReg t AllPreds preds w :
  sizesNonZero t ->
  exists w', walkPredecessors x86MIRaiser (walkFuel MF) PhysReg t AllPreds preds w = Ok w'.
Proof.
  intros Hsz. revert w. induction preds as [|P preds IH]; intros w; simpl; [eauto|].
  destruct (AllPreds && negb (RDFound w)); [eauto|].
  destruct (decide (P ∈ BlockVisited w)); [apply IH|].
  edestruct (walkWorkList_total (walkFuel MF) PhysReg t [P]) as [w' ->];
    [done | apply walkFuel_enough |].
  simpl. apply IH.
Qed.

Lemma walkPredecessors_fuel PhysReg t AllPreds preds w :
  walkPredecessors x86MIRaiser (walkFuel MF) PhysReg t AllPreds preds w
    <> Abort OutOfFuel.
Proof.
  revert w. induction preds as [|P preds IH]; intros w; simpl; [done|].
  destruct (AllPreds && negb (RDFound w)); [done|].
  destruct (decide (P ∈ BlockVisited w)); [apply IH|].
  destruct (walkWorkList _ _ _ _ [P] _) as [w'|e] eqn:Hw; simpl; [apply IH|].
  intros Heq. inversion Heq; subst.
  eapply walkWorkList_fuel; [|exact Hw]. apply walkFuel_enough.
Qed.

(** *** What the walk maintains *)

Lemma walkWorkList_inv fuel PhysReg t B WL w w' :
  (forall p, p ∈ WL -> clearReach x86MIRaiser PhysReg t B p) ->
  walkInv x86MIRaiser PhysReg t B w ->
  walkWorkList x86MIRaiser fuel PhysReg t WL w = Ok w' ->
  walkInv x86MIRaiser PhysReg t B w' /\ BlockVisited w ⊆ BlockVisited w'.
Proof.
  revert WL w. induction fuel as [|fuel IH]; intros WL w HWL Hinv Hwalk.
  { destruct WL; simpl in Hwalk; [|discriminate]. inversion Hwalk; subst. auto. }
  destruct WL as [|b WL]; simpl in Hwalk.
  { inversion Hwalk; subst. auto. }
  destruct (decide (b ∈ BlockVisited w)) as [Hv|Hv].
  { eapply IH; [|done|done]. intros p Hp. apply HWL. set_solver. }
  inv_bind Hwalk. destruct a as [rb rv]. simpl in Hwalk.
  destruct Hinv as (Hvis & Hdefs & Hnd).
  assert (clearReach x86MIRaiser PhysReg t B b) as Hb by (apply HWL; set_solver).
  destruct (lookupDef_block _ _ _ _ _ Ha) as [ [-> ->] | -> ].
  - (* nothing found: the predecessors are pushed *)
    rewrite bool_decide_false in Hwalk by (intros Hne; by apply Hne).
    apply IH in Hwalk as [Hinv' Hsub]; [split; [done|set_solver]| |].
    + intros p Hp. apply elem_of_pushUnvisited in Hp as [Hp|Hp].
      * apply HWL. set_solver.
      * by eapply clearReach_step.
    + split_and!; simpl; [|intros b' v' Hin; set_solver|done].
      intros b' Hb'. apply elem_of_union in Hb' as [Hb'|Hb']; [|auto].
      apply elem_of_singleton in Hb'. by subst.
  - destruct (decide (b = INVALID_MBB)) as [Hinvalid|Hvalid].
    + (* a block numbered as the invalid block has no predecessors *)
      rewrite bool_decide_false in Hwalk by (intros Hne; by apply Hne).
      assert (predecessorsOf MF b = []) as Hnil by (by subst b).
      rewrite Hnil in Hwalk. simpl in Hwalk.
      apply IH in Hwalk as [Hinv' Hsub]; [split; [done|set_solver]| |].
      * intros p Hp. apply HWL. set_solver.
      * split_and!; simpl; [|intros b' v' Hin; set_solver|done].
        intros b' Hb'. apply elem_of_union in Hb' as [Hb'|Hb']; [|auto].
        apply elem_of_singleton in Hb'. by subst.
    + (* a definition is found: it is recorded, the walk does not go on *)
      rewrite bool_decide_true in Hwalk by done.
      apply IH in Hwalk as [Hinv' Hsub]; [split; [done|set_solver]| |].
      * intros p Hp. apply HWL. set_solver.
      * split_and!; simpl.
        -- intros b' Hb'. apply elem_of_union in Hb' as [Hb'|Hb']; [|auto].
           apply elem_of_singleton in Hb'. by subst.
        -- intros b' v' Hin. apply elem_of_app in Hin as [Hin|Hin].
           ++ destruct (Hdefs _ _ Hin) as (? & ? & ?). split_and!; [set_solver|done|done].
           ++ apply list_elem_of_singleton in Hin. inversion Hin; subst.
              split_and!; [set_solver|done|done].
        -- rewrite fmap_app. simpl. apply (proj2 (list.NoDup_app _ _)).
           split_and!; [done| |apply NoDup_singleton].
           intros b' Hin Hin'. apply list_elem_of_singleton in Hin'. subst b'.
           apply list_elem_of_fmap in Hin as ([b' v'] & Heq & Hin). simpl in Heq. subst b'.
           apply Hv. by apply (Hdefs _ _ Hin).
Qed.

Lemma walkPredecessors_inv PhysReg t B AllPreds preds w w' :
  (forall p, p ∈ preds -> p ∈ predecessorsOf MF B) ->
  walkInv x86MIRaiser PhysReg t B w ->
  walkPredecessors x86MIRaiser (walkFuel MF) PhysReg t AllPreds preds w = Ok w' ->
  walkInv x86MIRaiser PhysReg t B w'.
Proof.
  revert w. induction preds as [|P preds IH]; intros w Hpreds Hinv Hwalk; simpl in Hwalk.
  { by inversion Hwalk; subst. }
  destruct (AllPreds && negb (RDFound w)); [by inversion Hwalk; subst|].
  destruct (decide (P ∈ BlockVisited w)).
  { eapply IH; [|done|done]. intros p Hp. apply Hpreds. set_solver. }
  inv_bind Hwalk.
  apply (walkWorkList_inv _ _ _ B) in Ha as [Hinv' _].
  - eapply IH; [|done|done]. intros p Hp. apply Hpreds. set_solver.
  - intros p Hp. apply list_elem_of_singleton in Hp. subst p.
    apply clearReach_pred. apply Hpreds. set_solver.
  - destruct Hinv as (? & ? & ?). by split_and!.
Qed.

(** *** The walk misses no definition *)

Lemma elem_of_pushUnvisited_l (V : gset Z) preds WL p :
  p ∈ WL -> p ∈ pushUnvisited V preds WL.
Proof.
  unfold pushUnvisited. revert WL.
  induction preds as [|q preds IH]; intros WL Hp; simpl; [done|].
  destruct (decide (q ∈ V)); apply IH; set_solver.
Qed.

Lemma elem_of_pushUnvisited_r (V : gset Z) preds WL p :
  p ∈ preds -> p ∉ V -> p ∈ pushUnvisited V preds WL.
Proof.
  unfold pushUnvisited. revert WL.
  induction preds as [|q preds IH]; intros WL Hp HV; [by apply elem_of_nil in Hp|].
  simpl. apply elem_of_cons in Hp as [->|Hp].
  - rewrite decide_False by done.
    apply (elem_of_pushUnvisited_l V preds (q :: WL) q). set_solver.
  - by apply IH.
Qed.

Lemma walkWorkList_closed fuel PhysReg t WL w w' :
  walkClosed x86MIRaiser PhysReg t WL w ->
  walkWorkList x86MIRaiser fuel PhysReg t WL w = Ok w' ->
  walkClosed x86MIRaiser PhysReg t [] w' /\
  (forall p, p ∈ WL -> p ∈ BlockVisited w') /\
  BlockVisited w ⊆ BlockVisited w'.
Proof.
  revert WL w. induction fuel as [|fuel IH]; intros WL w [Hpreds Hhits] Hwalk.
  { destruct WL; simpl in Hwalk; [|discriminate]. inversion Hwalk; subst.
    split_and!; [by split | intros p Hp; by apply elem_of_nil in Hp | done]. }
  destruct WL as [|b WL]; simpl in Hwalk.
  { inversion Hwalk; subst.
    split_and!; [by split | intros p Hp; by apply elem_of_nil in Hp | done]. }
  destruct (decide (b ∈ BlockVisited w)) as [Hv|Hv].
  { apply IH in Hwalk as (Hcl & Hwl & Hsub).
    - split_and!; [done| |done].
      intros p Hp. apply elem_of_cons in Hp as [->|Hp]; [set_solver | by apply Hwl].
    - split; [|done]. intros q Hq Hl p Hp.
      destruct (Hpreds q Hq Hl p Hp) as [?|Hin]; [by left|].
      apply elem_of_cons in Hin as [->|Hin]; [by left | by right]. }
  inv_bind Hwalk. destruct a as [rb rv]. simpl in Hwalk.
  destruct (decide (rb = INVALID_MBB)) as [->|Hvalid].
  - (* nothing found at b *)
    rewrite bool_decide_false in Hwalk by (intros Hne; by apply Hne).
    apply IH in Hwalk as (Hcl & Hwl & Hsub); simpl in *.
    + split_and!; [done| |set_solver].
      intros p Hp. apply elem_of_cons in Hp as [->|Hp]; [set_solver|].
      apply Hwl. by apply elem_of_pushUnvisited_l.
    + split; simpl.
      * intros q Hq Hl p Hp. apply elem_of_union in Hq as [Hq|Hq].
        -- apply elem_of_singleton in Hq. subst q.
           destruct (decide (p ∈ {[b]} ∪ BlockVisited w)); [by left|].
           right. by apply elem_of_pushUnvisited_r.
        -- destruct (Hpreds q Hq Hl p Hp) as [?|Hin]; [left; set_solver|].
           apply elem_of_cons in Hin as [->|Hin]; [left; set_solver|].
           right. by apply elem_of_pushUnvisited_l.
      * intros b' rb' rv' Hb' Hl Hne. apply elem_of_union in Hb' as [Hb'|Hb'].
        -- apply elem_of_singleton in Hb'. subst b'.
           rewrite Ha in Hl. inversion Hl; subst. done.
        -- by eapply Hhits.
  - (* a definition is found at b *)
    rewrite bool_decide_true in Hwalk by done.
    apply IH in Hwalk as (Hcl & Hwl & Hsub); simpl in *.
    + split_and!; [done| |set_solver].
      intros p Hp. apply elem_of_cons in Hp as [->|Hp]; [set_solver | by apply Hwl].
    + split; simpl.
      * intros q Hq Hl p Hp. apply elem_of_union in Hq as [Hq|Hq].
        -- apply elem_of_singleton in Hq. subst q.
           rewrite Ha in Hl. inversion Hl; subst. done.
        -- destruct (Hpreds q Hq Hl p Hp) as [?|Hin]; [left; set_solver|].
           apply elem_of_cons in Hin as [->|Hin]; [left; set_solver | by right].
      * intros b' rb' rv' Hb' Hl Hne. apply elem_of_app.
        apply elem_of_union in Hb' as [Hb'|Hb'].
        -- apply elem_of_singleton in Hb'. subst b'.
           rewrite Ha in Hl. inversion Hl; subst. right. set_solver.
        -- left. by eapply Hhits.
Qed.

Lemma walkPredecessors_closed PhysReg t preds w w' :
  walkClosed x86MIRaiser PhysReg t [] w ->
  walkPredecessors x86MIRaiser (walkFuel MF) PhysReg t false preds w = Ok w' ->
  walkClosed x86MIRaiser PhysReg t [] w' /\
  (forall p, p ∈ preds -> p ∈ BlockVisited w') /\
  BlockVisited w ⊆ BlockVisited w'.
Proof.
  revert w. induction preds as [|P preds IH]; intros w Hcl Hwalk; simpl in Hwalk.
  { inversion Hwalk; subst.
    split_and!; [done | intros p Hp; by apply elem_of_nil in Hp | done]. }
  destruct (decide (P ∈ BlockVisited w)) as [Hv|Hv].
  { apply IH in Hwalk as (Hcl' & Hps & Hsub); [|done].
    split_and!; [done| |done].
    intros p Hp. apply elem_of_cons in Hp as [->|Hp]; [set_solver | by apply Hps]. }
  inv_bind Hwalk.
  apply walkWorkList_closed in Ha as (Hcl1 & HP & Hsub1).
  - apply IH in Hwalk as (Hcl' & Hps & Hsub); [|done].
    split_and!; [done| |set_solver].
    intros p Hp. apply elem_of_cons in Hp as [->|Hp]; [|by apply Hps].
    apply Hsub. apply HP. set_solver.
  - destruct Hcl as [Hpreds Hhits]. split; simpl; [|done].
    intros q Hq Hl p Hp. destruct (Hpreds q Hq Hl p Hp) as [?|Hin]; [by left|].
    by apply elem_of_nil in Hin.
Qed.

(** Every block reached through blocks without a definition is
    visited when all the predecessors are walked. *)
Lemma clearReach_visited PhysReg t B w :
  walkClosed x86MIRaiser PhysReg t [] w ->
  (forall p, p ∈ predecessorsOf MF B -> p ∈ BlockVisited w) ->
  forall b, clearReach x86MIRaiser PhysReg t B b -> b ∈ BlockVisited w.
Proof.
  intros [Hpreds _] Hfirst b Hreach.
  induction Hreach as [p Hp | q p _ IH Hl Hp]; [by apply Hfirst|].
  destruct (Hpreds q IH Hl p Hp) as [?|Hin]; [done | by apply elem_of_nil in Hin].
Qed.

(** *** Sorting and removing duplicates *)

Lemma insertSorted_perm a l : insertSorted x86MIRaiser a l ≡ₚ a :: l.
Proof.
  induction l as [|b l IH]; simpl; [done|].
  destruct (pairLt x86MIRaiser b a); [|done].
  rewrite IH. apply Permutation_swap.
Qed.

Lemma sort_perm l : sort x86MIRaiser l ≡ₚ l.
Proof.
  induction l as [|a l IH]; simpl; [done|].
  unfold sort in IH. by rewrite insertSorted_perm, IH.
Qed.

(** Hits of different blocks are never merged. *)
Lemma unique_distinct_blocks l : NoDup l.*1 -> unique l = l.
Proof.
  induction l as [|a l IH]; intros Hnd; [done|].
  simpl in *. apply list.NoDup_cons in Hnd as [Hnotin Hnd].
  destruct l as [|b l]; [done|].
  rewrite decide_False.
  - f_equal. by apply IH.
  - intros ->. apply Hnotin. simpl. set_solver.
Qed.

Lemma dedup_distinct_blocks l :
  NoDup l.*1 -> unique (sort x86MIRaiser l) ≡ₚ l.
Proof.
  intros Hnd. rewrite unique_distinct_blocks; [apply sort_perm|].
  assert ((sort x86MIRaiser l).*1 ≡ₚ l.*1) as Hp
    by apply fmap_Permutation, sort_perm.
  by rewrite Hp.
Qed.

(** *** The reaching definitions found *)

Lemma getBlockNumbered_valid n MBB :
  getBlockNumbered MF n = Some MBB -> n <> INVALID_MBB.
Proof.
  unfold getBlockNumbered, INVALID_MBB. destruct (n <? 0) eqn:Hn; [done|].
  apply Z.ltb_ge in Hn. lia.
Qed.

Lemma getGlobalReachingDefs_hits PhysReg MBBNo AllPreds t defs :
  getGlobalReachingDefs x86MIRaiser PhysReg MBBNo AllPreds t = Ok defs ->
  NoDup defs.*1 /\
  forall b v, (b, v) ∈ defs ->
    lookupDef PhysReg b t = Ok (b, v) /\ b <> INVALID_MBB /\
    (b = MBBNo \/ clearReach x86MIRaiser PhysReg t MBBNo b).
Proof.
  unfold getGlobalReachingDefs. intros H.
  destruct (getBlockNumbered MF MBBNo) as [CurMBB|] eqn:HB; [|discriminate].
  inv_bind H. destruct a as [lb lv]. inv_bind H. rename a into Defs.
  assert (NoDup Defs.*1 /\
          forall b v, (b, v) ∈ Defs ->
            lookupDef PhysReg b t = Ok (b, v) /\ b <> INVALID_MBB /\
            (b = MBBNo \/ clearReach x86MIRaiser PhysReg t MBBNo b)) as [Hnd Hhits].
  { simpl in Ha0. destruct lv as [v|].
    - inv_bind Ha0. apply assert_Ok in Ha1. apply bool_decide_eq_true in Ha1.
      simpl in Ha1. subst lb. inversion Ha0; subst. split.
      + simpl. apply NoDup_singleton.
      + intros b v' Hin. apply list_elem_of_singleton in Hin. inversion Hin; subst.
        split_and!; [done | by eapply getBlockNumbered_valid | by left].
    - inv_bind Ha0. rename a into w.
      apply (walkPredecessors_inv _ _ MBBNo) in Ha1 as (Hvis & Hdefs & Hnd).
      + inversion Ha0; subst. destruct (AllPreds && negb (RDFound w)).
        * split; [apply NoDup_nil_2 | intros b v Hin; by apply elem_of_nil in Hin].
        * split; [done|]. intros b v Hin.
          destruct (Hdefs _ _ Hin) as (Hv & Hl & Hne). split_and!; [done|done|].
          right. by apply Hvis.
      + intros p Hp. unfold predecessorsOf. by rewrite HB.
      + split_and!; simpl; [set_solver | intros b v Hin; by apply elem_of_nil in Hin
                            | apply NoDup_nil_2]. }
  inversion H; subst. destruct (1 <? length Defs)%nat; [|done].
  pose proof (dedup_distinct_blocks Defs Hnd) as Hperm. split.
  - assert ((unique (sort x86MIRaiser Defs)).*1 ≡ₚ Defs.*1) as Hp
      by by apply fmap_Permutation.
    by rewrite Hp.
  - intros b v Hin. apply Hhits. by rewrite <- Hperm.
Qed.

(** The size of a stored record decides whether the lookups of the
    loops can fail; with sizes that are not zero, the reaching
    definitions of a block of the function are always found. *)
Lemma getGlobalReachingDefs_total PhysReg MBBNo AllPreds t :
  sizesNonZero t ->
  is_Some (getBlockNumbered MF MBBNo) ->
  exists defs, getGlobalReachingDefs x86MIRaiser PhysReg MBBNo AllPreds t = Ok defs.
Proof.
  intros Hsz [CurMBB HB]. unfold getGlobalReachingDefs. rewrite HB.
  destruct (lookupDef_total PhysReg MBBNo t Hsz) as [[lb lv] Hl]. rewrite Hl. simpl.
  destruct lv as [v|].
  - destruct (lookupDef_block _ _ _ _ _ Hl) as [ [_ ?] | -> ]; [done|].
    rewrite bool_decide_true by done. simpl. eauto.
  - destruct (walkPredecessors_total PhysReg t AllPreds (predecessors CurMBB)
                {| BlockVisited := ∅; ReachingDefs := []; RDFound := true |} Hsz)
      as [w ->].
    simpl. eauto.
Qed.

Lemma lookupDef_ext PhysReg MBBNo t t' :
  physRegDefsInMBB t' = physRegDefsInMBB t ->
  lookupDef PhysReg MBBNo t' = lookupDef PhysReg MBBNo t.
Proof. intros Heq. unfold getInBlockRegOrArgDefVal. by rewrite Heq. Qed.

(** *** Construction *)

Lemma seedArguments_out_of_bounds args ArgNum defs :
  Forall (fun ty => isIntegerTy ty = true) args ->
  (ArgNum <= length (GPR64ArgRegs64Bit x86MIRaiser))%nat ->
  (length (GPR64ArgRegs64Bit x86MIRaiser) < ArgNum + length args)%nat ->
  seedArguments x86MIRaiser args ArgNum defs
    = Abort (IndexOutOfBounds (length (GPR64ArgRegs64Bit x86MIRaiser))).
Proof.
  revert ArgNum defs. induction args as [|ArgTy rest IH]; intros ArgNum defs Hint Hle Hlt.
  { simpl in Hlt. lia. }
  apply list.Forall_cons in Hint as [Hty Hint]. simpl.
  destruct (Nat.ltb_spec (length (GPR64ArgRegs64Bit x86MIRaiser)) ArgNum); [lia|].
  rewrite Hty. simpl.
  destruct (decide (ArgNum = length (GPR64ArgRegs64Bit x86MIRaiser))) as [->|Hne].
  - by rewrite lookup_ge_None_2.
  - destruct (lookup_lt_is_Some_2 (GPR64ArgRegs64Bit x86MIRaiser) ArgNum) as [Reg ->];
      [lia|].
    apply IH; [done | lia | simpl in Hlt; lia].
Qed.

(** C4: the loop over the arguments stops only at an argument whose
    number is greater than the count of argument registers.  For a
    function with more integer arguments than argument registers, the
    argument numbered as that count is not skipped: the table of the
    argument registers is read past its end, and the construction of
    the tracker does not come to an end. *)
Theorem seedArguments_reads_past_argument_registers t :
  Forall (fun ty => isIntegerTy ty = true) (raisedFunctionArgs x86MIRaiser) ->
  (length (GPR64ArgRegs64Bit x86MIRaiser) < length (raisedFunctionArgs x86MIRaiser))%nat ->
  seedArguments x86MIRaiser (raisedFunctionArgs x86MIRaiser) 0 ∅
    = Abort (IndexOutOfBounds (length (GPR64ArgRegs64Bit x86MIRaiser))) /\
  X86RaisedValueTracker x86MIRaiser t
    = Abort (IndexOutOfBounds (length (GPR64ArgRegs64Bit x86MIRaiser))).
Proof.
  intros Hint Hlt.
  assert (seedArguments x86MIRaiser (raisedFunctionArgs x86MIRaiser) 0 ∅
            = Abort (IndexOutOfBounds (length (GPR64ArgRegs64Bit x86MIRaiser)))) as Hseed
    by (apply seedArguments_out_of_bounds; [done | lia | lia]).
  split; [done|].
  unfold X86RaisedValueTracker. by rewrite Hseed.
Qed.

(** *** The local lookup and the arguments *)


(** *** The walk over the predecessors *)

Lemma getGlobalReachingDefs_walk PhysReg MBBNo AllPreds t CurMBB ld defs :
  getBlockNumbered MF MBBNo = Some CurMBB ->
  lookupDef PhysReg MBBNo t = Ok (ld, None) ->
  getGlobalReachingDefs x86MIRaiser PhysReg MBBNo AllPreds t = Ok defs ->
  exists w,
    walkPredecessors x86MIRaiser (walkFuel MF) PhysReg t AllPreds (predecessors CurMBB)
      {| BlockVisited := ∅; ReachingDefs := []; RDFound := true |} = Ok w /\
    walkInv x86MIRaiser PhysReg t MBBNo w /\
    defs ≡ₚ (if AllPreds && negb (RDFound w) then [] else ReachingDefs w).
Proof.
  intros HB Hl H. unfold getGlobalReachingDefs in H. rewrite HB, Hl in H.
  simpl in H. inv_bind H. rename a into Defs. inv_bind Ha. rename a into w.
  exists w. inversion Ha; subst. inversion H; subst. clear Ha H.
  assert (walkInv x86MIRaiser PhysReg t MBBNo w) as Hinv.
  { eapply walkPredecessors_inv; [| |exact Ha0].
    - intros p Hp. unfold predecessorsOf. by rewrite HB.
    - split_and!; simpl; [set_solver | intros b v Hin; by apply elem_of_nil in Hin
                          | apply NoDup_nil_2]. }
  split_and!; [done..|].
  destruct (1 <? length _)%nat; [|done].
  apply dedup_distinct_blocks.
  destruct (AllPreds && negb (RDFound w)); [apply NoDup_nil_2 | apply Hinv].
Qed.

Lemma getGlobalReachingDefs_sound PhysReg MBBNo AllPreds t ld defs :
  is_Some (getBlockNumbered MF MBBNo) ->
  lookupDef PhysReg MBBNo t = Ok (ld, None) ->
  getGlobalReachingDefs x86MIRaiser PhysReg MBBNo AllPreds t = Ok defs ->
  forall b v, (b, v) ∈ defs ->
    clearReach x86MIRaiser PhysReg t MBBNo b /\
    lookupDef PhysReg b t = Ok (b, v) /\ b <> INVALID_MBB.
Proof.
  intros [CurMBB HB] Hlocal Hdefs b v Hin.
  destruct (getGlobalReachingDefs_walk _ _ _ _ _ _ _ HB Hlocal Hdefs)
    as (w & Hwalk & (Hvis & Hhits & _) & Hperm).
  rewrite Hperm in Hin.
  destruct (AllPreds && negb (RDFound w)); [by apply elem_of_nil in Hin|].
  destruct (Hhits _ _ Hin) as (Hv & Hl & Hne). split_and!; [by apply Hvis|done|done].
Qed.

Lemma getGlobalReachingDefs_complete PhysReg MBBNo t ld defs :
  is_Some (getBlockNumbered MF MBBNo) ->
  lookupDef PhysReg MBBNo t = Ok (ld, None) ->
  getGlobalReachingDefs x86MIRaiser PhysReg MBBNo false t = Ok defs ->
  forall b v,
    clearReach x86MIRaiser PhysReg t MBBNo b ->
    lookupDef PhysReg b t = Ok (b, v) -> b <> INVALID_MBB ->
    (b, v) ∈ defs.
Proof.
  intros [CurMBB HB] Hlocal Hdefs b v Hreach Hl Hne.
  destruct (getGlobalReachingDefs_walk _ _ _ _ _ _ _ HB Hlocal Hdefs)
    as (w & Hwalk & _ & Hperm).
  rewrite Hperm. simpl.
  apply walkPredecessors_closed in Hwalk as (Hcl & Hps & _).
  - destruct Hcl as [Hpreds Hfound]. eapply Hfound; [|exact Hl|exact Hne].
    apply (clearReach_visited PhysReg t MBBNo w); [by split| |done].
    intros p Hp. apply Hps. unfold predecessorsOf in Hp. by rewrite HB in Hp.
  - split; simpl; set_solver.
Qed.

(** C5 (amended): when the block has no definition of its own, the
    reaching definitions are found by the walk, and every hit is what
    the lookup returns at its block: the record of the block, with its
    value or still pending, or the argument bound in the entry block.
    The block of a hit is reached from the queried block through blocks
    at which the lookup finds nothing: the walk does not go past a
    block at which it recorded a hit.  When not all predecessors are
    required, every such block is a hit. *)
Theorem getGlobalReachingDefs_hits_are_first_records PhysReg MBBNo AllPreds t ld :
  sizesNonZero t ->
  is_Some (getBlockNumbered MF MBBNo) ->
  lookupDef PhysReg MBBNo t = Ok (ld, None) ->
  exists defs,
    getGlobalReachingDefs x86MIRaiser PhysReg MBBNo AllPreds t = Ok defs /\
    (forall b v, (b, v) ∈ defs ->
       clearReach x86MIRaiser PhysReg t MBBNo b /\
       lookupDef PhysReg b t = Ok (b, v) /\ b <> INVALID_MBB) /\
    (AllPreds = false ->
     forall b v,
       clearReach x86MIRaiser PhysReg t MBBNo b ->
       lookupDef PhysReg b t = Ok (b, v) -> b <> INVALID_MBB ->
       (b, v) ∈ defs).
Proof.
  intros Hsz HB Hlocal.
  destruct (getGlobalReachingDefs_total PhysReg MBBNo AllPreds t Hsz HB) as [defs Hdefs].
  exists defs. split_and!; [done| |].
  - by eapply getGlobalReachingDefs_sound.
  - intros ->. by eapply getGlobalReachingDefs_complete.
Qed.

(** *** Resolution without promotion *)

Lemma getReachingDef_no_promotion PhysReg MBBNo AllPreds AnySubReg t defs :
  getGlobalReachingDefs x86MIRaiser PhysReg MBBNo AllPreds t = Ok defs ->
  (length defs <= 1)%nat ->
  getReachingDef x86MIRaiser PhysReg MBBNo AllPreds AnySubReg t
    = Ok (match defs with [RD] => RD.2 | _ => None end, t).
Proof.
  intros Hdefs Hlen. unfold getReachingDef. rewrite Hdefs. simpl.
  destruct defs as [|RD [|RD' defs]]; simpl in *; [done | done | lia].
Qed.

Lemma singleton_of_one_block (defs : list (Z * option Value)) b v :
  NoDup defs.*1 ->
  (b, v) ∈ defs ->
  (forall b' v', (b', v') ∈ defs -> b' = b) ->
  defs = [(b, v)].
Proof.
  intros Hnd Hin Hall. destruct defs as [|[b1 v1] defs]; [by apply elem_of_nil in Hin|].
  assert (b1 = b) as -> by (apply (Hall b1 v1); set_solver).
  simpl in Hnd. apply list.NoDup_cons in Hnd as [Hnotin _].
  destruct defs as [|[b2 v2] defs].
  - apply list_elem_of_singleton in Hin. by inversion Hin.
  - exfalso. apply Hnotin. assert (b2 = b) as -> by (apply (Hall b2 v2); set_solver).
    simpl. set_solver.
Qed.

(** C7: when one reaching definition is left, its value is returned as
    it is and nothing is promoted: the state of the tracker and of the
    raised function is the one before the call, so no slot is
    allocated and no store or load is emitted.  When no reaching
    definition is left, the result is empty, and no failure.  In terms
    of the graph: if one block only, of those reached from the queried
    block through blocks without a definition, holds a definition, its
    value is returned; if none does, the result is empty. *)
Theorem getReachingDef_single_or_no_reaching_def PhysReg MBBNo AllPreds AnySubReg t ld :
  sizesNonZero t ->
  is_Some (getBlockNumbered MF MBBNo) ->
  lookupDef PhysReg MBBNo t = Ok (ld, None) ->
  (forall b V,
     getGlobalReachingDefs x86MIRaiser PhysReg MBBNo AllPreds t = Ok [(b, Some V)] ->
     getReachingDef x86MIRaiser PhysReg MBBNo AllPreds AnySubReg t = Ok (Some V, t)) /\
  (getGlobalReachingDefs x86MIRaiser PhysReg MBBNo AllPreds t = Ok [] ->
   getReachingDef x86MIRaiser PhysReg MBBNo AllPreds AnySubReg t = Ok (None, t)) /\
  (forall b V,
     clearReach x86MIRaiser PhysReg t MBBNo b ->
     lookupDef PhysReg b t = Ok (b, Some V) ->
     b <> INVALID_MBB ->
     (forall b' v',
        clearReach x86MIRaiser PhysReg t MBBNo b' ->
        lookupDef PhysReg b' t = Ok (b', v') -> b' <> INVALID_MBB -> b' = b) ->
     getReachingDef x86MIRaiser PhysReg MBBNo false AnySubReg t = Ok (Some V, t)) /\
  ((forall b' v',
      clearReach x86MIRaiser PhysReg t MBBNo b' ->
      lookupDef PhysReg b' t = Ok (b', v') -> b' = INVALID_MBB) ->
   getReachingDef x86MIRaiser PhysReg MBBNo AllPreds AnySubReg t = Ok (None, t)).
Proof.
  intros Hsz HB Hlocal. split_and!.
  - intros b V Hdefs.
    by rewrite (getReachingDef_no_promotion _ _ _ _ _ _ Hdefs) by (simpl; lia).
  - intros Hdefs.
    by rewrite (getReachingDef_no_promotion _ _ _ _ _ _ Hdefs) by (simpl; lia).
  - intros b V Hreach Hl Hvalid Honly.
    destruct (getGlobalReachingDefs_total PhysReg MBBNo false t Hsz HB) as [defs Hdefs].
    assert (defs = [(b, Some V)]) as ->.
    { apply singleton_of_one_block.
      - by apply (getGlobalReachingDefs_hits _ _ _ _ _ Hdefs).
      - by eapply getGlobalReachingDefs_complete.
      - intros b' v' Hin.
        destruct (getGlobalReachingDefs_sound _ _ _ _ _ _ HB Hlocal Hdefs _ _ Hin)
          as (? & ? & ?).
        by eapply Honly. }
    by rewrite (getReachingDef_no_promotion _ _ _ _ _ _ Hdefs) by (simpl; lia).
  - intros Hnone.
    destruct (getGlobalReachingDefs_total PhysReg MBBNo AllPreds t Hsz HB)
      as [defs Hdefs].
    assert (defs = []) as ->.
    { destruct defs as [|[b v] defs]; [done|]. exfalso.
      destruct (getGlobalReachingDefs_sound _ _ _ _ _ _ HB Hlocal Hdefs b v)
        as (Hreach & Hl & Hvalid); [set_solver|].
      apply Hvalid. by eapply Hnone. }
    by rewrite (getReachingDef_no_promotion _ _ _ _ _ _ Hdefs) by (simpl; lia).
Qed.

(** C10: a call that finds no reaching definition, or one, leaves the
    table as it is: nothing is recorded for the register in the queried
    block, the other entries are the same, and the same query walks the
    predecessors again, with the same result. *)
Theorem getReachingDef_leaves_table_unchanged PhysReg MBBNo AllPreds AnySubReg t defs :
  getGlobalReachingDefs x86MIRaiser PhysReg MBBNo AllPreds t = Ok defs ->
  (length defs <= 1)%nat ->
  exists v t',
    getReachingDef x86MIRaiser PhysReg MBBNo AllPreds AnySubReg t = Ok (v, t') /\
    physRegDefsInMBB t' = physRegDefsInMBB t /\
    lookupDef PhysReg MBBNo t' = lookupDef PhysReg MBBNo t /\
    getGlobalReachingDefs x86MIRaiser PhysReg MBBNo AllPreds t' = Ok defs /\
    getReachingDef x86MIRaiser PhysReg MBBNo AllPreds AnySubReg t' = Ok (v, t').
Proof.
  intros Hdefs Hlen.
  pose proof (getReachingDef_no_promotion _ _ _ AnySubReg _ _ Hdefs Hlen) as Hres.
  eexists _, t. by split_and!.
Qed.

(** *** Two predecessors that both hold a definition *)

Lemma walkFuel_succ : exists n, walkFuel MF = S n.
Proof.
  pose proof (walkFuel_enough ∅). destruct (walkFuel MF) as [|n]; [lia | eauto].
Qed.

Lemma walkWorkList_hit fuel PhysReg t P w b v :
  P ∉ BlockVisited w ->
  lookupDef PhysReg P t = Ok (b, v) ->
  b <> INVALID_MBB ->
  walkWorkList x86MIRaiser (S fuel) PhysReg t [P] w
    = Ok {| BlockVisited := {[P]} ∪ BlockVisited w;
            ReachingDefs := ReachingDefs w ++ [(b, v)];
            RDFound := true |}.
Proof.
  intros Hv Hl Hne. simpl. rewrite decide_False by done. rewrite Hl. simpl.
  rewrite bool_decide_true by done. by destruct fuel.
Qed.


(** *** Promotion *)

Lemma allocTyLoop_integer RDs AllocTy :
  (AllocTy = None \/ exists n, AllocTy = Some (IntegerTy n)) ->
  (RDs <> [] \/ AllocTy <> None) ->
  exists n, allocTyLoop RDs AllocTy = Some (IntegerTy n).
Proof.
  revert AllocTy. induction RDs as [|[b v] RDs IH]; intros AllocTy Hacc Hne; simpl.
  - destruct Hne as [?|Hne]; [done|]. destruct Hacc as [->|[n ->]]; [done|eauto].
  - destruct v as [V|]; [|eauto].
    destruct (getType V) as [k| | | | |] eqn:Hty; simpl; eauto.
    apply IH; [|right].
    + right. destruct Hacc as [->|[n ->]]; [eauto|].
      simpl. destruct (n <? k)%N; eauto.
    + destruct AllocTy as [A|]; [|done]. by destruct (_ <? _)%N.
Qed.

Lemma defInfoAt_setDefInfo defs Reg MBBNo info :
  defInfoAt (setDefInfo defs Reg MBBNo info) Reg MBBNo = info.
Proof.
  unfold defInfoAt, setDefInfo. rewrite lookup_insert_eq. simpl.
  by rewrite lookup_insert_eq.
Qed.

Lemma setDefInfo_twice defs Reg MBBNo info info' :
  setDefInfo (setDefInfo defs Reg MBBNo info) Reg MBBNo info'
    = setDefInfo defs Reg MBBNo info'.
Proof.
  unfold setDefInfo. rewrite lookup_insert_eq. simpl.
  by rewrite insert_insert_eq, insert_insert_eq.
Qed.

Lemma lookup_setDefInfo defs Reg MBBNo info Reg' MBBNo' :
  (setDefInfo defs Reg MBBNo info !! Reg' ≫= fun m => m !! MBBNo')
    = if decide (Reg = Reg' /\ MBBNo = MBBNo') then Some info
      else defs !! Reg' ≫= fun m => m !! MBBNo'.
Proof.
  unfold setDefInfo. destruct (decide (Reg = Reg')) as [<-|Hne].
  - rewrite lookup_insert_eq. simpl. destruct (decide (MBBNo = MBBNo')) as [<-|Hne].
    + rewrite lookup_insert_eq. by rewrite decide_True.
    + rewrite lookup_insert_ne by done. rewrite decide_False by tauto.
      by destruct (defs !! Reg).
  - rewrite lookup_insert_ne by done. by rewrite decide_False by tauto.
Qed.

Lemma setPhysRegSSAValue_ok PhysReg MBBNo Val t :
  PhysReg <> X86.NoRegister ->
  getPhysRegSizeInBits x86MIRaiser PhysReg <> 0%N ->
  setPhysRegSSAValue x86MIRaiser PhysReg MBBNo Val t
    = Ok (setDefs t (setDefInfo (physRegDefsInMBB t)
                       (find64BitSuperReg x86MIRaiser PhysReg) MBBNo
                       (getPhysRegSizeInBits x86MIRaiser PhysReg, Val))).
Proof.
  intros Hreg Hsz. unfold setPhysRegSSAValue.
  rewrite (bool_decide_true (PhysReg <> X86.NoRegister)) by done. simpl.
  unfold setDefSize, setDefValue. rewrite setDefInfo_twice, !defInfoAt_setDefInfo. simpl.
  by rewrite bool_decide_true by done.
Qed.

Lemma getGlobalReachingDefs_local PhysReg d AllPreds t v :
  is_Some (getBlockNumbered MF d) ->
  lookupDef PhysReg d t = Ok (d, Some v) ->
  getGlobalReachingDefs x86MIRaiser PhysReg d AllPreds t = Ok [(d, Some v)].
Proof.
  intros [CurMBB HB] Hl. unfold getGlobalReachingDefs. rewrite HB, Hl. simpl.
  by rewrite bool_decide_true by done.
Qed.

(** *** All predecessors required *)

(** A walk through blocks at which the lookup finds nothing records no
    hit. *)
Lemma walkWorkList_nothing_found fuel PhysReg t P WL w :
  (forall b, b = P \/ clearReach x86MIRaiser PhysReg t P b ->
     lookupDef PhysReg b t = Ok (INVALID_MBB, None)) ->
  (forall b, b ∈ WL -> b = P \/ clearReach x86MIRaiser PhysReg t P b) ->
  (length WL + unvisitedCost MF (BlockVisited w) (seqZ 0 (Z.of_nat (length MF)))
     < fuel)%nat ->
  exists w',
    walkWorkList x86MIRaiser fuel PhysReg t WL w = Ok w' /\
    ReachingDefs w' = ReachingDefs w /\
    RDFound w' = RDFound w /\
    forall b, b ∈ BlockVisited w' ->
      b ∈ BlockVisited w \/ b = P \/ clearReach x86MIRaiser PhysReg t P b.
Proof.
  intros Hnone. revert WL w. induction fuel as [|fuel IH]; intros WL w HWL Hm; [lia|].
  destruct WL as [|b WL]; simpl.
  { exists w. split_and!; auto. }
  destruct (decide (b ∈ BlockVisited w)) as [Hv|Hv].
  { apply IH; [|simpl in Hm; lia]. intros b' Hb'. apply HWL. set_solver. }
  assert (b = P \/ clearReach x86MIRaiser PhysReg t P b) as Hb
    by (apply HWL; set_solver).
  rewrite (Hnone b Hb). cbn [mbind result_bind fst].
  rewrite bool_decide_false by (intros Hne; by apply Hne).
  edestruct (IH (pushUnvisited ({[b]} ∪ BlockVisited w) (predecessorsOf MF b) WL)
               {| BlockVisited := {[b]} ∪ BlockVisited w;
                  ReachingDefs := ReachingDefs w;
                  RDFound := RDFound w |})
    as (w' & Hw' & Hdefs & Hfound & Hvis).
  - intros p Hp. apply elem_of_pushUnvisited in Hp as [Hp|Hp].
    + apply HWL. set_solver.
    + right. destruct Hb as [->|Hb].
      * by apply clearReach_pred.
      * eapply clearReach_step; [exact Hb | by apply Hnone; right | done].
  - simpl. pose proof (visit_measure (BlockVisited w) b WL Hv). simpl in Hm. lia.
  - exists w'. split_and!; [exact Hw' | done | done |].
    intros b' Hb'. destruct (Hvis b' Hb') as [Hin|Hq]; [|by right].
    simpl in Hin. apply elem_of_union in Hin as [Hin|Hin]; [|by left].
    apply elem_of_singleton in Hin. subst b'. by right.
Qed.

(** The strictness of the flag for two predecessors, one holding a
    definition itself and one from which no definition is reached: the
    result is empty when all predecessors are required, and the value
    of the first otherwise. *)
Lemma getReachingDef_AllPreds_strict PhysReg B P1 P2 V CurMBB ld AnySubReg t :
  getBlockNumbered MF B = Some CurMBB ->
  predecessors CurMBB = [P1; P2] \/ predecessors CurMBB = [P2; P1] ->
  lookupDef PhysReg B t = Ok (ld, None) ->
  lookupDef PhysReg P1 t = Ok (P1, Some V) ->
  P1 <> INVALID_MBB ->
  (forall b, b = P2 \/ clearReach x86MIRaiser PhysReg t P2 b ->
     lookupDef PhysReg b t = Ok (INVALID_MBB, None)) ->
  getReachingDef x86MIRaiser PhysReg B true AnySubReg t = Ok (None, t) /\
  getReachingDef x86MIRaiser PhysReg B false AnySubReg t = Ok (Some V, t).
Proof.
  intros HB Hpreds HlB Hl1 Hvalid Hnone.
  assert (P1 <> P2) as Hne.
  { intros ->. rewrite (Hnone P2) in Hl1 by auto. by inversion Hl1. }
  assert (forall AllPreds,
            getGlobalReachingDefs x86MIRaiser PhysReg B AllPreds t
              = Ok (if AllPreds then [] else [(P1, Some V)])) as Hdefs.
  { intros AllPreds. unfold getGlobalReachingDefs. rewrite HB, HlB. simpl.
    destruct walkFuel_succ as [n Hn].
    destruct Hpreds as [-> | ->].
    - (* the predecessor with the definition first *)
      cbn [walkPredecessors RDFound BlockVisited ReachingDefs negb].
      rewrite andb_false_r. rewrite decide_False by set_solver.
      rewrite Hn at 1.
      rewrite (walkWorkList_hit n PhysReg t P1 _ P1 (Some V)) by (done || set_solver).
      cbn [mbind result_bind walkPredecessors RDFound BlockVisited ReachingDefs negb].
      rewrite andb_false_r. rewrite decide_False by set_solver.
      edestruct (walkWorkList_nothing_found (walkFuel MF) PhysReg t P2 [P2])
        as (w' & -> & Hd & Hf & _); [exact Hnone | set_solver | apply walkFuel_enough |].
      cbn [mbind result_bind walkPredecessors]. simpl in Hd, Hf. rewrite Hd, Hf.
      destruct AllPreds; reflexivity.
    - (* the predecessor without a definition first *)
      cbn [walkPredecessors RDFound BlockVisited ReachingDefs negb].
      rewrite andb_false_r. rewrite decide_False by set_solver.
      edestruct (walkWorkList_nothing_found (walkFuel MF) PhysReg t P2 [P2])
        as (w' & -> & Hd & Hf & Hvis); [exact Hnone | set_solver | apply walkFuel_enough |].
      cbn [mbind result_bind walkPredecessors]. simpl in Hd, Hf. rewrite Hf.
      destruct AllPreds; simpl; [by rewrite Hf|].
      rewrite decide_False.
      + rewrite Hn.
        rewrite (walkWorkList_hit n PhysReg t P1 _ P1 (Some V)); [|idtac..].
        * simpl. by rewrite Hd.
        * simpl. intros Hin. destruct (Hvis _ Hin) as [Hin'|Hq]; [set_solver|].
          rewrite (Hnone P1 Hq) in Hl1. by inversion Hl1.
        * done.
        * done.
      + intros Hin. destruct (Hvis _ Hin) as [Hin'|Hq]; [set_solver|].
        rewrite (Hnone P1 Hq) in Hl1. by inversion Hl1. }
  split.
  - by rewrite (getReachingDef_no_promotion _ _ _ _ _ _ (Hdefs true)) by (simpl; lia).
  - by rewrite (getReachingDef_no_promotion _ _ _ _ _ _ (Hdefs false)) by (simpl; lia).
Qed.

(** *** The carry flag *)

Lemma land_pow2 d k :
  0 <= k -> Z.land d (2 ^ k) = if Z.testbit d k then 2 ^ k else 0.
Proof.
  intros Hk. apply Z.bits_inj'. intros n Hn.
  rewrite Z.land_spec, Z.pow2_bits_eqb by done.
  destruct (Z.eqb_spec k n) as [->|Hne].
  - rewrite andb_true_r. destruct (Z.testbit d n) eqn:Hd.
    + by rewrite Z.pow2_bits_true.
    + by rewrite Z.bits_0.
  - rewrite andb_false_r. destruct (Z.testbit d k).
    + by rewrite Z.pow2_bits_false.
    + by rewrite Z.bits_0.
Qed.

Lemma eval_select rho c a b :
  eval rho (SelectInst c a b)
    = eval rho c ≫= fun cv => if cv =? 0 then eval rho b else eval rho a.
Proof. reflexivity. Qed.

Lemma eval_icmp rho p a b :
  eval rho (ICmpInst p a b)
    = eval rho a ≫= fun x => eval rho b ≫= fun y =>
        Some (if evalPredicate p (widthOf a) x y then 1 else 0).
Proof. reflexivity. Qed.

Lemma eval_binop rho op a b :
  eval rho (BinaryOperator op a b)
    = eval rho a ≫= fun x => eval rho b ≫= fun y => evalBinOp op (widthOf a) x y.
Proof. reflexivity. Qed.

Lemma defInfoAt_flag defs FlagBit MBBNo Val :
  defInfoAt (setDefSize (setDefValue defs FlagBit MBBNo Val) FlagBit MBBNo 1)
    FlagBit MBBNo = (1%N, Val).
Proof.
  unfold setDefSize, setDefValue.
  by rewrite setDefInfo_twice, !defInfoAt_setDefInfo.
Qed.

(** C2: for an instruction of the NEG family, raised as the subtraction
    of the operand from zero, the carry stored is the comparison of the
    constant zero with itself: it is false under every valuation, also
    when the operand is not zero and the test [operand != 0] is true. *)
Theorem testAndSetEflagSSAValue_NEG_carry MI Operand bits t :
  instrNameStartsWith MI "NEG" = true ->
  is_Some (getBlockNumbered MF (parentNumber MI)) ->
  getType Operand = IntegerTy bits ->
  let Zero := ConstantInt bits 0 in
  let StoredCF := ICmpInst ICMP_NE Zero Zero in
  exists t',
    testAndSetEflagSSAValue x86MIRaiser EFLAGS.CF MI (BinaryOperator Sub Zero Operand) t
      = Ok t' /\
    defInfoAt (physRegDefsInMBB t') EFLAGS.CF (parentNumber MI) = (1%N, Some StoredCF) /\
    forall rho x,
      eval rho Operand = Some x -> x <> 0 ->
      eval rho (ICmpInst ICMP_NE Operand Zero) = Some 1 /\
      eval rho StoredCF = Some 0.
Proof.
  intros Hneg Hblock Hty Zero StoredCF. subst Zero StoredCF.
  eexists. split_and!.
  - unfold testAndSetEflagSSAValue.
    cbn [assert mbind result_bind andb N.leb N.ltb N.compare EFLAGS.CF EFLAGS.UNDEFINED].
    rewrite (bool_decide_true _ Hblock). cbn [assert mbind result_bind].
    rewrite !bool_decide_false by done. rewrite bool_decide_true by done.
    unfold testCF. cbn [stripCasts]. rewrite Hneg.
    cbn [isInstruction isSub assert mbind result_bind testArgs getOperand lookup
         list_lookup getType].
    rewrite Hty. rewrite bool_decide_true by done.
    cbn [getZeroValueForNegation assert mbind result_bind].
    rewrite bool_decide_true by done. cbn [assert mbind result_bind].
    reflexivity.
  - cbn [physRegDefsInMBB setDefs setFlagValue]. apply defInfoAt_flag.
  - intros rho x Hx Hnz. split.
    + cbn [eval mbind option_bind]. rewrite Hx. cbn [mbind option_bind].
      unfold evalPredicate, wrap. rewrite Z.mod_0_l by (apply Z.pow_nonzero; lia).
      by rewrite bool_decide_true by done.
    + cbn [eval mbind option_bind]. unfold evalPredicate.
      by rewrite bool_decide_false by (intros Hne; by apply Hne).
Qed.

(** C9: for a shift to the left by one, the bit shifted out of the
    destination is its most-significant bit.  The carry stored is a
    select on the count between a test of that bit and the carry the
    block had before; the test compares the masked destination with
    zero as signed numbers, and the mask of the most-significant bit is
    the sign bit: the carry is false when the bit shifted out is 1. *)
Theorem testAndSetEflagSSAValue_SHL_carry MI Dst OldCF Size t rho d :
  opcodeName MI = "SHL8r1" ->
  is_Some (getBlockNumbered MF (parentNumber MI)) ->
  getType Dst = IntegerTy 8 ->
  defInfoAt (physRegDefsInMBB t) EFLAGS.CF (parentNumber MI) = (Size, Some OldCF) ->
  eval rho Dst = Some d ->
  Z.testbit d 7 = true ->
  exists t' NewCF,
    testAndSetEflagSSAValue x86MIRaiser EFLAGS.CF MI
      (BinaryOperator Shl Dst (ConstantInt 8 1)) t = Ok t' /\
    defInfoAt (physRegDefsInMBB t') EFLAGS.CF (parentNumber MI) = (1%N, Some NewCF) /\
    (exists ShiftedOut,
       NewCF = SelectInst (ICmpInst ICMP_SGT (ConstantInt 8 1) (ConstantInt 8 0))
                 ShiftedOut OldCF) /\
    eval rho NewCF = Some 0.
Proof.
  intros Hname Hblock Hty Hold Hd Hbit.
  eexists _, _. split_and!.
  - unfold testAndSetEflagSSAValue.
    cbn [assert mbind result_bind andb N.leb N.ltb N.compare EFLAGS.CF EFLAGS.UNDEFINED].
    rewrite (bool_decide_true _ Hblock). cbn [assert mbind result_bind].
    rewrite !bool_decide_false by done. rewrite bool_decide_true by done.
    unfold testCF, instrNameStartsWith. rewrite Hname.
    cbn [stripCasts String.prefix orb].
    cbn -[selectShiftedOutBit pushBack constantInt].
    unfold selectShiftedOutBit. cbn [physRegDefsInMBB pushBack].
    rewrite Hold. cbn [snd mbind result_bind]. reflexivity.
  - cbn [physRegDefsInMBB setDefs setFlagValue]. apply defInfoAt_flag.
  - eexists. reflexivity.
  - cbn [getType getPrimitiveSizeInBits]. rewrite !Hty.
    cbn [getPrimitiveSizeInBits]. rewrite eval_select.
    replace (eval rho (ICmpInst ICMP_SGT (ConstantInt 8 1) (constantInt 8 0)))
      with (Some 1) by reflexivity.
    cbn [mbind option_bind Z.eqb].
    rewrite eval_icmp, eval_binop, Hd.
    replace (eval rho (BinaryOperator Shl (constantInt 8 1)
               (BinaryOperator Sub (constantInt 8 (Z.of_N 8)) (ConstantInt 8 1))))
      with (Some (2 ^ 7)) by reflexivity.
    replace (eval rho (constantInt 8 0)) with (Some 0) by reflexivity.
    cbn [mbind option_bind evalBinOp]. rewrite land_pow2 by lia. rewrite Hbit.
    unfold widthOf. cbn [getType]. rewrite Hty. reflexivity.
Qed.

(** For a double shift to the right by one, the bit shifted out of the
    destination is its least-significant bit; the carry stored tests
    the bit next to it. *)
Lemma testAndSetEflagSSAValue_SHRD_carry MI Src Dst OldCF Size t rho d :
  opcodeName MI = "SHRD32rri8" ->
  is_Some (getBlockNumbered MF (parentNumber MI)) ->
  getType Dst = IntegerTy 32 ->
  defInfoAt (physRegDefsInMBB t) EFLAGS.CF (parentNumber MI) = (Size, Some OldCF) ->
  eval rho Dst = Some d ->
  Z.testbit d 0 = true ->
  Z.testbit d 1 = false ->
  exists t' NewCF,
    testAndSetEflagSSAValue x86MIRaiser EFLAGS.CF MI
      (CallInst fshr [Src; Dst; ConstantInt 32 1]) t = Ok t' /\
    defInfoAt (physRegDefsInMBB t') EFLAGS.CF (parentNumber MI) = (1%N, Some NewCF) /\
    eval rho NewCF = Some 0.
Proof.
  intros Hname Hblock Hty Hold Hd Hbit0 Hbit1.
  eexists _, _. split_and!.
  - unfold testAndSetEflagSSAValue.
    cbn [assert mbind result_bind andb N.leb N.ltb N.compare EFLAGS.CF EFLAGS.UNDEFINED].
    rewrite (bool_decide_true _ Hblock). cbn [assert mbind result_bind].
    rewrite !bool_decide_false by done. rewrite bool_decide_true by done.
    unfold testCF, instrNameStartsWith. rewrite Hname.
    cbn [stripCasts String.prefix orb].
    cbn -[selectShiftedOutBit pushBack constantInt].
    unfold selectShiftedOutBit. cbn [physRegDefsInMBB pushBack].
    rewrite Hold. cbn [snd mbind result_bind]. reflexivity.
  - cbn [physRegDefsInMBB setDefs setFlagValue]. apply defInfoAt_flag.
  - cbn [getType getPrimitiveSizeInBits]. rewrite eval_select.
    replace (eval rho (ICmpInst ICMP_SGT (ConstantInt 32 1) (constantInt 32 0)))
      with (Some 1) by reflexivity.
    cbn [mbind option_bind Z.eqb].
    rewrite eval_icmp, eval_binop, Hd.
    replace (eval rho (BinaryOperator Shl (constantInt 32 1) (ConstantInt 32 1)))
      with (Some (2 ^ 1)) by reflexivity.
    replace (eval rho (constantInt 32 0)) with (Some 0) by reflexivity.
    cbn [mbind option_bind evalBinOp]. rewrite land_pow2 by lia. rewrite Hbit1.
    unfold widthOf. cbn [getType]. rewrite Hty. reflexivity.
Qed.

End Properties.

(** ** The properties on the sample functions *)

Section Samples.

Import Sample.

(** C8: block 3 has the predecessors 2 and 0; a definition of the
    register reaches block 2 (from block 1) and none reaches block 0,
    the entry block.  The walk from block 2 visits block 0 on its way
    and finds the definition of block 1; block 0 is then skipped as
    visited, and the definition is returned although all predecessors
    are required.  With the predecessors in the other order the result
    is empty. *)
Theorem getReachingDef_AllPreds_visited_predecessor :
  predecessorsOf skipping 3 = [2; 0] /\
  getInBlockRegOrArgDefVal (raiser skipping []) RAX 3 definedInBlock1
    = Ok (INVALID_MBB, None) /\
  getGlobalReachingDefs (raiser skipping []) RAX 2 false definedInBlock1
    = Ok [(1, Some V1)] /\
  getGlobalReachingDefs (raiser skipping []) RAX 0 false definedInBlock1 = Ok [] /\
  getReachingDef (raiser skipping []) RAX 3 true false definedInBlock1
    = Ok (Some V1, definedInBlock1) /\
  getReachingDef (raiser skipping []) RAX 3 false false definedInBlock1
    = Ok (Some V1, definedInBlock1) /\
  getReachingDef (raiser [block []; block [0]; block [0; 1]; block [0; 2]] [])
      RAX 3 true false definedInBlock1
    = Ok (None, definedInBlock1).
Proof. vm_compute. by repeat split. Qed.

(** C1, as stated, fails: the two middle blocks of the diamond hold the
    identical value, and resolving the register in the join block does
    not return it; a slot is allocated and its load is returned. *)
Lemma identical_value_is_promoted :
  getGlobalReachingDefs (raiser diamond []) RAX 3 false sameValue
    = Ok [(1, Some V1); (2, Some V1)] /\
  getReachingDef (raiser diamond []) RAX 3 false false sameValue
    <> Ok (Some V1, sameValue) /\
  exists t',
    getReachingDef (raiser diamond []) RAX 3 false false sameValue
      = Ok (Some (LoadInst (AllocaInst i64 0)), t') /\
    entryAllocas t' = [AllocaInst i64 0].
Proof.
  split_and!.
  - by vm_compute.
  - vm_compute. intros Heq. inversion Heq.
  - eexists. split; by vm_compute.
Qed.


(** C5, as stated, fails: the record of block 1 is pending, and the
    walk from block 2 records a hit at block 1 and stops there; the
    value of block 0 is not reached. *)
Lemma hit_recorded_at_pending_block :
  storedRecord (raiser chain []) pendingInBlock1 RAX 1 = Some (64%N, None) /\
  getGlobalReachingDefs (raiser chain []) RAX 2 false pendingInBlock1
    = Ok [(1, None)].
Proof. split; by vm_compute. Qed.

(** *** The theorems at the sample functions *)

Lemma seven_arguments_read_past_the_registers :
  seedArguments (raiser diamond (replicate 7 i64)) (replicate 7 i64) 0 ∅
    = Abort (IndexOutOfBounds 6) /\
  X86RaisedValueTracker (raiser diamond (replicate 7 i64)) emptyTracker
    = Abort (IndexOutOfBounds 6).
Proof.
  apply (seedArguments_reads_past_argument_registers
           (raiser diamond (replicate 7 i64)) emptyTracker).
  - repeat constructor.
  - simpl. lia.
Defined.


Lemma chain_hits_are_first_records :
  exists defs,
    getGlobalReachingDefs (raiser chain []) RAX 2 false pendingInBlock1 = Ok defs /\
    (forall b v, (b, v) ∈ defs ->
       clearReach (raiser chain []) RAX pendingInBlock1 2 b /\
       getInBlockRegOrArgDefVal (raiser chain []) RAX b pendingInBlock1 = Ok (b, v) /\
       b <> INVALID_MBB) /\
    (false = false ->
     forall b v,
       clearReach (raiser chain []) RAX pendingInBlock1 2 b ->
       getInBlockRegOrArgDefVal (raiser chain []) RAX b pendingInBlock1 = Ok (b, v) ->
       b <> INVALID_MBB ->
       (b, v) ∈ defs).
Proof.
  apply (getGlobalReachingDefs_hits_are_first_records
           (raiser chain []) RAX 2 false pendingInBlock1 INVALID_MBB).
  - apply (bool_decide_unpack _). by vm_compute.
  - vm_compute. eauto.
  - by vm_compute.
Defined.

Lemma chain_single_reaching_def :
  getReachingDef (raiser chain []) RAX 2 false false definedInBlock0
    = Ok (Some V1, definedInBlock0).
Proof.
  pose proof (getReachingDef_single_or_no_reaching_def
                (raiser chain []) RAX 2 false false definedInBlock0 INVALID_MBB)
    as Hthm.
  destruct Hthm as (Hone & _).
  - apply (bool_decide_unpack _). by vm_compute.
  - vm_compute. eauto.
  - by vm_compute.
  - apply (Hone 0 V1). by vm_compute.
Defined.

Lemma chain_table_unchanged :
  exists v t',
    getReachingDef (raiser chain []) RAX 2 false false definedInBlock0 = Ok (v, t') /\
    physRegDefsInMBB t' = physRegDefsInMBB definedInBlock0 /\
    getInBlockRegOrArgDefVal (raiser chain []) RAX 2 t'
      = getInBlockRegOrArgDefVal (raiser chain []) RAX 2 definedInBlock0 /\
    getGlobalReachingDefs (raiser chain []) RAX 2 false t' = Ok [(0, Some V1)] /\
    getReachingDef (raiser chain []) RAX 2 false false t' = Ok (v, t').
Proof.
  apply (getReachingDef_leaves_table_unchanged
           (raiser chain []) RAX 2 false false definedInBlock0 [(0, Some V1)]).
  - by vm_compute.
  - simpl. lia.
Defined.

Lemma neg_of_five_clears_carry :
  exists t',
    testAndSetEflagSSAValue (raiser diamond [IntegerTy 32]) EFLAGS.CF (instr "NEG32r")
      (BinaryOperator Sub (ConstantInt 32 0) (Argument 0 (IntegerTy 32))) emptyTracker
      = Ok t' /\
    eval (valuation 5) (ICmpInst ICMP_NE (Argument 0 (IntegerTy 32)) (ConstantInt 32 0))
      = Some 1 /\
    (exists StoredCF,
       defInfoAt (physRegDefsInMBB t') EFLAGS.CF 0 = (1%N, Some StoredCF) /\
       eval (valuation 5) StoredCF = Some 0).
Proof.
  destruct (testAndSetEflagSSAValue_NEG_carry
              (raiser diamond [IntegerTy 32]) (instr "NEG32r")
              (Argument 0 (IntegerTy 32)) 32%N emptyTracker)
    as (t' & Hres & Hcf & Heval).
  - reflexivity.
  - vm_compute. eauto.
  - reflexivity.
  - destruct (Heval (valuation 5) 5 ltac:(reflexivity) ltac:(lia)) as [Hclaim Hstored].
    exists t'. split_and!; [exact Hres | exact Hclaim |].
    eexists. split; [exact Hcf | exact Hstored].
Defined.

Lemma shl_of_sign_bit_clears_carry :
  Z.testbit 128 7 = true /\
  exists t' NewCF,
    testAndSetEflagSSAValue (raiser diamond [IntegerTy 8]) EFLAGS.CF (instr "SHL8r1")
      (BinaryOperator Shl (Argument 0 (IntegerTy 8)) (ConstantInt 8 1)) carrySet
      = Ok t' /\
    defInfoAt (physRegDefsInMBB t') EFLAGS.CF 0 = (1%N, Some NewCF) /\
    eval (valuation 128) NewCF = Some 0.
Proof.
  split; [reflexivity|].
  destruct (testAndSetEflagSSAValue_SHL_carry
              (raiser diamond [IntegerTy 8]) (instr "SHL8r1")
              (Argument 0 (IntegerTy 8)) (ConstantInt 1 1) 1%N carrySet
              (valuation 128) 128)
    as (t' & NewCF & Hres & Hcf & _ & Heval).
  - reflexivity.
  - vm_compute. eauto.
  - reflexivity.
  - by vm_compute.
  - reflexivity.
  - reflexivity.
  - exists t', NewCF. by split_and!.
Defined.

End Samples.

(** ** Further properties of the tracker *)

Section Table.

Variable x86MIRaiser : X86MachineInstructionRaiser.

Abbreviation lookupDef' := (getInBlockRegOrArgDefVal x86MIRaiser).

(** *** Recording a definition and reading it back *)

Lemma setPhysRegSSAValue_Ok PhysReg MBBNo Val t t' :
  setPhysRegSSAValue x86MIRaiser PhysReg MBBNo Val t = Ok t' ->
  PhysReg <> X86.NoRegister /\
  getPhysRegSizeInBits x86MIRaiser PhysReg <> 0%N /\
  t' = setDefs t (setDefInfo (physRegDefsInMBB t)
                    (find64BitSuperReg x86MIRaiser PhysReg) MBBNo
                    (getPhysRegSizeInBits x86MIRaiser PhysReg, Val)).
Proof.
  intros H. unfold setPhysRegSSAValue in H.
  inv_bind H. apply assert_Ok, bool_decide_eq_true in Ha.
  inv_bind H. apply assert_Ok, bool_decide_eq_true in Ha0.
  unfold setDefSize, setDefValue in *.
  rewrite setDefInfo_twice, !defInfoAt_setDefInfo in *. simpl in Ha0.
  inversion H; subst. done.
Qed.

Lemma getInBlockPhysRegSize_record PhysReg MBBNo t Size Val :
  storedRecord x86MIRaiser t PhysReg MBBNo = Some (Size, Val) ->
  Size <> 0%N ->
  getInBlockPhysRegSize x86MIRaiser PhysReg MBBNo t = Ok Size.
Proof.
  unfold storedRecord, getInBlockPhysRegSize. intros Hrec Hsz.
  destruct (physRegDefsInMBB t !! _) as [m|]; simpl in *; [|done].
  rewrite Hrec. simpl. by rewrite bool_decide_true.
Qed.

Lemma getInBlockPhysRegSize_no_record PhysReg MBBNo t :
  storedRecord x86MIRaiser t PhysReg MBBNo = None ->
  getInBlockPhysRegSize x86MIRaiser PhysReg MBBNo t = Ok 0%N.
Proof.
  unfold storedRecord, getInBlockPhysRegSize. intros Hrec.
  destruct (physRegDefsInMBB t !! _) as [m|]; simpl in *; [|done].
  by rewrite Hrec.
Qed.

(** X1: a definition recorded for a register that is some register and
    has a size is read back, value and size, through every register
    with the same super-register. *)
Theorem setPhysRegSSAValue_read_back PhysReg MBBNo V t :
  PhysReg <> X86.NoRegister ->
  getPhysRegSizeInBits x86MIRaiser PhysReg <> 0%N ->
  exists t',
    setPhysRegSSAValue x86MIRaiser PhysReg MBBNo (Some V) t = Ok t' /\
    forall SubReg,
      find64BitSuperReg x86MIRaiser SubReg = find64BitSuperReg x86MIRaiser PhysReg ->
      lookupDef' SubReg MBBNo t' = Ok (MBBNo, Some V) /\
      getInBlockPhysRegSize x86MIRaiser SubReg MBBNo t'
        = Ok (getPhysRegSizeInBits x86MIRaiser PhysReg).
Proof.
  intros Hreg Hsz. eexists. split; [by apply setPhysRegSSAValue_ok|].
  intros SubReg Hsuper.
  assert (storedRecord x86MIRaiser
            (setDefs t (setDefInfo (physRegDefsInMBB t)
                          (find64BitSuperReg x86MIRaiser PhysReg) MBBNo
                          (getPhysRegSizeInBits x86MIRaiser PhysReg, Some V)))
            SubReg MBBNo
          = Some (getPhysRegSizeInBits x86MIRaiser PhysReg, Some V)) as Hrec.
  { unfold storedRecord. rewrite Hsuper. simpl.
    rewrite lookup_setDefInfo. by rewrite decide_True. }
  split; [by eapply lookupDef_record | by eapply getInBlockPhysRegSize_record].
Qed.

(** X2: recording a definition fails for the null register and for a
    register without a size, and when it succeeds it changes one record
    only: the lookups of every other block, and of every register with
    another super-register, are what they were, and nothing is emitted
    or allocated. *)
Theorem setPhysRegSSAValue_changes_one_record PhysReg MBBNo Val t :
  (PhysReg = X86.NoRegister ->
   setPhysRegSSAValue x86MIRaiser PhysReg MBBNo Val t
     = Abort (AssertionFailure "Attempt to set value of an invalid register")) /\
  (PhysReg <> X86.NoRegister ->
   getPhysRegSizeInBits x86MIRaiser PhysReg = 0%N ->
   setPhysRegSSAValue x86MIRaiser PhysReg MBBNo Val t
     = Abort (AssertionFailure "Found incorrect size of physical register")) /\
  (forall t',
     setPhysRegSSAValue x86MIRaiser PhysReg MBBNo Val t = Ok t' ->
     (forall Reg' MBBNo',
        find64BitSuperReg x86MIRaiser Reg' <> find64BitSuperReg x86MIRaiser PhysReg
        \/ MBBNo' <> MBBNo ->
        storedRecord x86MIRaiser t' Reg' MBBNo' = storedRecord x86MIRaiser t Reg' MBBNo' /\
        lookupDef' Reg' MBBNo' t' = lookupDef' Reg' MBBNo' t /\
        getInBlockPhysRegSize x86MIRaiser Reg' MBBNo' t'
          = getInBlockPhysRegSize x86MIRaiser Reg' MBBNo' t) /\
     raisedBlocks t' = raisedBlocks t /\
     entryAllocas t' = entryAllocas t /\
     frameObjects t' = frameObjects t /\
     defsToPromote t' = defsToPromote t).
Proof.
  split_and!.
  - intros ->. reflexivity.
  - intros Hreg Hsz. unfold setPhysRegSSAValue.
    rewrite (bool_decide_true (PhysReg <> X86.NoRegister)) by done.
    cbn [assert mbind result_bind].
    unfold setDefSize, setDefValue.
    rewrite setDefInfo_twice, !defInfoAt_setDefInfo. simpl.
    by rewrite bool_decide_false by (intros Hne; by apply Hne).
  - intros t' Hset. apply setPhysRegSSAValue_Ok in Hset as (_ & _ & ->).
    split; [|done]. intros Reg' MBBNo' Hother.
    assert (storedRecord x86MIRaiser
              (setDefs t (setDefInfo (physRegDefsInMBB t)
                            (find64BitSuperReg x86MIRaiser PhysReg) MBBNo
                            (getPhysRegSizeInBits x86MIRaiser PhysReg, Val)))
              Reg' MBBNo'
            = storedRecord x86MIRaiser t Reg' MBBNo') as Hrec.
    { unfold storedRecord. simpl. rewrite lookup_setDefInfo.
      rewrite decide_False; [done|]. intros [? ?]. destruct Hother; congruence. }
    split; [done|].
    unfold getInBlockRegOrArgDefVal, getInBlockPhysRegSize, storedRecord in *.
    simpl in *.
    destruct (setDefInfo _ _ _ _ !! _) as [m'|], (physRegDefsInMBB t !! _) as [m|];
      simpl in *.
    + by rewrite Hrec.
    + by rewrite Hrec.
    + by rewrite <- Hrec.
    + done.
Qed.

(** X3: the size of a register in a block is 0 exactly when the table
    has no record for it there.  The arguments are not consulted: for a
    register that carries an argument and has no record in the entry
    block, the lookup of the value finds the argument and the size is
    0. *)
Theorem getInBlockPhysRegSize_zero_without_record PhysReg MBBNo t :
  (getInBlockPhysRegSize x86MIRaiser PhysReg MBBNo t = Ok 0%N <->
   storedRecord x86MIRaiser t PhysReg MBBNo = None) /\
  (forall ArgTy,
     MBBNo = 0 ->
     storedRecord x86MIRaiser t PhysReg MBBNo = None ->
     0 < getArgumentNumber x86MIRaiser PhysReg ->
     raisedFunctionArgs x86MIRaiser !! Z.to_nat (getArgumentNumber x86MIRaiser PhysReg - 1)
       = Some ArgTy ->
     lookupDef' PhysReg MBBNo t
       = Ok (0, Some (Argument (Z.to_nat (getArgumentNumber x86MIRaiser PhysReg - 1)) ArgTy)) /\
     getInBlockPhysRegSize x86MIRaiser PhysReg MBBNo t = Ok 0%N).
Proof.
  split.
  - split; [|apply getInBlockPhysRegSize_no_record].
    unfold storedRecord, getInBlockPhysRegSize.
    destruct (physRegDefsInMBB t !! _) as [m|]; simpl; [|done].
    destruct (m !! MBBNo) as [[Size Val]|]; [|done].
    destruct (decide (Size = 0%N)) as [->|Hne].
    + by rewrite bool_decide_false by (intros Hne; by apply Hne).
    + rewrite bool_decide_true by done. simpl. intros Heq. by inversion Heq.
  - intros ArgTy -> Hrec Hpos Harg. split.
    + apply lookupDef_argument; auto.
    + by apply getInBlockPhysRegSize_no_record.
Qed.

End Table.

Section Construction.

Variable x86MIRaiser : X86MachineInstructionRaiser.

(** *** The table after construction *)

Lemma allPending_setDefInfo defs Reg MBBNo Size :
  allPending defs -> Size <> 0%N ->
  allPending (setDefInfo defs Reg MBBNo (Size, None)).
Proof.
  intros Hall Hsz Reg' m MBBNo' info Hm Hinfo. unfold setDefInfo in Hm.
  destruct (decide (Reg = Reg')) as [<-|Hne].
  - rewrite lookup_insert_eq in Hm. inversion Hm; subst. clear Hm.
    destruct (decide (MBBNo = MBBNo')) as [<-|Hne].
    + rewrite lookup_insert_eq in Hinfo. by inversion Hinfo; subst.
    + rewrite lookup_insert_ne in Hinfo by done.
      destruct (defs !! Reg) as [m|] eqn:Hm; simpl in Hinfo; [by eapply Hall|].
      by rewrite lookup_empty in Hinfo.
  - rewrite lookup_insert_ne in Hm by done. by eapply Hall.
Qed.

Lemma seedArguments_allPending args ArgNum defs defs' :
  Forall (fun ty => getPrimitiveSizeInBits ty <> 0%N) args ->
  allPending defs ->
  seedArguments x86MIRaiser args ArgNum defs = Ok defs' ->
  allPending defs'.
Proof.
  revert ArgNum defs. induction args as [|ArgTy rest IH];
    intros ArgNum defs Hsz Hall Hseed; simpl in Hseed.
  { by inversion Hseed; subst. }
  apply list.Forall_cons in Hsz as [Hty Hsz].
  destruct (_ <? _)%nat; [by inversion Hseed; subst|].
  inv_bind Hseed.
  destruct (GPR64ArgRegs64Bit x86MIRaiser !! ArgNum) as [Reg|]; [|discriminate].
  eapply IH; [done| |exact Hseed]. by apply allPending_setDefInfo.
Qed.

Lemma physRegSzInBits_Ok PhysReg Size :
  physRegSzInBits x86MIRaiser PhysReg = Ok Size -> isGPRSize Size.
Proof.
  unfold physRegSzInBits, isGPRSize. intros H.
  repeat (destruct (_ x86MIRaiser PhysReg); [inversion H; subst; tauto|]).
  discriminate.
Qed.

Lemma isGPRSize_nonzero Size : isGPRSize Size -> Size <> 0%N.
Proof. intros [->|[->|[->| ->]]]; done. Qed.

(** What a step of the scan does to the table: nothing, or it seeds
    the super-register of the operand in the block. *)
Lemma seedOperand_Ok MBBNo defs MO defs' :
  seedOperand x86MIRaiser MBBNo defs MO = Ok defs' ->
  (isReg MO && isDef MO && negb (isStatusReg x86MIRaiser (getReg MO)) = false
   /\ defs' = defs) \/
  (isReg MO && isDef MO && negb (isStatusReg x86MIRaiser (getReg MO)) = true /\
   exists Size, isGPRSize Size /\
     defs' = setDefInfo defs (find64BitSuperReg x86MIRaiser (getReg MO)) MBBNo (Size, None)).
Proof.
  unfold seedOperand, isStatusReg. intros H.
  destruct (isReg MO), (isDef MO); simpl in *;
    try (left; split; [done | by inversion H]).
  destruct (_ || _); simpl; [left; split; [done | by inversion H]|].
  inv_bind H. inversion H; subst. right. split; [done|].
  exists a. split; [by eapply physRegSzInBits_Ok | done].
Qed.

Lemma seededAt_setDefInfo defs Reg MBBNo Size SuperReg MBBNo' :
  isGPRSize Size ->
  seededAt defs SuperReg MBBNo' ->
  seededAt (setDefInfo defs Reg MBBNo (Size, None)) SuperReg MBBNo'.
Proof.
  intros Hsz (Size' & Hrec & Hsz'). unfold seededAt. rewrite lookup_setDefInfo.
  destruct (decide _); eauto.
Qed.

Lemma seedOperand_allPending MBBNo defs MO defs' :
  allPending defs ->
  seedOperand x86MIRaiser MBBNo defs MO = Ok defs' ->
  allPending defs'.
Proof.
  intros Hall H. apply seedOperand_Ok in H as [[_ ->]|(_ & Size & Hsz & ->)]; [done|].
  apply allPending_setDefInfo; [done | by apply isGPRSize_nonzero].
Qed.

Lemma seedOperands_seeded MBBNo ops defs defs' :
  seedOperands x86MIRaiser MBBNo ops defs = Ok defs' ->
  (allPending defs -> allPending defs') /\
  (forall SuperReg MBBNo', seededAt defs SuperReg MBBNo' -> seededAt defs' SuperReg MBBNo') /\
  (forall MO, MO ∈ ops ->
     isReg MO = true -> isDef MO = true ->
     isStatusReg x86MIRaiser (getReg MO) = false ->
     seededAt defs' (find64BitSuperReg x86MIRaiser (getReg MO)) MBBNo).
Proof.
  revert defs. induction ops as [|MO ops IH]; intros defs H; simpl in H.
  { inversion H; subst. split_and!; [done | done |].
    intros MO HMO. by apply elem_of_nil in HMO. }
  inv_bind H. rename a into defs1.
  destruct (IH _ H) as (Hpend & Hkeep & Hnew).
  pose proof (seedOperand_Ok _ _ _ _ Ha) as Hstep.
  split_and!.
  - intros Hall. apply Hpend. by eapply seedOperand_allPending.
  - intros SuperReg MBBNo' Hs. apply Hkeep.
    destruct Hstep as [[_ ->]|(_ & Size & Hsz & ->)]; [done|].
    by apply seededAt_setDefInfo.
  - intros MO' HMO' Hreg Hdef Hstatus.
    apply elem_of_cons in HMO' as [->|HMO']; [|by apply Hnew].
    apply Hkeep.
    destruct Hstep as [[Hno _]|(_ & Size & Hsz & ->)].
    + rewrite Hreg, Hdef, Hstatus in Hno. discriminate.
    + exists Size. rewrite lookup_setDefInfo. by rewrite decide_True.
Qed.

Lemma seedInstrs_seeded MBBNo MIs defs defs' :
  seedInstrs x86MIRaiser MBBNo MIs defs = Ok defs' ->
  (allPending defs -> allPending defs') /\
  (forall SuperReg MBBNo', seededAt defs SuperReg MBBNo' -> seededAt defs' SuperReg MBBNo') /\
  (forall MI MO, MI ∈ MIs -> getNumDefs MI <> 0%nat -> MO ∈ operands MI ->
     isReg MO = true -> isDef MO = true ->
     isStatusReg x86MIRaiser (getReg MO) = false ->
     seededAt defs' (find64BitSuperReg x86MIRaiser (getReg MO)) MBBNo).
Proof.
  revert defs. induction MIs as [|MI MIs IH]; intros defs H; simpl in H.
  { inversion H; subst. split_and!; [done | done |].
    intros MI MO HMI. by apply elem_of_nil in HMI. }
  inv_bind H. rename a into defs1.
  destruct (IH _ H) as (Hpend & Hkeep & Hnew).
  unfold seedInstr in Ha.
  destruct (getNumDefs MI) as [|n] eqn:Hnum.
  - inversion Ha; subst. split_and!; [done | done |].
    intros MI' MO HMI' Hn. apply elem_of_cons in HMI' as [->|HMI']; [done|].
    by apply Hnew.
  - destruct (seedOperands_seeded _ _ _ _ Ha) as (Hpend1 & Hkeep1 & Hnew1).
    split_and!; [auto | auto |].
    intros MI' MO HMI' Hn HMO Hreg Hdef Hstatus.
    apply elem_of_cons in HMI' as [->|HMI']; [|by eapply Hnew].
    apply Hkeep. by apply Hnew1.
Qed.

Lemma seedBlocks_seeded MBBs MBBNo defs defs' :
  seedBlocks x86MIRaiser MBBs MBBNo defs = Ok defs' ->
  (allPending defs -> allPending defs') /\
  (forall SuperReg MBBNo', seededAt defs SuperReg MBBNo' -> seededAt defs' SuperReg MBBNo') /\
  (forall (i : nat) MBB MI MO, MBBs !! i = Some MBB -> MI ∈ instrs MBB ->
     getNumDefs MI <> 0%nat -> MO ∈ operands MI ->
     isReg MO = true -> isDef MO = true ->
     isStatusReg x86MIRaiser (getReg MO) = false ->
     seededAt defs' (find64BitSuperReg x86MIRaiser (getReg MO)) (MBBNo + Z.of_nat i)).
Proof.
  revert MBBNo defs. induction MBBs as [|MBB MBBs IH]; intros MBBNo defs H; simpl in H.
  { inversion H; subst. split_and!; [done | done |]. intros i MBB MI MO Hi. done. }
  inv_bind H. rename a into defs1.
  destruct (IH _ _ H) as (Hpend & Hkeep & Hnew).
  destruct (seedInstrs_seeded _ _ _ _ Ha) as (Hpend1 & Hkeep1 & Hnew1).
  split_and!; [auto | auto |].
  intros i MBB' MI MO Hi HMI Hn HMO Hreg Hdef Hstatus.
  destruct i as [|i]; simpl in Hi.
  - inversion Hi; subst. rewrite Z.add_0_r. apply Hkeep. by eapply Hnew1.
  - replace (MBBNo + Z.of_nat (S i)) with (MBBNo + 1 + Z.of_nat i) by lia.
    by eapply Hnew.
Qed.

(** X4: when the arguments of the raised function have types of a size
    that is not zero, every record of the table of a new tracker is
    pending and has a size that is not zero.  The only values the
    lookup finds then are the arguments, in the entry block. *)
Theorem X86RaisedValueTracker_all_pending t0 t :
  Forall (fun ty => getPrimitiveSizeInBits ty <> 0%N) (raisedFunctionArgs x86MIRaiser) ->
  X86RaisedValueTracker x86MIRaiser t0 = Ok t ->
  allPending (physRegDefsInMBB t) /\
  sizesNonZero t /\
  forall PhysReg MBBNo b V,
    getInBlockRegOrArgDefVal x86MIRaiser PhysReg MBBNo t = Ok (b, Some V) ->
    MBBNo = 0 /\ b = 0 /\
    exists ArgTy,
      raisedFunctionArgs x86MIRaiser
        !! Z.to_nat (getArgumentNumber x86MIRaiser PhysReg - 1) = Some ArgTy /\
      V = Argument (Z.to_nat (getArgumentNumber x86MIRaiser PhysReg - 1)) ArgTy.
Proof.
  intros Hargs H. unfold X86RaisedValueTracker in H.
  inv_bind H. rename a into defs0. inv_bind H. rename a into defs1.
  inversion H; subst. clear H. simpl.
  assert (allPending defs1) as Hall.
  { apply (seedBlocks_seeded _ _ _ _ Ha0).
    eapply seedArguments_allPending; [exact Hargs| |exact Ha].
    intros Reg m MBBNo info Hm. by rewrite lookup_empty in Hm. }
  split_and!; [done| |].
  - intros Reg m Hm MBBNo info Hinfo. by apply (Hall _ _ _ _ Hm Hinfo).
  - intros PhysReg MBBNo b V Hl. unfold getInBlockRegOrArgDefVal in Hl. simpl in Hl.
    inv_bind Hl. destruct a as [b0 v0].
    assert (v0 = None) as ->.
    { destruct (defs1 !! _) as [m|] eqn:Hm; [|by inversion Ha1].
      destruct (m !! MBBNo) as [[Size Val]|] eqn:Hinfo; [|by inversion Ha1].
      inv_bind Ha1. inversion Ha1; subst.
      by destruct (Hall _ _ _ _ Hm Hinfo) as [_ ?]. }
    destruct (MBBNo =? 0) eqn:Hz; [|by inversion Hl].
    apply Z.eqb_eq in Hz. subst MBBNo.
    destruct (_ && _); [|by inversion Hl].
    destruct (raisedFunctionArgs x86MIRaiser !! _) as [ArgTy|] eqn:Harg;
      inversion Hl; subst.
    split_and!; [done | done | eauto].
Qed.

(** X5: every register that an instruction of a block defines, the
    status registers apart, has a pending record under its
    super-register in that block after construction. *)
Theorem X86RaisedValueTracker_seeds_definitions t0 t (n : nat) MBB MI MO :
  X86RaisedValueTracker x86MIRaiser t0 = Ok t ->
  getMF x86MIRaiser !! n = Some MBB ->
  MI ∈ instrs MBB ->
  getNumDefs MI <> 0%nat ->
  MO ∈ operands MI ->
  isReg MO = true ->
  isDef MO = true ->
  isStatusReg x86MIRaiser (getReg MO) = false ->
  exists Size,
    storedRecord x86MIRaiser t (getReg MO) (Z.of_nat n) = Some (Size, None) /\
    isGPRSize Size /\
    getInBlockPhysRegSize x86MIRaiser (getReg MO) (Z.of_nat n) t = Ok Size.
Proof.
  intros H Hn HMI Hnum HMO Hreg Hdef Hstatus. unfold X86RaisedValueTracker in H.
  inv_bind H. rename a into defs0. inv_bind H. rename a into defs1.
  inversion H; subst. clear H.
  destruct (seedBlocks_seeded _ _ _ _ Ha0) as (_ & _ & Hnew).
  destruct (Hnew n MBB MI MO Hn HMI Hnum HMO Hreg Hdef Hstatus) as (Size & Hrec & Hsz).
  rewrite Z.add_0_l in Hrec.
  exists Size. split_and!; [done | done |].
  eapply getInBlockPhysRegSize_record; [exact Hrec | by apply isGPRSize_nonzero].
Qed.

End Construction.

Section Walk.

Variable x86MIRaiser : X86MachineInstructionRaiser.

(** *** Termination and failures of the search *)

Lemma lookupDef_Abort PhysReg MBBNo t e :
  getInBlockRegOrArgDefVal x86MIRaiser PhysReg MBBNo t = Abort e ->
  e = AssertionFailure "Found incorrect size of physical register".
Proof.
  unfold getInBlockRegOrArgDefVal. intros H.
  destruct (physRegDefsInMBB t !! _) as [m|]; simpl in H.
  - destruct (m !! MBBNo) as [[Size Val]|]; simpl in H.
    + destruct (bool_decide (Size <> 0%N)); simpl in H; [|by inversion H].
      repeat case_match; discriminate.
    + repeat case_match; discriminate.
  - repeat case_match; discriminate.
Qed.

Lemma walkWorkList_Abort fuel PhysReg t WL w e :
  walkWorkList x86MIRaiser fuel PhysReg t WL w = Abort e ->
  e = OutOfFuel \/ e = AssertionFailure "Found incorrect size of physical register".
Proof.
  revert WL w. induction fuel as [|fuel IH]; intros WL w H.
  { destruct WL; simpl in H; [discriminate | inversion H; auto]. }
  destruct WL as [|b WL]; simpl in H; [discriminate|].
  destruct (decide (b ∈ BlockVisited w)); [by eapply IH|].
  destruct (getInBlockRegOrArgDefVal x86MIRaiser PhysReg b t) as [r|e'] eqn:Hl;
    simpl in H.
  - destruct (bool_decide _); by eapply IH.
  - inversion H; subst. right. by eapply lookupDef_Abort.
Qed.

Lemma walkPredecessors_Abort fuel PhysReg t AllPreds preds w e :
  walkPredecessors x86MIRaiser fuel PhysReg t AllPreds preds w = Abort e ->
  e = OutOfFuel \/ e = AssertionFailure "Found incorrect size of physical register".
Proof.
  revert w. induction preds as [|P preds IH]; intros w H; simpl in H; [discriminate|].
  destruct (AllPreds && negb (RDFound w)); [discriminate|].
  destruct (decide (P ∈ BlockVisited w)); [by eapply IH|].
  destruct (walkWorkList x86MIRaiser fuel PhysReg t [P] _) as [w'|e'] eqn:Hw;
    simpl in H.
  - by eapply IH.
  - inversion H; subst. by eapply walkWorkList_Abort.
Qed.

(** X6: the search for the reaching definitions fails in two ways only:
    for a number that is no block of the function, and for a table
    that holds a size 0.  The walk over the predecessors ends on every
    control-flow graph, and the test that a value found in the block
    carries the number of the block never fails. *)
Theorem getGlobalReachingDefs_failures PhysReg MBBNo AllPreds t e :
  getGlobalReachingDefs x86MIRaiser PhysReg MBBNo AllPreds t = Abort e ->
  (e = AssertionFailure "Illegal block number" /\
   getBlockNumbered (getMF x86MIRaiser) MBBNo = None) \/
  (e = AssertionFailure "Found incorrect size of physical register" /\
   ~ sizesNonZero t).
Proof.
  intros H.
  destruct (getBlockNumbered (getMF x86MIRaiser) MBBNo) as [CurMBB|] eqn:Hblock.
  - right.
    assert (~ sizesNonZero t) as Hsz.
    { intros Hsz.
      destruct (getGlobalReachingDefs_total x86MIRaiser PhysReg MBBNo AllPreds t Hsz)
        as [defs Hdefs]; [by rewrite Hblock | congruence]. }
    split; [|done].
    unfold getGlobalReachingDefs in H. rewrite Hblock in H.
    destruct (getInBlockRegOrArgDefVal x86MIRaiser PhysReg MBBNo t) as [[b v]|e'] eqn:Hl;
      simpl in H.
    + destruct v as [v|]; simpl in H.
      * destruct (lookupDef_block _ _ _ _ _ _ Hl) as [[_ ?]| ->]; [done|].
        rewrite bool_decide_true in H by done. simpl in H. discriminate.
      * destruct (walkPredecessors _ _ _ _ _ _ _) as [w|e'] eqn:Hw; simpl in H;
          [discriminate|].
        inversion H; subst.
        destruct (walkPredecessors_Abort _ _ _ _ _ _ _ Hw) as [->|]; [|done].
        by apply walkPredecessors_fuel in Hw.
    + inversion H; subst. by eapply lookupDef_Abort.
  - left. unfold getGlobalReachingDefs in H. rewrite Hblock in H.
    by inversion H.
Qed.

(** *** Definitions required along all predecessors *)

Lemma walkPredecessors_AllPreds fuel PhysReg t preds w w' :
  walkPredecessors x86MIRaiser fuel PhysReg t true preds w = Ok w' ->
  RDFound w' = false \/
  walkPredecessors x86MIRaiser fuel PhysReg t false preds w = Ok w'.
Proof.
  revert w. induction preds as [|P preds IH]; intros w H; simpl in *; [auto|].
  destruct (RDFound w) eqn:Hfound; simpl in H.
  - destruct (decide (P ∈ BlockVisited w)); [by apply IH|].
    inv_bind H. rewrite Ha. simpl. by apply IH.
  - inversion H; subst. auto.
Qed.

Lemma walkPredecessors_not_AllPreds fuel PhysReg t preds w w' :
  walkPredecessors x86MIRaiser fuel PhysReg t false preds w = Ok w' ->
  exists w'',
    walkPredecessors x86MIRaiser fuel PhysReg t true preds w = Ok w'' /\
    (RDFound w'' = false \/ w'' = w').
Proof.
  revert w. induction preds as [|P preds IH]; intros w H; simpl in *.
  { inversion H; subst. eauto. }
  destruct (RDFound w) eqn:Hfound; simpl; [|eauto].
  destruct (decide (P ∈ BlockVisited w)); [by apply IH|].
  inv_bind H. rewrite Ha. simpl. by apply IH.
Qed.

Lemma getGlobalReachingDefs_AllPreds PhysReg MBBNo t defs :
  getGlobalReachingDefs x86MIRaiser PhysReg MBBNo true t = Ok defs ->
  defs = [] \/ getGlobalReachingDefs x86MIRaiser PhysReg MBBNo false t = Ok defs.
Proof.
  unfold getGlobalReachingDefs. intros H.
  destruct (getBlockNumbered _ _) as [CurMBB|]; [|discriminate].
  inv_bind H. rewrite Ha. simpl. destruct a as [b [v|]]; simpl in *; [by right|].
  inv_bind H. inv_bind Ha0. inversion Ha0; subst. clear Ha0.
  destruct (RDFound a0) eqn:Hfound; simpl in H.
  - destruct (walkPredecessors_AllPreds _ _ _ _ _ _ Ha1) as [Hnone|Hsame]; [congruence|].
    right. rewrite Hsame. simpl. exact H.
  - left. by inversion H.
Qed.

(** X7: requiring the definitions along all predecessors never changes
    what is found, it only withholds it: the strict search returns the
    result of the plain search or nothing, and the strict query returns
    what the plain query returns, with the same effects, or no value
    and no effect. *)
Theorem getReachingDef_AllPreds_withholds PhysReg MBBNo AnySubReg t :
  (forall defs,
     getGlobalReachingDefs x86MIRaiser PhysReg MBBNo true t = Ok defs ->
     defs = [] \/ getGlobalReachingDefs x86MIRaiser PhysReg MBBNo false t = Ok defs) /\
  (forall defs,
     getGlobalReachingDefs x86MIRaiser PhysReg MBBNo false t = Ok defs ->
     getGlobalReachingDefs x86MIRaiser PhysReg MBBNo true t = Ok [] \/
     getGlobalReachingDefs x86MIRaiser PhysReg MBBNo true t = Ok defs) /\
  (forall v t',
     getReachingDef x86MIRaiser PhysReg MBBNo true AnySubReg t = Ok (v, t') ->
     (v = None /\ t' = t) \/
     getReachingDef x86MIRaiser PhysReg MBBNo false AnySubReg t = Ok (v, t')).
Proof.
  split_and!.
  - apply getGlobalReachingDefs_AllPreds.
  - unfold getGlobalReachingDefs. intros defs H.
    destruct (getBlockNumbered _ _) as [CurMBB|]; [|discriminate].
    inv_bind H. rewrite Ha. simpl. destruct a as [b [v|]]; simpl in *; [by right|].
    inv_bind H. inv_bind Ha0. inversion Ha0; subst. clear Ha0.
    destruct (walkPredecessors_not_AllPreds _ _ _ _ _ _ Ha1) as (w'' & -> & [Hnone| ->]);
      simpl.
    + left. by rewrite Hnone.
    + destruct (RDFound a0); simpl; [by right | by left].
  - intros v t' H. unfold getReachingDef in H.
    destruct (getGlobalReachingDefs x86MIRaiser PhysReg MBBNo true t) as [defs|] eqn:Hdefs;
      [|discriminate].
    simpl in H.
    destruct (getGlobalReachingDefs_AllPreds _ _ _ _ Hdefs) as [->|Hplain].
    + simpl in H. inversion H; subst. by left.
    + right. unfold getReachingDef. rewrite Hplain. exact H.
Qed.

(** *** A definition in the block itself *)

(** X8: a value recorded for a register in a block is what the query
    for the register in that block returns, through every register
    with the same super-register, whatever the predecessors hold and
    whatever the flags of the query; nothing is emitted, and the value
    is returned as it was recorded, without a cast. *)
Theorem getReachingDef_after_set PhysReg SubReg MBBNo V AllPreds AnySubReg t t' :
  is_Some (getBlockNumbered (getMF x86MIRaiser) MBBNo) ->
  setPhysRegSSAValue x86MIRaiser PhysReg MBBNo (Some V) t = Ok t' ->
  find64BitSuperReg x86MIRaiser SubReg = find64BitSuperReg x86MIRaiser PhysReg ->
  getGlobalReachingDefs x86MIRaiser SubReg MBBNo AllPreds t' = Ok [(MBBNo, Some V)] /\
  getReachingDef x86MIRaiser SubReg MBBNo AllPreds AnySubReg t' = Ok (Some V, t').
Proof.
  intros Hblock Hset Hsuper.
  apply setPhysRegSSAValue_Ok in Hset as (Hreg & Hsz & ->).
  assert (getInBlockRegOrArgDefVal x86MIRaiser SubReg MBBNo
            (setDefs t (setDefInfo (physRegDefsInMBB t)
                          (find64BitSuperReg x86MIRaiser PhysReg) MBBNo
                          (getPhysRegSizeInBits x86MIRaiser PhysReg, Some V)))
          = Ok (MBBNo, Some V)) as Hl.
  { eapply lookupDef_record; [|exact Hsz].
    unfold storedRecord. rewrite Hsuper. simpl.
    rewrite lookup_setDefInfo. by rewrite decide_True. }
  pose proof (getGlobalReachingDefs_local x86MIRaiser SubReg MBBNo AllPreds _ V Hblock Hl)
    as Hdefs.
  split; [done|].
  by rewrite (getReachingDef_no_promotion x86MIRaiser _ _ _ AnySubReg _ _ Hdefs)
    by (simpl; lia).
Qed.

End Walk.

Section Promotion.

Variable x86MIRaiser : X86MachineInstructionRaiser.

(** *** The promotion of a register to a stack slot *)

Lemma foldl_top_offset top objs :
  let r := foldl (fun top o => if objOffset o <? top then objOffset o else top) top objs in
  r <= top /\ forall o, o ∈ objs -> r <= objOffset o.
Proof.
  revert top. induction objs as [|o objs IH]; intros top; simpl.
  { split; [lia|]. intros o Ho. by apply elem_of_nil in Ho. }
  destruct (IH (if objOffset o <? top then objOffset o else top)) as [Hle Hall].
  split.
  - destruct (Z.ltb_spec (objOffset o) top); lia.
  - intros o' Ho'. apply elem_of_cons in Ho' as [->|Ho']; [|by apply Hall].
    destruct (Z.ltb_spec (objOffset o) top); lia.
Qed.

Lemma stackTopOffset_bound objs :
  stackTopOffset objs <= 0 /\ forall o, o ∈ objs -> stackTopOffset objs <= objOffset o.
Proof. apply foldl_top_offset. Qed.

Lemma stackTopOffset_new objs o :
  objOffset o = 0 -> stackTopOffset (objs ++ [o]) = stackTopOffset objs.
Proof.
  intros Ho. unfold stackTopOffset. rewrite foldl_app. simpl. rewrite Ho.
  destruct (stackTopOffset_bound objs) as [Hle _]. unfold stackTopOffset in Hle.
  destruct (Z.ltb_spec 0 (foldl (fun top o => if objOffset o <? top then objOffset o else top)
                             0 objs)); [lia | done].
Qed.

Lemma insert_last {A} (l : list A) (x y : A) : <[length l := y]> (l ++ [x]) = l ++ [y].
Proof. induction l as [|a l IH]; simpl; [done | by rewrite IH]. Qed.

Lemma instructionsOf_pushBack B I t B' :
  instructionsOf (pushBack B I t) B'
    = instructionsOf t B' ++ (if decide (B' = B) then [I] else []).
Proof.
  unfold instructionsOf, pushBack. simpl.
  destruct (decide (B' = B)) as [->|Hne].
  - by rewrite lookup_insert_eq.
  - rewrite lookup_insert_ne by done. by rewrite app_nil_r.
Qed.

Lemma storeReachingDefs_Ok PhysReg Alloca RDs t :
  exists t',
    storeReachingDefs PhysReg Alloca RDs t = Ok t' /\
    physRegDefsInMBB t' = physRegDefsInMBB t /\
    entryAllocas t' = entryAllocas t /\
    frameObjects t' = frameObjects t /\
    defsToPromote t' = defsToPromote t ++ pendingFor PhysReg Alloca RDs /\
    forall B, instructionsOf t' B = instructionsOf t B ++ storesFor Alloca B RDs.
Proof.
  revert t. induction RDs as [|[b [V|]] RDs IH]; intros t.
  - exists t. simpl. split_and!; try done; [by rewrite app_nil_r|].
    intros B. by rewrite app_nil_r.
  - cbn [storeReachingDefs snd fst promotePhysregToStackSlot].
    rewrite bool_decide_true by done. cbn [assert mbind result_bind].
    destruct (IH (pushBack b (StoreInst V Alloca) t))
      as (t' & -> & Hdefs & Hallocas & Hobjs & Hpend & Hinstr).
    exists t'. split_and!; try done.
    intros B. rewrite Hinstr, instructionsOf_pushBack. unfold storesFor. simpl.
    rewrite <- app_assoc. f_equal.
    destruct (decide (b = B)) as [->|Hne].
    + by rewrite decide_True.
    + by rewrite decide_False by done.
  - cbn [storeReachingDefs snd fst].
    destruct (IH (recordDefsToPromote PhysReg b Alloca t))
      as (t' & -> & Hdefs & Hallocas & Hobjs & Hpend & Hinstr).
    exists t'. split_and!; try done.
    + rewrite Hpend. simpl. by rewrite <- app_assoc.
    + intros B. rewrite Hinstr. unfold storesFor. simpl.
      by destruct (decide (b = B)).
Qed.

Lemma getGlobalReachingDefs_several PhysReg MBBNo AllPreds t defs :
  getGlobalReachingDefs x86MIRaiser PhysReg MBBNo AllPreds t = Ok defs ->
  (1 < length defs)%nat ->
  is_Some (getBlockNumbered (getMF x86MIRaiser) MBBNo) /\
  exists ld, getInBlockRegOrArgDefVal x86MIRaiser PhysReg MBBNo t = Ok (ld, None).
Proof.
  unfold getGlobalReachingDefs. intros H Hlen.
  destruct (getBlockNumbered _ _) as [CurMBB|]; [|discriminate].
  split; [done|].
  inv_bind H. destruct a as [ld [v|]]; [|eauto].
  simpl in H. inv_bind H. inv_bind Ha0. inversion Ha0; subst.
  simpl in H. inversion H; subst. simpl in Hlen. lia.
Qed.

(** The query, when the search finds several reaching definitions. *)
Lemma getReachingDef_several PhysReg MBBNo AllPreds AnySubReg t defs :
  getGlobalReachingDefs x86MIRaiser PhysReg MBBNo AllPreds t = Ok defs ->
  (1 < length defs)%nat ->
  exists n t4,
    allocTyLoop defs None = Some (IntegerTy n) /\
    let Alloca := AllocaInst (IntegerTy n) (length (frameObjects t)) in
    let align := getPrefTypeAlignment x86MIRaiser (IntegerTy n) in
    let RegType := regTypeOf x86MIRaiser PhysReg in
    physRegDefsInMBB t4 = physRegDefsInMBB t /\
    entryAllocas t4 = entryAllocas t ++ [Alloca] /\
    frameObjects t4 = frameObjects t ++
      [{| objSize := align; objOffset := stackTopOffset (frameObjects t) - align;
          objAlloca := Some Alloca |}] /\
    defsToPromote t4 = defsToPromote t ++ pendingFor PhysReg Alloca defs /\
    (forall B, instructionsOf t4 B = instructionsOf t B ++ storesFor Alloca B defs) /\
    getReachingDef x86MIRaiser PhysReg MBBNo AllPreds AnySubReg t
      = let t5 := pushBack MBBNo (LoadInst Alloca) t4 in
        if AnySubReg || bool_decide (RegType = IntegerTy n) then
          t7 ← setPhysRegSSAValue x86MIRaiser PhysReg MBBNo (Some (LoadInst Alloca)) t5;
          Ok (Some (LoadInst Alloca), t7)
        else
          match getCastOpcode (IntegerTy n) RegType with
          | Some op =>
              let CInst := CastInst op (LoadInst Alloca) RegType in
              t7 ← setPhysRegSSAValue x86MIRaiser PhysReg MBBNo (Some CInst)
                     (pushBack MBBNo CInst t5);
              Ok (Some CInst, t7)
          | None => Abort (AssertionFailure "Invalid cast")
          end.
Proof.
  intros Hdefs Hlen.
  destruct (getGlobalReachingDefs_several _ _ _ _ _ Hdefs Hlen) as (_ & ld & Hlocal).
  destruct (allocTyLoop_integer defs None) as [n Halloc]; [by left | |].
  { left. intros ->. simpl in Hlen. lia. }
  set (Alloca := AllocaInst (IntegerTy n) (length (frameObjects t))).
  set (align := getPrefTypeAlignment x86MIRaiser (IntegerTy n)).
  set (obj := {| objSize := align; objOffset := stackTopOffset (frameObjects t) - align;
                 objAlloca := Some Alloca |}).
  set (t2 := insertAllocaInEntryBlock Alloca (setFrameObjects t (frameObjects t ++ [obj]))).
  destruct (storeReachingDefs_Ok PhysReg Alloca defs t2)
    as (t4 & Hstore & Htable & Hallocas & Hobjs & Hpend & Hinstr).
  exists n, t4. split; [done|]. cbv zeta.
  split_and!; try done.
  unfold getReachingDef. rewrite Hdefs. cbn [mbind result_bind].
  rewrite (proj2 (Nat.ltb_lt _ _) Hlen). rewrite Halloc.
  rewrite insert_last, stackTopOffset_new by done.
  fold Alloca align obj t2.
  rewrite (lookupDef_ext x86MIRaiser PhysReg MBBNo t t2) by done.
  rewrite Hlocal. cbn [mbind result_bind snd]. rewrite Hstore.
  cbn [mbind result_bind]. fold (regTypeOf x86MIRaiser PhysReg).
  destruct AnySubReg; cbn [orb mbind result_bind]; [done|].
  cbn [getType isIntegerTy assert mbind result_bind].
  destruct (decide (regTypeOf x86MIRaiser PhysReg = IntegerTy n)) as [Heq|Hne].
  - rewrite bool_decide_true by done. rewrite decide_False by (intros Hne; by apply Hne).
    done.
  - rewrite bool_decide_false by done. rewrite decide_True by done.
    by destruct (getCastOpcode _ _).
Qed.

Lemma storesFor_none Alloca B RDs :
  (forall V, (B, Some V) ∉ RDs) -> storesFor Alloca B RDs = [].
Proof.
  induction RDs as [|[b v] RDs IH]; intros Hnone; [done|].
  unfold storesFor. cbn [omap list_omap fst snd].
  destruct (decide (b = B)) as [->|Hne].
  - destruct v as [V|]; [by destruct (Hnone V); left|]. simpl.
    apply IH. intros V HV. apply (Hnone V). by right.
  - apply IH. intros V HV. apply (Hnone V). by right.
Qed.

Lemma storesFor_hit Alloca B V RDs :
  NoDup RDs.*1 -> (B, Some V) ∈ RDs -> storesFor Alloca B RDs = [StoreInst V Alloca].
Proof.
  induction RDs as [|[b v] RDs IH]; intros Hnd Hin; [by apply elem_of_nil in Hin|].
  csimpl in Hnd. apply list.NoDup_cons in Hnd as [Hnotin Hnd].
  unfold storesFor. cbn [omap list_omap fst snd].
  apply elem_of_cons in Hin as [Heq|Hin].
  - inversion Heq; subst. rewrite decide_True by done. simpl. f_equal.
    apply storesFor_none. intros V' HV'. apply Hnotin.
    apply list_elem_of_fmap. by exists (b, Some V').
  - rewrite decide_False.
    + by apply IH.
    + intros ->. apply Hnotin. apply list_elem_of_fmap. by exists (B, Some V).
Qed.

Lemma elem_of_pendingFor PhysReg Alloca RDs x :
  x ∈ pendingFor PhysReg Alloca RDs <-> exists b, x = (PhysReg, b, Alloca) /\ (b, None) ∈ RDs.
Proof.
  unfold pendingFor. rewrite list_elem_of_omap. split.
  - intros ([b [V|]] & Hin & Hx); simpl in Hx; [discriminate|].
    inversion Hx; subst. eauto.
  - intros (b & -> & Hin). by exists (b, None).
Qed.

Lemma getType_promoted n slot op Ty' :
  getType (LoadInst (AllocaInst (IntegerTy n) slot)) = IntegerTy n /\
  getType (CastInst op (LoadInst (AllocaInst (IntegerTy n) slot)) Ty') = Ty'.
Proof. done. Qed.

(** X9: when the search finds several reaching definitions, the query
    for a register that is some register, has a size and an integer
    type succeeds and promotes the register: one slot of an integer
    type is allocated in the entry block; every reaching definition
    with a value is stored into the slot at the end of the block that
    holds it, every pending one is recorded with the raiser for later;
    the slot is read at the end of the queried block, and the value
    read, cast to the type of the register unless any sub-register is
    accepted, is returned and recorded as the definition of the
    register in the queried block.  No other block changes. *)
Theorem getReachingDef_promotes_several PhysReg MBBNo AllPreds AnySubReg t defs :
  getGlobalReachingDefs x86MIRaiser PhysReg MBBNo AllPreds t = Ok defs ->
  (1 < length defs)%nat ->
  PhysReg <> X86.NoRegister ->
  getPhysRegSizeInBits x86MIRaiser PhysReg <> 0%N ->
  (AnySubReg = false -> isIntegerTy (regTypeOf x86MIRaiser PhysReg) = true) ->
  exists n Ret t',
    let Alloca := AllocaInst (IntegerTy n) (length (frameObjects t)) in
    getReachingDef x86MIRaiser PhysReg MBBNo AllPreds AnySubReg t = Ok (Some Ret, t') /\
    allocTyLoop defs None = Some (IntegerTy n) /\
    stripCasts Ret = LoadInst Alloca /\
    (AnySubReg = true -> Ret = LoadInst Alloca) /\
    (AnySubReg = false -> getType Ret = regTypeOf x86MIRaiser PhysReg) /\
    entryAllocas t' = entryAllocas t ++ [Alloca] /\
    (forall b V, (b, Some V) ∈ defs ->
       b <> MBBNo /\
       instructionsOf t' b = instructionsOf t b ++ [StoreInst V Alloca]) /\
    (forall b, (b, None) ∈ defs -> (PhysReg, b, Alloca) ∈ defsToPromote t') /\
    (forall x, x ∈ defsToPromote t' ->
       x ∈ defsToPromote t \/ exists b, x = (PhysReg, b, Alloca) /\ (b, None) ∈ defs) /\
    (instructionsOf t' MBBNo = instructionsOf t MBBNo ++ [LoadInst Alloca] \/
     instructionsOf t' MBBNo = instructionsOf t MBBNo ++ [LoadInst Alloca; Ret]) /\
    (forall b, b <> MBBNo -> (forall V, (b, Some V) ∉ defs) ->
       instructionsOf t' b = instructionsOf t b) /\
    storedRecord x86MIRaiser t' PhysReg MBBNo
      = Some (getPhysRegSizeInBits x86MIRaiser PhysReg, Some Ret).
Proof.
  intros Hdefs Hlen Hreg Hsz Hint.
  destruct (getGlobalReachingDefs_several _ _ _ _ _ Hdefs Hlen) as (_ & ld & Hlocal).
  destruct (getGlobalReachingDefs_hits x86MIRaiser _ _ _ _ _ Hdefs) as [Hnd Hhits].
  assert (forall V, (MBBNo, Some V) ∉ defs) as Hnolocal.
  { intros V HV. destruct (Hhits _ _ HV) as (Hl & _). congruence. }
  destruct (getReachingDef_several PhysReg MBBNo AllPreds AnySubReg t defs Hdefs Hlen)
    as (n & t4 & Halloc & Htable & Hallocas & Hobjs & Hpend & Hinstr & Hrun).
  cbv zeta in Hrun.
  set (Alloca := AllocaInst (IntegerTy n) (length (frameObjects t))) in *.
  assert (exists Ret t6,
    getReachingDef x86MIRaiser PhysReg MBBNo AllPreds AnySubReg t
      = (t7 ← setPhysRegSSAValue x86MIRaiser PhysReg MBBNo (Some Ret) t6;
         Ok (Some Ret, t7)) /\
    stripCasts Ret = LoadInst Alloca /\
    (AnySubReg = true -> Ret = LoadInst Alloca) /\
    (AnySubReg = false -> getType Ret = regTypeOf x86MIRaiser PhysReg) /\
    physRegDefsInMBB t6 = physRegDefsInMBB t /\
    entryAllocas t6 = entryAllocas t4 /\
    defsToPromote t6 = defsToPromote t4 /\
    (forall b, b <> MBBNo -> instructionsOf t6 b = instructionsOf t4 b) /\
    (instructionsOf t6 MBBNo = instructionsOf t4 MBBNo ++ [LoadInst Alloca] \/
     instructionsOf t6 MBBNo = instructionsOf t4 MBBNo ++ [LoadInst Alloca; Ret]))
    as (Ret & t6 & Hrun' & Hstrip & Hany & Hty & Htable6 & Hallocas6 & Hpend6 & Hother6 & Hload6).
  { destruct (AnySubReg || bool_decide (regTypeOf x86MIRaiser PhysReg = IntegerTy n))
      eqn:Hcase.
    - eexists _, _. split; [exact Hrun|].
      split_and!; try done.
      + intros ->. apply orb_true_iff in Hcase as [?|Heq]; [done|].
        by apply bool_decide_eq_true in Heq.
      + intros b Hb. rewrite instructionsOf_pushBack. rewrite decide_False by done.
        by rewrite app_nil_r.
      + left. rewrite instructionsOf_pushBack. by rewrite decide_True.
    - apply orb_false_iff in Hcase as [-> Hne].
      specialize (Hint eq_refl).
      destruct (regTypeOf x86MIRaiser PhysReg) as [m| | | | |] eqn:Hrt; try discriminate.
      cbn [getCastOpcode] in Hrun.
      eexists _, _. split; [exact Hrun|].
      split_and!; try done.
      + intros b Hb. rewrite !instructionsOf_pushBack. rewrite !decide_False by done.
        by rewrite !app_nil_r.
      + right. rewrite !instructionsOf_pushBack. rewrite !decide_True by done.
        by rewrite <- app_assoc. }
  rewrite (setPhysRegSSAValue_ok x86MIRaiser _ _ _ _ Hreg Hsz) in Hrun'.
  cbn [mbind result_bind] in Hrun'.
  eexists n, Ret, _. cbv zeta. split; [exact Hrun'|].
  cbn [setDefs entryAllocas defsToPromote].
  assert (forall b, instructionsOf (setDefs t6 (setDefInfo (physRegDefsInMBB t6)
            (find64BitSuperReg x86MIRaiser PhysReg) MBBNo
            (getPhysRegSizeInBits x86MIRaiser PhysReg, Some Ret))) b = instructionsOf t6 b)
    as Hsame by done.
  split_and!; try done.
  - by rewrite Hallocas6.
  - intros b V HV. assert (b <> MBBNo) as Hb by (intros ->; by apply (Hnolocal V)).
    split; [done|].
    rewrite Hsame, Hother6, Hinstr by done. f_equal. by apply storesFor_hit.
  - intros b Hb. rewrite Hpend6, Hpend. apply elem_of_app. right.
    apply elem_of_pendingFor. eauto.
  - intros x Hx. rewrite Hpend6, Hpend in Hx. apply elem_of_app in Hx as [Hx|Hx]; [by left|].
    right. by apply elem_of_pendingFor.
  - rewrite Hsame.
    assert (instructionsOf t4 MBBNo = instructionsOf t MBBNo) as Heq.
    { rewrite Hinstr, storesFor_none by done. by rewrite app_nil_r. }
    rewrite <- Heq. exact Hload6.
  - intros b Hb Hnone. rewrite Hsame, Hother6, Hinstr by done.
    rewrite storesFor_none by done. by rewrite app_nil_r.
  - unfold storedRecord. cbn [setDefs physRegDefsInMBB].
    rewrite lookup_setDefInfo. by rewrite decide_True.
Qed.

Lemma getReachingDef_several_Ok PhysReg MBBNo AllPreds AnySubReg t defs v t' :
  getGlobalReachingDefs x86MIRaiser PhysReg MBBNo AllPreds t = Ok defs ->
  (1 < length defs)%nat ->
  getReachingDef x86MIRaiser PhysReg MBBNo AllPreds AnySubReg t = Ok (v, t') ->
  exists n Ret t6,
    let Alloca := AllocaInst (IntegerTy n) (length (frameObjects t)) in
    let align := getPrefTypeAlignment x86MIRaiser (IntegerTy n) in
    v = Some Ret /\
    allocTyLoop defs None = Some (IntegerTy n) /\
    PhysReg <> X86.NoRegister /\
    getPhysRegSizeInBits x86MIRaiser PhysReg <> 0%N /\
    t' = setDefs t6 (setDefInfo (physRegDefsInMBB t)
                       (find64BitSuperReg x86MIRaiser PhysReg) MBBNo
                       (getPhysRegSizeInBits x86MIRaiser PhysReg, Some Ret)) /\
    entryAllocas t6 = entryAllocas t ++ [Alloca] /\
    frameObjects t6 = frameObjects t ++
      [{| objSize := align; objOffset := stackTopOffset (frameObjects t) - align;
          objAlloca := Some Alloca |}] /\
    defsToPromote t6 = defsToPromote t ++ pendingFor PhysReg Alloca defs /\
    forall b, instructionsOf t b `prefix_of` instructionsOf t6 b.
Proof.
  intros Hdefs Hlen H.
  destruct (getReachingDef_several PhysReg MBBNo AllPreds AnySubReg t defs Hdefs Hlen)
    as (n & t4 & Halloc & Htable & Hallocas & Hobjs & Hpend & Hinstr & Hrun).
  cbv zeta in Hrun. rewrite Hrun in H. clear Hrun.
  destruct (_ || _).
  - inv_bind H. inversion H; subst. clear H.
    apply setPhysRegSSAValue_Ok in Ha as (Hreg & Hsz & ->).
    exists n, (LoadInst (AllocaInst (IntegerTy n) (length (frameObjects t)))),
      (pushBack MBBNo (LoadInst (AllocaInst (IntegerTy n) (length (frameObjects t)))) t4).
    cbv zeta. split_and!; try done.
    + cbn [pushBack physRegDefsInMBB]. by rewrite Htable.
    + intros b. rewrite instructionsOf_pushBack, Hinstr, <- app_assoc. by eexists.
  - destruct (getCastOpcode _ _) as [op|]; [|discriminate].
    inv_bind H. inversion H; subst. clear H.
    apply setPhysRegSSAValue_Ok in Ha as (Hreg & Hsz & ->).
    set (Ld := LoadInst (AllocaInst (IntegerTy n) (length (frameObjects t)))) in *.
    exists n, (CastInst op Ld (regTypeOf x86MIRaiser PhysReg)),
      (pushBack MBBNo (CastInst op Ld (regTypeOf x86MIRaiser PhysReg))
         (pushBack MBBNo Ld t4)).
    cbv zeta. split_and!; try done.
    + cbn [pushBack physRegDefsInMBB]. by rewrite Htable.
    + intros b. rewrite !instructionsOf_pushBack, Hinstr, <- !app_assoc. by eexists.
Qed.

Lemma getReachingDef_Ok PhysReg MBBNo AllPreds AnySubReg t v t' :
  getReachingDef x86MIRaiser PhysReg MBBNo AllPreds AnySubReg t = Ok (v, t') ->
  exists defs,
    getGlobalReachingDefs x86MIRaiser PhysReg MBBNo AllPreds t = Ok defs /\
    ((1 < length defs)%nat \/ t' = t).
Proof.
  intros H.
  destruct (getGlobalReachingDefs x86MIRaiser PhysReg MBBNo AllPreds t) as [defs|e]
    eqn:Hdefs.
  - exists defs. split; [done|].
    destruct (decide (1 < length defs)%nat) as [Hlen|Hlen]; [by left|]. right.
    rewrite (getReachingDef_no_promotion x86MIRaiser _ _ _ AnySubReg _ _ Hdefs) in H by lia.
    by inversion H.
  - unfold getReachingDef in H. rewrite Hdefs in H. discriminate.
Qed.

(** X10: a query asked again returns the same value and changes
    nothing.  After a promotion the value is the definition of the
    register in the block: every later query for the block returns it,
    whatever its flags, and no second slot is allocated. *)
Theorem getReachingDef_idempotent PhysReg MBBNo AllPreds AnySubReg t v t' :
  getReachingDef x86MIRaiser PhysReg MBBNo AllPreds AnySubReg t = Ok (v, t') ->
  getReachingDef x86MIRaiser PhysReg MBBNo AllPreds AnySubReg t' = Ok (v, t') /\
  (t' <> t ->
   forall AllPreds' AnySubReg',
     getReachingDef x86MIRaiser PhysReg MBBNo AllPreds' AnySubReg' t' = Ok (v, t')).
Proof.
  intros H.
  destruct (getReachingDef_Ok _ _ _ _ _ _ _ H) as (defs & Hdefs & [Hlen| ->]); [|done].
  destruct (getGlobalReachingDefs_several _ _ _ _ _ Hdefs Hlen) as (Hblock & _).
  destruct (getReachingDef_several_Ok _ _ _ _ _ _ _ _ Hdefs Hlen H)
    as (n & Ret & t6 & -> & _ & Hreg & Hsz & -> & _).
  assert (forall AllPreds' AnySubReg',
    getReachingDef x86MIRaiser PhysReg MBBNo AllPreds' AnySubReg'
      (setDefs t6 (setDefInfo (physRegDefsInMBB t)
                     (find64BitSuperReg x86MIRaiser PhysReg) MBBNo
                     (getPhysRegSizeInBits x86MIRaiser PhysReg, Some Ret)))
    = Ok (Some Ret,
          setDefs t6 (setDefInfo (physRegDefsInMBB t)
                        (find64BitSuperReg x86MIRaiser PhysReg) MBBNo
                        (getPhysRegSizeInBits x86MIRaiser PhysReg, Some Ret)))) as Hagain.
  { intros AllPreds' AnySubReg'.
    rewrite (getReachingDef_no_promotion x86MIRaiser _ _ _ AnySubReg' _ [(MBBNo, Some Ret)]);
      [done | | simpl; lia].
    apply getGlobalReachingDefs_local; [done|].
    eapply lookupDef_record; [|exact Hsz].
    unfold storedRecord. cbn [setDefs physRegDefsInMBB].
    rewrite lookup_setDefInfo. by rewrite decide_True. }
  split; [apply Hagain | intros _; apply Hagain].
Qed.

Lemma sizesNonZero_lookup t :
  sizesNonZero t <->
  forall Reg MBBNo info,
    (physRegDefsInMBB t !! Reg ≫= fun m => m !! MBBNo) = Some info -> info.1 <> 0%N.
Proof.
  unfold sizesNonZero. split.
  - intros Hsz Reg MBBNo info Hinfo.
    destruct (physRegDefsInMBB t !! Reg) as [m|] eqn:Hm; [|discriminate].
    simpl in Hinfo. by apply (Hsz _ _ Hm _ _ Hinfo).
  - intros Hsz Reg m Hm MBBNo info Hinfo. apply (Hsz Reg MBBNo info).
    by rewrite Hm.
Qed.

Lemma sizesNonZero_setDefInfo t t' Reg MBBNo info :
  sizesNonZero t ->
  info.1 <> 0%N ->
  physRegDefsInMBB t' = setDefInfo (physRegDefsInMBB t) Reg MBBNo info ->
  sizesNonZero t'.
Proof.
  rewrite !sizesNonZero_lookup. intros Hsz Hinfo -> Reg' MBBNo' info'.
  rewrite lookup_setDefInfo. destruct (decide _); [|by apply Hsz].
  intros Heq. by inversion Heq; subst.
Qed.

(** X11: a query only adds.  The records of every other block, and of
    every register with another super-register, stay as they are; the
    instructions of every block, the allocas of the entry block, the
    objects of the frame and the promotions recorded for later are
    extended at their ends, the frame by one object at most; and a
    table without a size 0 stays one. *)
Theorem getReachingDef_only_adds PhysReg MBBNo AllPreds AnySubReg t v t' :
  getReachingDef x86MIRaiser PhysReg MBBNo AllPreds AnySubReg t = Ok (v, t') ->
  (forall Reg' MBBNo',
     find64BitSuperReg x86MIRaiser Reg' <> find64BitSuperReg x86MIRaiser PhysReg
     \/ MBBNo' <> MBBNo ->
     storedRecord x86MIRaiser t' Reg' MBBNo' = storedRecord x86MIRaiser t Reg' MBBNo') /\
  (forall b, instructionsOf t b `prefix_of` instructionsOf t' b) /\
  entryAllocas t `prefix_of` entryAllocas t' /\
  frameObjects t `prefix_of` frameObjects t' /\
  (length (frameObjects t') <= S (length (frameObjects t)))%nat /\
  defsToPromote t `prefix_of` defsToPromote t' /\
  (sizesNonZero t -> sizesNonZero t').
Proof.
  intros H.
  destruct (getReachingDef_Ok _ _ _ _ _ _ _ H) as (defs & Hdefs & [Hlen| ->]).
  - destruct (getReachingDef_several_Ok _ _ _ _ _ _ _ _ Hdefs Hlen H)
      as (n & Ret & t6 & -> & _ & Hreg & Hsz & -> & Hallocas & Hobjs & Hpend & Hinstr).
    cbv zeta in *. cbn [setDefs entryAllocas frameObjects defsToPromote].
    split_and!.
    + intros Reg' MBBNo' Hother. unfold storedRecord. cbn [setDefs physRegDefsInMBB].
      rewrite lookup_setDefInfo. rewrite decide_False; [done|].
      intros [? ?]. destruct Hother; congruence.
    + exact Hinstr.
    + rewrite Hallocas. by eexists.
    + rewrite Hobjs. by eexists.
    + rewrite Hobjs, length_app. simpl. lia.
    + rewrite Hpend. by eexists.
    + intros Hnz. eapply sizesNonZero_setDefInfo; [exact Hnz| |reflexivity]. done.
  - split_and!; try done. lia.
Qed.

(** X12: the object a promotion adds to the frame is the last one, it
    belongs to the slot allocated with it, and it lies below every
    object the frame had: it ends at the top of the stack, where the
    lowest object begins, or at offset 0 in an empty frame.  Its size
    is the preferred alignment of the type of the slot. *)
Theorem getReachingDef_slot_below_frame PhysReg MBBNo AllPreds AnySubReg t v t' :
  getReachingDef x86MIRaiser PhysReg MBBNo AllPreds AnySubReg t = Ok (v, t') ->
  frameObjects t' <> frameObjects t ->
  exists obj Alloca AllocTy,
    frameObjects t' = frameObjects t ++ [obj] /\
    entryAllocas t' = entryAllocas t ++ [Alloca] /\
    Alloca = AllocaInst AllocTy (length (frameObjects t)) /\
    objAlloca obj = Some Alloca /\
    objSize obj = getPrefTypeAlignment x86MIRaiser AllocTy /\
    objOffset obj + objSize obj = stackTopOffset (frameObjects t) /\
    objOffset obj + objSize obj <= 0 /\
    (forall o, o ∈ frameObjects t -> objOffset obj + objSize obj <= objOffset o) /\
    (0 <= objSize obj -> stackTopOffset (frameObjects t') = objOffset obj).
Proof.
  intros H Hchanged.
  destruct (getReachingDef_Ok _ _ _ _ _ _ _ H) as (defs & Hdefs & [Hlen| ->]); [|done].
  destruct (getReachingDef_several_Ok _ _ _ _ _ _ _ _ Hdefs Hlen H)
    as (n & Ret & t6 & -> & _ & Hreg & Hsz & -> & Hallocas & Hobjs & Hpend & Hinstr).
  cbv zeta in *. cbn [setDefs entryAllocas frameObjects] in *.
  destruct (stackTopOffset_bound (frameObjects t)) as [Htop Hall].
  eexists _, _, _. split_and!; [exact Hobjs | exact Hallocas | reflexivity | done | done
                               | simpl; lia | simpl; lia | | ].
  - intros o Ho. simpl. specialize (Hall o Ho). lia.
  - simpl. intros Hpos. rewrite Hobjs. unfold stackTopOffset. rewrite foldl_app. simpl.
    fold (stackTopOffset (frameObjects t)).
    destruct (Z.ltb_spec (stackTopOffset (frameObjects t)
                            - getPrefTypeAlignment x86MIRaiser (IntegerTy n))
                (stackTopOffset (frameObjects t))); lia.
Qed.

(** X13: the type of the slot.  When every reaching definition has a
    value of an integer type, the slot has the widest of their types;
    as soon as one is pending, or has a value that is no integer, the
    slot has 64 bits, whatever the widths of the others. *)
Theorem allocTyLoop_slot_type (RDs : list (Z * option Value)) :
  RDs <> [] ->
  (Forall (fun RD => exists V, RD.2 = Some V /\ isIntegerTy (getType V) = true) RDs ->
   exists n,
     allocTyLoop RDs None = Some (IntegerTy n) /\
     (exists b V, (b, Some V) ∈ RDs /\ getType V = IntegerTy n) /\
     forall b V, (b, Some V) ∈ RDs ->
       (getPrimitiveSizeInBits (getType V) <= n)%N) /\
  (Exists (fun RD => RD.2 = None \/
                     exists V, RD.2 = Some V /\ isIntegerTy (getType V) = false) RDs ->
   allocTyLoop RDs None = Some (IntegerTy 64)).
Proof.
  intros Hne. split.
  - assert (forall RDs a,
      Forall (fun RD : Z * option Value =>
                exists V, RD.2 = Some V /\ isIntegerTy (getType V) = true) RDs ->
      exists n,
        allocTyLoop RDs (Some (IntegerTy a)) = Some (IntegerTy n) /\
        (a <= n)%N /\
        (n = a \/ exists b V, (b, Some V) ∈ RDs /\ getType V = IntegerTy n) /\
        forall b V, (b, Some V) ∈ RDs ->
          (getPrimitiveSizeInBits (getType V) <= n)%N) as Hloop.
    { clear. induction RDs as [|[b v] RDs IH]; intros a Hall.
      - exists a. split_and!; [done | lia | by left |].
        intros b V HV. by apply elem_of_nil in HV.
      - apply list.Forall_cons in Hall as [(V & Hv & Hint) Hall]. simpl in Hv. subst v.
        cbn [allocTyLoop snd]. rewrite Hint.
        destruct (getType V) as [m| | | | |] eqn:Hty; try discriminate.
        cbn [getPrimitiveSizeInBits].
        destruct (N.ltb_spec a m) as [Hlt|Hge].
        + destruct (IH m Hall) as (n & -> & Hle & Hsome & Hmax).
          exists n. split_and!; [done | lia | |].
          * right. destruct Hsome as [->|(b' & V' & HV' & Hty')].
            -- exists b, V. split; [by left | done].
            -- exists b', V'. split; [by right | done].
          * intros b' V' HV'. apply elem_of_cons in HV' as [Heq|HV']; [|by eapply Hmax].
            inversion Heq; subst. rewrite Hty. simpl. lia.
        + destruct (IH a Hall) as (n & -> & Hle & Hsome & Hmax).
          exists n. split_and!; [done | lia | |].
          * destruct Hsome as [->|(b' & V' & HV' & Hty')]; [by left|].
            right. exists b', V'. split; [by right | done].
          * intros b' V' HV'. apply elem_of_cons in HV' as [Heq|HV']; [|by eapply Hmax].
            inversion Heq; subst. rewrite Hty. simpl. lia. }
    intros Hall. destruct RDs as [|[b v] RDs]; [done|].
    apply list.Forall_cons in Hall as [(V & Hv & Hint) Hall]. simpl in Hv. subst v.
    cbn [allocTyLoop snd]. rewrite Hint.
    destruct (getType V) as [m| | | | |] eqn:Hty; try discriminate.
    destruct (Hloop RDs m Hall) as (n & -> & Hle & Hsome & Hmax).
    exists n. split_and!; [done | |].
    + destruct Hsome as [->|(b' & V' & HV' & Hty')].
      * exists b, V. split; [by left | done].
      * exists b', V'. split; [by right | done].
    + intros b' V' HV'. apply elem_of_cons in HV' as [Heq|HV']; [|by eapply Hmax].
      inversion Heq; subst. rewrite Hty. simpl. lia.
  - clear Hne. generalize (@None Ty).
    induction RDs as [|[b v] RDs IH]; intros acc Hex; [by apply Exists_nil in Hex|].
    cbn [allocTyLoop snd].
    destruct v as [V|]; [|done].
    destruct (isIntegerTy (getType V)) eqn:Hint; [|done].
    apply IH. apply Exists_cons in Hex as [[Hnone|(V' & HV' & Hint')]|Hex]; [| |done].
    + discriminate.
    + simpl in HV'. inversion HV'; subst. congruence.
Qed.

(** X14: on a table without a size 0 a query returns.  For a block of
    the function and a register that is some register, has a size and,
    unless any sub-register is accepted, an integer type, the query
    ends with a result on every control-flow graph, and the table of
    the state it leaves has no size 0 either. *)
Theorem getReachingDef_returns PhysReg MBBNo AllPreds AnySubReg t :
  sizesNonZero t ->
  is_Some (getBlockNumbered (getMF x86MIRaiser) MBBNo) ->
  PhysReg <> X86.NoRegister ->
  getPhysRegSizeInBits x86MIRaiser PhysReg <> 0%N ->
  (AnySubReg = false -> isIntegerTy (regTypeOf x86MIRaiser PhysReg) = true) ->
  exists v t',
    getReachingDef x86MIRaiser PhysReg MBBNo AllPreds AnySubReg t = Ok (v, t') /\
    sizesNonZero t'.
Proof.
  intros Hnz Hblock Hreg Hsz Hint.
  destruct (getGlobalReachingDefs_total x86MIRaiser PhysReg MBBNo AllPreds t Hnz Hblock)
    as [defs Hdefs].
  destruct (decide (1 < length defs)%nat) as [Hlen|Hlen].
  - destruct (getReachingDef_several PhysReg MBBNo AllPreds AnySubReg t defs Hdefs Hlen)
      as (n & t4 & _ & Htable & _ & _ & _ & _ & Hrun).
    cbv zeta in Hrun. rewrite Hrun. clear Hrun.
    destruct (AnySubReg || bool_decide (regTypeOf x86MIRaiser PhysReg = IntegerTy n))
      eqn:Hcase.
    + rewrite (setPhysRegSSAValue_ok x86MIRaiser _ _ _ _ Hreg Hsz).
      eexists _, _. split; [reflexivity|].
      eapply (sizesNonZero_setDefInfo t _ _ _
                (getPhysRegSizeInBits x86MIRaiser PhysReg, _)); [done | exact Hsz |].
      cbn [setDefs pushBack physRegDefsInMBB]. by rewrite Htable.
    + apply orb_false_iff in Hcase as [-> _]. specialize (Hint eq_refl).
      destruct (regTypeOf x86MIRaiser PhysReg) as [m| | | | |]; try discriminate.
      cbn [getCastOpcode].
      rewrite (setPhysRegSSAValue_ok x86MIRaiser _ _ _ _ Hreg Hsz).
      eexists _, _. split; [reflexivity|].
      eapply (sizesNonZero_setDefInfo t _ _ _
                (getPhysRegSizeInBits x86MIRaiser PhysReg, _)); [done | exact Hsz |].
      cbn [setDefs pushBack physRegDefsInMBB]. by rewrite Htable.
  - rewrite (getReachingDef_no_promotion x86MIRaiser _ _ _ AnySubReg _ _ Hdefs) by lia.
    eauto.
Qed.

End Promotion.

Section Flags.

Variable x86MIRaiser : X86MachineInstructionRaiser.

(** *** The values of the flags *)

Lemma prefix_append p s :
  String.prefix p s = true -> exists s', s = String.append p s'.
Proof.
  revert s. induction p as [|a p IH]; intros s H.
  - by exists s.
  - destruct s as [|b s]; simpl in H; [discriminate|].
    destruct (Ascii.ascii_dec a b) as [->|]; [|discriminate].
    destruct (IH _ H) as [s' ->]. by exists s'.
Qed.

Lemma testAndSetEflagSSAValue_dispatch FlagBit MI TestResultVal t :
  FlagBit = EFLAGS.ZF \/ FlagBit = EFLAGS.SF \/ FlagBit = EFLAGS.OF \/ FlagBit = EFLAGS.CF ->
  is_Some (getBlockNumbered (getMF x86MIRaiser) (parentNumber MI)) ->
  testAndSetEflagSSAValue x86MIRaiser FlagBit MI TestResultVal t
    = t' ← (if bool_decide (FlagBit = EFLAGS.ZF)
            then testZF FlagBit (parentNumber MI) TestResultVal t
            else if bool_decide (FlagBit = EFLAGS.SF)
            then testSF FlagBit (parentNumber MI) TestResultVal t
            else if bool_decide (FlagBit = EFLAGS.OF)
            then testOF FlagBit MI (parentNumber MI) TestResultVal t
            else testCF FlagBit MI (parentNumber MI) TestResultVal t);
      Ok (setDefs t' (setDefSize (physRegDefsInMBB t') FlagBit (parentNumber MI) 1)).
Proof.
  intros Hflag Hblock. unfold testAndSetEflagSSAValue.
  rewrite (bool_decide_true _ Hblock).
  destruct Hflag as [->|[->|[->| ->]]]; reflexivity.
Qed.

Lemma eval_constantInt rho n z : eval rho (constantInt n z) = Some (wrap n z).
Proof.
  unfold constantInt. cbn [eval]. unfold wrap. by rewrite Z.mod_mod by (apply Z.pow_nonzero; lia).
Qed.

Lemma wrap_small n z : 0 <= z < 2 ^ Z.of_N n -> wrap n z = z.
Proof. intros Hz. unfold wrap. by apply Z.mod_small. Qed.

Lemma widthOf_constantInt n z : widthOf (constantInt n z) = n.
Proof. done. Qed.

(** The mask of the bit [back] places below the top of [n] bits. *)
Lemma eval_bit_mask rho (n : N) back :
  1 <= back <= Z.of_N n ->
  eval rho (BinaryOperator Shl (constantInt n 1) (constantInt n (Z.of_N n - back)))
    = Some (2 ^ (Z.of_N n - back)).
Proof.
  intros Hback. rewrite eval_binop, !eval_constantInt, widthOf_constantInt.
  assert (Z.of_N n < 2 ^ Z.of_N n) by (apply Z.pow_gt_lin_r; lia).
  assert (2 ^ 1 <= 2 ^ Z.of_N n) by (apply Z.pow_le_mono_r; lia).
  rewrite !wrap_small by lia. cbn [mbind option_bind evalBinOp].
  destruct (Z.ltb_spec (Z.of_N n - back) (Z.of_N n)); [|lia].
  rewrite Z.shiftl_1_l. rewrite wrap_small; [done|].
  split; [apply Z.pow_nonneg; lia | apply Z.pow_lt_mono_r; lia].
Qed.

Lemma pow2_ne_0 k : 0 <= k -> 2 ^ k <> 0.
Proof. intros Hk. apply Z.pow_nonzero; lia. Qed.

(** X15: the zero flag and the sign flag.  For a result of an integer
    type, the value stored for ZF is true exactly when the result is
    zero, and the value stored for SF is true exactly when the
    most-significant bit of the result is set.  The instructions that
    compute them are appended to the block of the instruction, and the
    flag has width 1. *)
Theorem testAndSetEflagSSAValue_ZF_SF MI Result (n : N) t rho r :
  is_Some (getBlockNumbered (getMF x86MIRaiser) (parentNumber MI)) ->
  getType Result = IntegerTy n ->
  (0 < n)%N ->
  eval rho Result = Some r ->
  (exists t' ZFTest,
     testAndSetEflagSSAValue x86MIRaiser EFLAGS.ZF MI Result t = Ok t' /\
     defInfoAt (physRegDefsInMBB t') EFLAGS.ZF (parentNumber MI) = (1%N, Some ZFTest) /\
     instructionsOf t' (parentNumber MI) = instructionsOf t (parentNumber MI) ++ [ZFTest] /\
     eval rho ZFTest = Some (if bool_decide (r = 0) then 1 else 0)) /\
  (exists t' Mask Masked SFTest,
     testAndSetEflagSSAValue x86MIRaiser EFLAGS.SF MI Result t = Ok t' /\
     defInfoAt (physRegDefsInMBB t') EFLAGS.SF (parentNumber MI) = (1%N, Some SFTest) /\
     instructionsOf t' (parentNumber MI)
       = instructionsOf t (parentNumber MI) ++ [Mask; Masked; SFTest] /\
     eval rho SFTest = Some (if Z.testbit r (Z.of_N n - 1) then 1 else 0)).
Proof.
  intros Hblock Hty Hn Hr. split.
  - eexists _, _. split_and!.
    + rewrite testAndSetEflagSSAValue_dispatch by auto.
      rewrite bool_decide_true by done. unfold testZF. cbn [mbind result_bind].
      reflexivity.
    + cbn [physRegDefsInMBB setDefs setFlagValue]. apply defInfoAt_flag.
    + unfold setFlagValue. unfold instructionsOf at 1. cbn [setDefs raisedBlocks].
      fold (instructionsOf (pushBack (parentNumber MI)
              (ICmpInst ICMP_EQ Result
                 (constantInt (getPrimitiveSizeInBits (getType Result)) 0)) t)
              (parentNumber MI)).
      rewrite instructionsOf_pushBack. by rewrite decide_True.
    + rewrite eval_icmp, Hr, eval_constantInt. cbn [mbind option_bind evalPredicate].
      unfold wrap. by rewrite Z.mod_0_l by (apply Z.pow_nonzero; lia).
  - eexists _, _, _, _. split_and!.
    + rewrite testAndSetEflagSSAValue_dispatch by auto.
      rewrite bool_decide_false by done. rewrite bool_decide_true by done.
      unfold testSF. cbn [mbind result_bind]. reflexivity.
    + cbn [physRegDefsInMBB setDefs setFlagValue]. apply defInfoAt_flag.
    + unfold setFlagValue. unfold instructionsOf at 1. cbn [setDefs raisedBlocks].
      match goal with
      | |- default [] (raisedBlocks ?t3 !! _) = _ => fold (instructionsOf t3 (parentNumber MI))
      end.
      rewrite !instructionsOf_pushBack. rewrite !decide_True by done.
      rewrite <- !app_assoc. reflexivity.
    + rewrite Hty. cbn [getPrimitiveSizeInBits].
      rewrite eval_icmp, (eval_binop _ And), !eval_bit_mask, Hr by lia.
      cbn [mbind option_bind evalBinOp evalPredicate].
      rewrite Z.land_comm, land_pow2 by lia.
      destruct (Z.testbit r (Z.of_N n - 1)).
      * by rewrite bool_decide_true.
      * rewrite bool_decide_false; [done|]. intros Heq. symmetry in Heq.
        by apply pow2_ne_0 in Heq; [|lia].
Qed.

Lemma prefix_same p s : String.prefix p (String.append p s) = true.
Proof.
  induction p as [|a p IH]; simpl; [by destruct s|].
  by destruct (Ascii.ascii_dec a a).
Qed.

Ltac name_rewrite H :=
  unfold instrNameStartsWith; rewrite H;
  rewrite ?prefix_same;
  repeat match goal with
  | |- context [String.prefix ?p (String.append ?q ?s)] =>
      let b := eval vm_compute in (String.prefix p (String.append q s)) in
      match b with
      | true => change (String.prefix p (String.append q s)) with true
      | false => change (String.prefix p (String.append q s)) with false
      end
  end;
  cbn [orb].

Ltac name_tests H :=
  let s := fresh "s" in
  apply prefix_append in H as [s H]; name_rewrite H.

Lemma eval_overflow rho f a b (n : N) x y :
  getType a = IntegerTy n ->
  eval rho a = Some x -> eval rho b = Some y ->
  eval rho (ExtractValueInst (CallInst f [a; b]) 1)
    = o ← overflowBit f n x y; Some (if o : bool then 1 else 0).
Proof.
  intros Hty Hx Hy. cbn [eval]. rewrite Hx, Hy. cbn [mbind option_bind].
  unfold widthOf. by rewrite Hty.
Qed.

Lemma overflowOfTestArgs_Ok f B op a b msg t :
  getType a = getType b ->
  overflowOfTestArgs f B (BinaryOperator op a b) msg t
    = Ok (ExtractValueInst (CallInst f [a; b]) 1,
          pushBack B (ExtractValueInst (CallInst f [a; b]) 1)
            (pushBack B (CallInst f [a; b]) t)).
Proof.
  intros Hty. unfold overflowOfTestArgs, testArgs.
  cbn [getOperand lookup list_lookup mbind result_bind].
  by rewrite bool_decide_true by done.
Qed.

(** X16: the carry and the overflow of subtractions, comparisons and
    additions.  The flags are computed from the two operands of the
    instruction that produced the result, looked up behind its casts:
    the carry of a subtraction or comparison is true exactly when the
    first operand is below the second as unsigned numbers, the carry of
    an addition exactly when the unsigned sum does not fit the width;
    the overflow is true exactly when the signed difference, or sum,
    does not fit. *)
Theorem testAndSetEflagSSAValue_SUB_ADD MI Result op a b (n : N) t rho x y :
  is_Some (getBlockNumbered (getMF x86MIRaiser) (parentNumber MI)) ->
  stripCasts Result = BinaryOperator op a b ->
  getType a = IntegerTy n ->
  getType b = IntegerTy n ->
  eval rho a = Some x ->
  eval rho b = Some y ->
  let stored f := ExtractValueInst (CallInst f [a; b]) 1 in
  (instrNameStartsWith MI "SUB" = true \/ instrNameStartsWith MI "CMP" = true ->
   exists tc to,
     testAndSetEflagSSAValue x86MIRaiser EFLAGS.CF MI Result t = Ok tc /\
     defInfoAt (physRegDefsInMBB tc) EFLAGS.CF (parentNumber MI)
       = (1%N, Some (stored usub_with_overflow)) /\
     eval rho (stored usub_with_overflow) = Some (if x <? y then 1 else 0) /\
     testAndSetEflagSSAValue x86MIRaiser EFLAGS.OF MI Result t = Ok to /\
     defInfoAt (physRegDefsInMBB to) EFLAGS.OF (parentNumber MI)
       = (1%N, Some (stored ssub_with_overflow)) /\
     eval rho (stored ssub_with_overflow)
       = Some (if inSignedRange n (signed n x - signed n y) then 0 else 1)) /\
  (instrNameStartsWith MI "ADD" = true ->
   exists tc to,
     testAndSetEflagSSAValue x86MIRaiser EFLAGS.CF MI Result t = Ok tc /\
     defInfoAt (physRegDefsInMBB tc) EFLAGS.CF (parentNumber MI)
       = (1%N, Some (stored uadd_with_overflow)) /\
     eval rho (stored uadd_with_overflow) = Some (if 2 ^ Z.of_N n <=? x + y then 1 else 0) /\
     testAndSetEflagSSAValue x86MIRaiser EFLAGS.OF MI Result t = Ok to /\
     defInfoAt (physRegDefsInMBB to) EFLAGS.OF (parentNumber MI)
       = (1%N, Some (stored sadd_with_overflow)) /\
     eval rho (stored sadd_with_overflow)
       = Some (if inSignedRange n (signed n x + signed n y) then 0 else 1)).
Proof.
  intros Hblock Hstrip Hta Htb Hx Hy stored. subst stored.
  assert (getType a = getType b) as Hty by congruence.
  split.
  - intros Hname. eexists _, _. split_and!.
    + rewrite testAndSetEflagSSAValue_dispatch by auto.
      rewrite !bool_decide_false by done. unfold testCF. rewrite Hstrip.
      destruct Hname as [Hname|Hname]; name_tests Hname;
        cbn [isInstruction assert mbind result_bind];
        rewrite overflowOfTestArgs_Ok by done; cbn [mbind result_bind]; reflexivity.
    + cbn [physRegDefsInMBB setDefs setFlagValue]. apply defInfoAt_flag.
    + rewrite (eval_overflow _ _ _ _ n x y) by done. reflexivity.
    + rewrite testAndSetEflagSSAValue_dispatch by auto.
      rewrite !bool_decide_false by done. rewrite bool_decide_true by done.
      unfold testOF. rewrite Hstrip.
      destruct Hname as [Hname|Hname]; name_tests Hname;
        cbn [isInstruction assert mbind result_bind];
        rewrite overflowOfTestArgs_Ok by done; cbn [mbind result_bind]; reflexivity.
    + cbn [physRegDefsInMBB setDefs setFlagValue]. apply defInfoAt_flag.
    + rewrite (eval_overflow _ _ _ _ n x y) by done.
      cbn [overflowBit mbind option_bind]. unfold inSignedRange.
      by destruct (_ && _).
  - intros Hname. eexists _, _. split_and!.
    + rewrite testAndSetEflagSSAValue_dispatch by auto.
      rewrite !bool_decide_false by done. unfold testCF. rewrite Hstrip.
      name_tests Hname. cbn [isInstruction assert mbind result_bind].
      rewrite overflowOfTestArgs_Ok by done. cbn [mbind result_bind]. reflexivity.
    + cbn [physRegDefsInMBB setDefs setFlagValue]. apply defInfoAt_flag.
    + rewrite (eval_overflow _ _ _ _ n x y) by done. reflexivity.
    + rewrite testAndSetEflagSSAValue_dispatch by auto.
      rewrite !bool_decide_false by done. rewrite bool_decide_true by done.
      unfold testOF. rewrite Hstrip.
      name_tests Hname. cbn [isInstruction assert mbind result_bind].
      rewrite overflowOfTestArgs_Ok by done. cbn [mbind result_bind]. reflexivity.
    + cbn [physRegDefsInMBB setDefs setFlagValue]. apply defInfoAt_flag.
    + rewrite (eval_overflow _ _ _ _ n x y) by done.
      cbn [overflowBit mbind option_bind]. unfold inSignedRange.
      by destruct (_ && _).
Qed.

Lemma eval_lsb rho R (n : N) r :
  (0 < n)%N ->
  eval rho R = Some r ->
  eval rho (ICmpInst ICMP_EQ (BinaryOperator And R (constantInt n 1)) (constantInt n 1))
    = Some (if Z.testbit r 0 then 1 else 0).
Proof.
  intros Hn Hr. rewrite eval_icmp, (eval_binop _ And), Hr, !eval_constantInt.
  assert (2 ^ 1 <= 2 ^ Z.of_N n) by (apply Z.pow_le_mono_r; lia).
  rewrite wrap_small by lia. cbn [mbind option_bind evalBinOp evalPredicate].
  pose proof (land_pow2 r 0 ltac:(lia)) as Hland. change (2 ^ 0) with 1 in Hland.
  rewrite Hland. by destruct (Z.testbit r 0).
Qed.

Lemma eval_bit rho R (n : N) r back :
  1 <= back <= Z.of_N n ->
  eval rho R = Some r ->
  eval rho (ICmpInst ICMP_NE
              (BinaryOperator And R
                 (BinaryOperator Shl (constantInt n 1) (constantInt n (Z.of_N n - back))))
              (constantInt n 0))
    = Some (if Z.testbit r (Z.of_N n - back) then 1 else 0).
Proof.
  intros Hback Hr.
  rewrite eval_icmp, (eval_binop _ And), Hr, eval_bit_mask, eval_constantInt by done.
  cbn [mbind option_bind evalBinOp evalPredicate].
  rewrite land_pow2 by lia. unfold wrap. rewrite Z.mod_0_l by (apply Z.pow_nonzero; lia).
  destruct (Z.testbit r (Z.of_N n - back)).
  - rewrite bool_decide_true; [done|]. apply pow2_ne_0. lia.
  - by rewrite bool_decide_false by (intros Hne; by apply Hne).
Qed.

Lemma eval_xor_bits rho A B (a b : bool) :
  eval rho A = Some (if a then 1 else 0) ->
  eval rho B = Some (if b then 1 else 0) ->
  eval rho (BinaryOperator Xor A B) = Some (if xorb a b then 1 else 0).
Proof.
  intros HA HB. rewrite eval_binop, HA, HB. by destruct a, b.
Qed.

(** X17: the flags of the rotates.  The carry of a rotate to the left
    is the least-significant bit of the result, the carry of a rotate
    to the right its most-significant bit.  For a rotate by one the
    overflow is the carry xor the most-significant bit (to the left),
    or the xor of the two most-significant bits (to the right); for
    every other rotate the overflow keeps the value it had in the
    block, and nothing is emitted. *)
Theorem testAndSetEflagSSAValue_rotate MI Result (n : N) t rho r :
  is_Some (getBlockNumbered (getMF x86MIRaiser) (parentNumber MI)) ->
  isInstruction (stripCasts Result) = true ->
  getType (stripCasts Result) = IntegerTy n ->
  (2 <= n)%N ->
  eval rho (stripCasts Result) = Some r ->
  instrNameStartsWith MI "ROL" = true \/ instrNameStartsWith MI "ROR" = true ->
  let left := instrNameStartsWith MI "ROL" in
  let msb := Z.testbit r (Z.of_N n - 1) in
  (exists tc NewCF,
     testAndSetEflagSSAValue x86MIRaiser EFLAGS.CF MI Result t = Ok tc /\
     defInfoAt (physRegDefsInMBB tc) EFLAGS.CF (parentNumber MI) = (1%N, Some NewCF) /\
     eval rho NewCF = Some (if (if left then Z.testbit r 0 else msb) then 1 else 0)) /\
  (isOneBitRotate MI = Ok true ->
   exists to NewOF,
     testAndSetEflagSSAValue x86MIRaiser EFLAGS.OF MI Result t = Ok to /\
     defInfoAt (physRegDefsInMBB to) EFLAGS.OF (parentNumber MI) = (1%N, Some NewOF) /\
     eval rho NewOF
       = Some (if xorb msb (if left then Z.testbit r 0 else Z.testbit r (Z.of_N n - 2))
               then 1 else 0)) /\
  (isOneBitRotate MI = Ok false ->
   exists to,
     testAndSetEflagSSAValue x86MIRaiser EFLAGS.OF MI Result t = Ok to /\
     defInfoAt (physRegDefsInMBB to) EFLAGS.OF (parentNumber MI)
       = (1%N, (defInfoAt (physRegDefsInMBB t) EFLAGS.OF (parentNumber MI)).2) /\
     raisedBlocks to = raisedBlocks t).
Proof.
  intros Hblock Hinstr Hty Hn Hr Hname left msb. subst left msb.
  destruct Hname as [Hname|Hname]; apply prefix_append in Hname as [s Hname];
    name_rewrite Hname.
  - split_and!.
    + eexists _, _. split_and!.
      * rewrite testAndSetEflagSSAValue_dispatch by auto.
        rewrite !bool_decide_false by done. unfold testCF. name_rewrite Hname.
        unfold lsbIsSet. cbn [mbind result_bind]. reflexivity.
      * cbn [physRegDefsInMBB setDefs setFlagValue]. apply defInfoAt_flag.
      * rewrite Hty. cbn [getPrimitiveSizeInBits]. apply eval_lsb; [lia | done].
    + intros Hone. eexists _, _. split_and!.
      * rewrite testAndSetEflagSSAValue_dispatch by auto.
        rewrite !bool_decide_false by done. rewrite bool_decide_true by done.
        unfold testOF. rewrite Hinstr, Hone. name_rewrite Hname.
        unfold lsbIsSet, msbIsSet. cbn [assert mbind result_bind]. reflexivity.
      * cbn [physRegDefsInMBB setDefs setFlagValue]. apply defInfoAt_flag.
      * rewrite Hty. cbn [getPrimitiveSizeInBits].
        rewrite xorb_comm. apply eval_xor_bits.
        -- apply eval_lsb; [lia | done].
        -- apply (eval_bit _ _ _ _ 1); [lia | done].
    + intros Hone. eexists. split_and!.
      * rewrite testAndSetEflagSSAValue_dispatch by auto.
        rewrite !bool_decide_false by done. rewrite bool_decide_true by done.
        unfold testOF. rewrite Hinstr, Hone. name_rewrite Hname.
        cbn [assert mbind result_bind]. reflexivity.
      * cbn [physRegDefsInMBB setDefs]. unfold setDefSize.
        by rewrite defInfoAt_setDefInfo.
      * done.
  - split_and!.
    + eexists _, _. split_and!.
      * rewrite testAndSetEflagSSAValue_dispatch by auto.
        rewrite !bool_decide_false by done. unfold testCF. name_rewrite Hname.
        unfold msbIsSet. cbn [mbind result_bind]. reflexivity.
      * cbn [physRegDefsInMBB setDefs setFlagValue]. apply defInfoAt_flag.
      * rewrite Hty. cbn [getPrimitiveSizeInBits].
        apply (eval_bit _ _ _ _ 1); [lia | done].
    + intros Hone. eexists _, _. split_and!.
      * rewrite testAndSetEflagSSAValue_dispatch by auto.
        rewrite !bool_decide_false by done. rewrite bool_decide_true by done.
        unfold testOF. rewrite Hinstr, Hone. name_rewrite Hname.
        unfold msbIsSet. cbn [assert mbind result_bind]. reflexivity.
      * cbn [physRegDefsInMBB setDefs setFlagValue]. apply defInfoAt_flag.
      * rewrite Hty. cbn [getPrimitiveSizeInBits].
        apply eval_xor_bits.
        -- apply (eval_bit _ _ _ _ 1); [lia | done].
        -- apply (eval_bit _ _ _ _ 2); [lia | done].
    + intros Hone. eexists. split_and!.
      * rewrite testAndSetEflagSSAValue_dispatch by auto.
        rewrite !bool_decide_false by done. rewrite bool_decide_true by done.
        unfold testOF. rewrite Hinstr, Hone. name_rewrite Hname.
        cbn [assert mbind result_bind]. reflexivity.
      * cbn [physRegDefsInMBB setDefs]. unfold setDefSize.
        by rewrite defInfoAt_setDefInfo.
      * done.
Qed.

Lemma defInfoAt_setDefInfo_other defs Reg MBBNo info Reg' MBBNo' :
  defInfoAt (setDefInfo defs Reg MBBNo info) Reg' MBBNo'
    = if decide (Reg = Reg' /\ MBBNo = MBBNo') then info else defInfoAt defs Reg' MBBNo'.
Proof. unfold defInfoAt. rewrite lookup_setDefInfo. by destruct (decide _). Qed.

Lemma lookupDef_size_zero PhysReg MBBNo t Val :
  storedRecord x86MIRaiser t PhysReg MBBNo = Some (0%N, Val) ->
  getInBlockRegOrArgDefVal x86MIRaiser PhysReg MBBNo t
    = Abort (AssertionFailure "Found incorrect size of physical register").
Proof.
  unfold storedRecord, getInBlockRegOrArgDefVal. intros Hrec.
  destruct (physRegDefsInMBB t !! _) as [m|]; simpl in *; [|done].
  by rewrite Hrec.
Qed.

(** X18: the flags of a signed multiplication.  The update of the carry
    stores the overflow bit of the checked multiplication of the two
    operands both as the carry and as the overflow, and gives the carry
    the width 1; the width of the overflow is left as it was.  When
    the block had no record of the overflow, its record has the
    width 0 afterwards, and a query for the overflow in the block
    fails the test of the size. *)
Theorem testAndSetEflagSSAValue_IMUL MI Result op a b t :
  instrNameStartsWith MI "IMUL" = true ->
  is_Some (getBlockNumbered (getMF x86MIRaiser) (parentNumber MI)) ->
  stripCasts Result = BinaryOperator op a b ->
  getType a = getType b ->
  let NewOF := ExtractValueInst (CallInst smul_with_overflow [a; b]) 1 in
  exists t',
    testAndSetEflagSSAValue x86MIRaiser EFLAGS.CF MI Result t = Ok t' /\
    defInfoAt (physRegDefsInMBB t') EFLAGS.CF (parentNumber MI) = (1%N, Some NewOF) /\
    defInfoAt (physRegDefsInMBB t') EFLAGS.OF (parentNumber MI)
      = ((defInfoAt (physRegDefsInMBB t) EFLAGS.OF (parentNumber MI)).1, Some NewOF) /\
    instructionsOf t' (parentNumber MI)
      = instructionsOf t (parentNumber MI) ++ [CallInst smul_with_overflow [a; b]; NewOF] /\
    (find64BitSuperReg x86MIRaiser EFLAGS.OF = EFLAGS.OF ->
     storedRecord x86MIRaiser t EFLAGS.OF (parentNumber MI) = None ->
     storedRecord x86MIRaiser t' EFLAGS.OF (parentNumber MI) = Some (0%N, Some NewOF) /\
     getEflagReachingDef x86MIRaiser EFLAGS.OF (parentNumber MI) t'
       = Abort (AssertionFailure "Found incorrect size of physical register")).
Proof.
  intros Hname Hblock Hstrip Hty NewOF. subst NewOF.
  eexists. split; [|split; [|split; [|split]]].
  - rewrite testAndSetEflagSSAValue_dispatch by auto.
    rewrite !bool_decide_false by done. unfold testCF. rewrite Hstrip.
    name_tests Hname. cbn [isBinaryOperator assert mbind result_bind].
    rewrite overflowOfTestArgs_Ok by done. cbn [mbind result_bind]. reflexivity.
  - cbn [physRegDefsInMBB setDefs setFlagValue]. apply defInfoAt_flag.
  - cbn [physRegDefsInMBB setDefs setFlagValue pushBack].
    unfold setDefSize, setDefValue.
    rewrite !defInfoAt_setDefInfo_other.
    rewrite !(decide_False (P := EFLAGS.CF = EFLAGS.OF /\ _)) by (by intros [? ?]).
    by rewrite !decide_True by done.
  - unfold setFlagValue. unfold instructionsOf at 1. cbn [setDefs raisedBlocks].
    match goal with
    | |- default [] (raisedBlocks ?t3 !! _) = _ => fold (instructionsOf t3 (parentNumber MI))
    end.
    rewrite !instructionsOf_pushBack. rewrite !decide_True by done.
    by rewrite <- !app_assoc.
  - intros Hsuper Hnone.
    match goal with
    | |- storedRecord _ ?t' _ _ = _ /\ _ =>
        assert (storedRecord x86MIRaiser t' EFLAGS.OF (parentNumber MI)
                = Some (0%N, Some (ExtractValueInst (CallInst smul_with_overflow [a; b]) 1)))
          as Hrec
    end.
    { unfold storedRecord in *. rewrite Hsuper in *.
      cbn [physRegDefsInMBB setDefs setFlagValue pushBack].
      unfold setDefSize, setDefValue, defInfoAt.
      rewrite !lookup_setDefInfo.
      rewrite !(decide_False (P := EFLAGS.CF = EFLAGS.OF /\ _)) by (by intros [? ?]).
      rewrite !decide_True by done.
      by rewrite Hnone. }
    split; [exact Hrec|].
    unfold getEflagReachingDef. cbn [assert mbind result_bind andb].
    unfold getReachingDef, getGlobalReachingDefs.
    destruct Hblock as [CurMBB Hblock]. rewrite Hblock.
    by rewrite (lookupDef_size_zero _ _ _ _ Hrec).
Qed.


(** *** What an update of a flag changes *)

Lemma updatesIn_refl keys B t : updatesIn keys B t t.
Proof. by split_and!. Qed.

Lemma updatesIn_pushBack keys B I t t1 :
  updatesIn keys B t t1 -> updatesIn keys B t (pushBack B I t1).
Proof.
  intros (Htable & Hother & Hinstr & Hallocas & Hobjs & Hpend).
  split_and!; try done.
  - intros b Hb. cbn [pushBack raisedBlocks]. rewrite lookup_insert_ne by done.
    by apply Hother.
  - rewrite instructionsOf_pushBack. rewrite decide_True by done.
    by apply prefix_app_r.
Qed.

Lemma updatesIn_setDefInfo keys B FlagBit info t t1 :
  FlagBit ∈ keys ->
  updatesIn keys B t t1 ->
  updatesIn keys B t (setDefs t1 (setDefInfo (physRegDefsInMBB t1) FlagBit B info)).
Proof.
  intros Hkey (Htable & Hother & Hinstr & Hallocas & Hobjs & Hpend).
  split_and!; try done.
  intros Reg MBBNo Hnot. cbn [setDefs physRegDefsInMBB]. rewrite lookup_setDefInfo.
  rewrite decide_False; [by apply Htable|].
  intros [<- <-]. by apply Hnot.
Qed.

Lemma updatesIn_setDefInfo_eq keys B FlagBit info defs t t1 :
  FlagBit ∈ keys ->
  physRegDefsInMBB t1 = defs ->
  updatesIn keys B t t1 ->
  updatesIn keys B t (setDefs t1 (setDefInfo defs FlagBit B info)).
Proof. intros Hkey <-. by apply updatesIn_setDefInfo. Qed.

Ltac inv_Ok :=
  repeat match goal with
  | H : Abort _ = Ok _ |- _ => discriminate H
  | H : Ok _ = Ok _ |- _ => inversion H; subst; clear H
  | H : assert _ _ = Ok _ |- _ => apply assert_Ok in H
  | H : mbind _ _ = Ok _ |- _ =>
      apply bind_Ok in H as (? & ? & H); cbv beta iota zeta in H
  | H : (if ?c then _ else _) = Ok _ |- _ => destruct c eqn:?
  | H : match ?x with _ => _ end = Ok _ |- _ => destruct x eqn:?
  end.

Ltac updates :=
  unfold setFlagValue, setDefValue, setDefSize;
  repeat first
    [ apply updatesIn_refl
    | apply updatesIn_pushBack
    | apply updatesIn_setDefInfo; [set_solver|]
    | apply updatesIn_setDefInfo_eq; [set_solver | reflexivity |] ].

Lemma testAndSetEflagSSAValue_Ok FlagBit MI TestResultVal t t' :
  testAndSetEflagSSAValue x86MIRaiser FlagBit MI TestResultVal t = Ok t' ->
  (FlagBit = EFLAGS.ZF \/ FlagBit = EFLAGS.SF \/ FlagBit = EFLAGS.OF \/
   FlagBit = EFLAGS.CF) /\
  is_Some (getBlockNumbered (getMF x86MIRaiser) (parentNumber MI)) /\
  exists t1,
    updatesIn (if instrNameStartsWith MI "IMUL" then [FlagBit; EFLAGS.OF] else [FlagBit])
      (parentNumber MI) t t1 /\
    t' = setDefs t1 (setDefSize (physRegDefsInMBB t1) FlagBit (parentNumber MI) 1).
Proof.
  intros H. unfold testAndSetEflagSSAValue in H.
  apply bind_Ok in H as (? & _ & H).
  apply bind_Ok in H as (? & Hblock & H). apply assert_Ok, bool_decide_eq_true in Hblock.
  apply bind_Ok in H as (t1 & Hflag & H). inversion H; subst. clear H.
  assert (FlagBit = EFLAGS.ZF \/ FlagBit = EFLAGS.SF \/ FlagBit = EFLAGS.OF \/
          FlagBit = EFLAGS.CF) as Hbit.
  { repeat case_bool_decide; auto. discriminate. }
  split; [done|]. split; [done|]. exists t1. split; [|done].
  unfold testZF, testSF, testOF, testCF, overflowOfTestArgs, selectShiftedOutBit,
    lsbIsSet, msbIsSet, testArgs in Hflag.
  destruct (instrNameStartsWith MI "IMUL") eqn:Himul;
    repeat case_bool_decide; inv_Ok; updates.
Qed.

(** X20: an update of a flag succeeds only for ZF, SF, OF and CF and
    for an instruction of a block of the function.  It gives the
    record of the flag in the block of the instruction the width 1 and
    changes no other record, the record of the overflow in that block
    apart when the instruction is a signed multiplication; it appends
    to the instructions of that block, and leaves the other blocks,
    the allocas and the frame as they are.  Unless the instruction is
    a signed multiplication, a table without a size 0 stays one. *)
Theorem testAndSetEflagSSAValue_updates FlagBit MI TestResultVal t t' :
  testAndSetEflagSSAValue x86MIRaiser FlagBit MI TestResultVal t = Ok t' ->
  (FlagBit = EFLAGS.ZF \/ FlagBit = EFLAGS.SF \/ FlagBit = EFLAGS.OF \/
   FlagBit = EFLAGS.CF) /\
  is_Some (getBlockNumbered (getMF x86MIRaiser) (parentNumber MI)) /\
  (exists Val,
     (physRegDefsInMBB t' !! FlagBit ≫= fun m => m !! parentNumber MI)
       = Some (1%N, Val)) /\
  updatesIn (if instrNameStartsWith MI "IMUL" then [FlagBit; EFLAGS.OF] else [FlagBit])
    (parentNumber MI) t t' /\
  (instrNameStartsWith MI "IMUL" = false -> sizesNonZero t -> sizesNonZero t').
Proof.
  intros H.
  destruct (testAndSetEflagSSAValue_Ok _ _ _ _ _ H) as (Hbit & Hblock & t1 & Hupd & ->).
  split; [done|]. split; [done|].
  assert (updatesIn
            (if instrNameStartsWith MI "IMUL" then [FlagBit; EFLAGS.OF] else [FlagBit])
            (parentNumber MI) t
            (setDefs t1 (setDefSize (physRegDefsInMBB t1) FlagBit (parentNumber MI) 1)))
    as Hupd'.
  { unfold setDefSize. apply updatesIn_setDefInfo; [|done].
    destruct (instrNameStartsWith MI "IMUL"); set_solver. }
  split_and!.
  - eexists. cbn [setDefs physRegDefsInMBB]. unfold setDefSize.
    rewrite lookup_setDefInfo. by rewrite decide_True.
  - exact Hupd'.
  - intros Himul Hsz. rewrite Himul in Hupd'.
    destruct Hupd' as (Htable & _).
    apply sizesNonZero_lookup. intros Reg MBBNo info Hinfo.
    destruct (decide (Reg = FlagBit /\ MBBNo = parentNumber MI)) as [[-> ->]|Hne].
    + cbn [setDefs physRegDefsInMBB] in Hinfo. unfold setDefSize in Hinfo.
      rewrite lookup_setDefInfo in Hinfo. rewrite decide_True in Hinfo by done.
      by inversion Hinfo.
    + rewrite Htable in Hinfo.
      * by apply (proj1 (sizesNonZero_lookup t) Hsz Reg MBBNo info).
      * intros [Hin ->]. apply Hne. split; [|done]. set_solver.
Qed.

Lemma getEflagReachingDef_defined FlagBit MBBNo t Size Val :
  (FlagBit < EFLAGS.UNDEFINED)%N ->
  is_Some (getBlockNumbered (getMF x86MIRaiser) MBBNo) ->
  storedRecord x86MIRaiser t FlagBit MBBNo = Some (Size, Some Val) ->
  Size <> 0%N ->
  getEflagReachingDef x86MIRaiser FlagBit MBBNo t = Ok (Some Val, t).
Proof.
  intros Hrange Hblock Hrec Hsz. unfold getEflagReachingDef.
  rewrite (proj2 (N.leb_le _ _)) by (unfold EFLAGS.CF; lia).
  rewrite (proj2 (N.ltb_lt _ _)) by done. cbn [andb assert mbind result_bind].
  rewrite (getReachingDef_no_promotion x86MIRaiser _ _ _ _ _ [(MBBNo, Some Val)]);
    [done | | simpl; lia].
  apply getGlobalReachingDefs_local; [done|]. by eapply lookupDef_record.
Qed.

(** X21: a flag set to a constant is read back.  For a bit of EFLAGS
    the record of the flag in the block gets the constant true or
    false, of width 1, and nothing else changes; when the flag is its
    own super-register and the block is one of the function, the query
    for the flag in the block returns the constant and changes nothing.
    A number that is no bit of EFLAGS is rejected by both. *)
Theorem setEflagValue_read_back FlagBit MBBNo Set_ t :
  ((EFLAGS.UNDEFINED <= FlagBit)%N ->
   setEflagValue FlagBit MBBNo Set_ t
     = Abort (AssertionFailure "Unknown EFLAGS bit specified") /\
   getEflagReachingDef x86MIRaiser FlagBit MBBNo t
     = Abort (AssertionFailure "Unknown EFLAGS bit specified")) /\
  ((FlagBit < EFLAGS.UNDEFINED)%N ->
   let Val := ConstantInt 1 (if Set_ then 1 else 0) in
   exists t',
     setEflagValue FlagBit MBBNo Set_ t = Ok t' /\
     (physRegDefsInMBB t' !! FlagBit ≫= fun m => m !! MBBNo) = Some (1%N, Some Val) /\
     updatesIn [FlagBit] MBBNo t t' /\
     raisedBlocks t' = raisedBlocks t /\
     (forall rho, eval rho Val = Some (if Set_ then 1 else 0)) /\
     (is_Some (getBlockNumbered (getMF x86MIRaiser) MBBNo) ->
      find64BitSuperReg x86MIRaiser FlagBit = FlagBit ->
      getEflagReachingDef x86MIRaiser FlagBit MBBNo t' = Ok (Some Val, t'))).
Proof.
  split.
  - intros Hrange. unfold setEflagValue, getEflagReachingDef.
    rewrite (proj2 (N.ltb_ge _ _)) by done. by rewrite andb_false_r.
  - intros Hrange Val. subst Val.
    assert (constantInt 1 (if Set_ then 1 else 0) = ConstantInt 1 (if Set_ then 1 else 0))
      as Hconst by (by destruct Set_).
    assert (setEflagValue FlagBit MBBNo Set_ t
            = Ok (setDefs t (setDefInfo (physRegDefsInMBB t) FlagBit MBBNo
                               (1%N, Some (ConstantInt 1 (if Set_ then 1 else 0))))))
      as Hrun.
    { unfold setEflagValue.
      rewrite (proj2 (N.leb_le _ _)) by (unfold EFLAGS.CF; lia).
      rewrite (proj2 (N.ltb_lt _ _)) by done. cbn [andb assert mbind result_bind].
      rewrite Hconst. unfold setFlagValue, setDefSize, setDefValue.
      cbn [setDefs physRegDefsInMBB].
      by rewrite setDefInfo_twice, !defInfoAt_setDefInfo. }
    eexists. split; [exact Hrun|].
    assert ((setDefInfo (physRegDefsInMBB t) FlagBit MBBNo
               (1%N, Some (ConstantInt 1 (if Set_ then 1 else 0))) !! FlagBit
             ≫= fun m => m !! MBBNo)
            = Some (1%N, Some (ConstantInt 1 (if Set_ then 1 else 0)))) as Hrec.
    { rewrite lookup_setDefInfo. by rewrite decide_True. }
    split_and!.
    + exact Hrec.
    + apply updatesIn_setDefInfo; [set_solver | apply updatesIn_refl].
    + done.
    + intros rho. by destruct Set_.
    + intros Hblock Hsuper.
      eapply getEflagReachingDef_defined;
        [done | done | unfold storedRecord; rewrite Hsuper; exact Hrec | done].
Qed.

End Flags.

Section Order.

Variable x86MIRaiser : X86MachineInstructionRaiser.

(** *** The order of the reaching definitions *)

Lemma insertSorted_elem_of a l x :
  x ∈ insertSorted x86MIRaiser a l -> x = a \/ x ∈ l.
Proof.
  intros Hx. rewrite insertSorted_perm in Hx. by apply elem_of_cons in Hx.
Qed.

Lemma insertSorted_ordered a l :
  orderedBy Z.le l -> orderedBy Z.le (insertSorted x86MIRaiser a l).
Proof.
  induction l as [|b l IH]; intros Hs; simpl.
  { by split. }
  destruct Hs as [Hall Hs].
  destruct (pairLt x86MIRaiser b a) eqn:Hlt.
  - split; [|by apply IH].
    apply list.Forall_forall. intros x Hx.
    apply insertSorted_elem_of in Hx as [->|Hx].
    + unfold pairLt in Hlt. apply orb_true_iff in Hlt as [Hlt|Hlt].
      * apply Z.ltb_lt in Hlt. lia.
      * apply andb_true_iff in Hlt as [Hge _]. apply negb_true_iff, Z.ltb_ge in Hge. lia.
    + by apply (proj1 (list.Forall_forall _ _) Hall).
  - assert (a.1 <= b.1) as Hab.
    { unfold pairLt in Hlt. apply orb_false_iff in Hlt as [Hlt _].
      apply Z.ltb_ge in Hlt. lia. }
    split; [|by split].
    constructor; [done|].
    eapply list.Forall_impl; [exact Hall|]. simpl. intros x Hx. lia.
Qed.

Lemma sort_ordered l : orderedBy Z.le (sort x86MIRaiser l).
Proof.
  induction l as [|a l IH]; simpl; [done|]. by apply insertSorted_ordered.
Qed.

Lemma unique_elem_of l x : x ∈ unique l -> x ∈ l.
Proof.
  revert x. induction l as [|a l IH]; intros x Hx; [done|].
  simpl in Hx. destruct l as [|b l]; [done|].
  destruct (decide (a = b)) as [->|Hne].
  - right. by apply IH.
  - apply elem_of_cons in Hx as [->|Hx]; [by left|]. right. by apply IH.
Qed.

Lemma unique_ordered l : orderedBy Z.le l -> orderedBy Z.le (unique l).
Proof.
  induction l as [|a l IH]; intros Hs; [done|].
  destruct Hs as [Hall Hs].
  simpl. destruct l as [|b l]; [by split|].
  destruct (decide (a = b)); [by apply IH|].
  split; [|by apply IH].
  apply list.Forall_forall. intros x Hx. apply unique_elem_of in Hx.
  by apply (proj1 (list.Forall_forall _ _) Hall).
Qed.

Lemma ordered_distinct_blocks (l : list (Z * option Value)) :
  orderedBy Z.le l -> NoDup l.*1 -> orderedBy Z.lt l.
Proof.
  induction l as [|a l IH]; intros Hs Hnd; [done|].
  destruct Hs as [Hall Hs].
  csimpl in Hnd. apply list.NoDup_cons in Hnd as [Hnotin Hnd].
  split; [|by apply IH].
  apply list.Forall_forall. intros x Hx.
  pose proof (proj1 (list.Forall_forall _ _) Hall x Hx) as Hle. simpl in Hle.
  assert (a.1 <> x.1); [|simpl; lia].
  intros Heq. apply Hnotin. rewrite Heq. by apply list_elem_of_fmap_2.
Qed.

(** X22: the reaching definitions are returned in the order of the
    numbers of their blocks, every block once, whatever the order in
    which the walk met them. *)
Theorem getGlobalReachingDefs_in_block_order PhysReg MBBNo AllPreds t defs :
  getGlobalReachingDefs x86MIRaiser PhysReg MBBNo AllPreds t = Ok defs ->
  orderedBy Z.lt defs.
Proof.
  intros H.
  destruct (getGlobalReachingDefs_hits x86MIRaiser _ _ _ _ _ H) as [Hnd _].
  apply ordered_distinct_blocks; [|done]. clear Hnd.
  unfold getGlobalReachingDefs in H.
  destruct (getBlockNumbered _ _) as [CurMBB|]; [|discriminate].
  inv_bind H. inv_bind H. rename a0 into Defs. inversion H; subst. clear H.
  destruct (1 <? length Defs)%nat eqn:Hlen.
  - apply unique_ordered, sort_ordered.
  - apply Nat.ltb_ge in Hlen. destruct Defs as [|x [|y Defs]]; [| |simpl in Hlen; lia];
      by repeat split.
Qed.

End Order.

Section Arguments.

Variable x86MIRaiser : X86MachineInstructionRaiser.

(** *** When the construction succeeds *)

Lemma seedArguments_succeeds args ArgNum defs :
  (ArgNum + length args <= length (GPR64ArgRegs64Bit x86MIRaiser))%nat ->
  Forall (fun ty => isIntegerTy ty = true) args ->
  exists defs', seedArguments x86MIRaiser args ArgNum defs = Ok defs'.
Proof.
  revert ArgNum defs. induction args as [|ArgTy rest IH]; intros ArgNum defs Hlen Hint;
    simpl in *; [eauto|].
  apply list.Forall_cons in Hint as [Hty Hint].
  destruct (_ <? _)%nat; [eauto|].
  rewrite Hty. cbn [assert mbind result_bind].
  destruct (lookup_lt_is_Some_2 (GPR64ArgRegs64Bit x86MIRaiser) ArgNum) as [Reg ->]; [lia|].
  apply IH; [lia | done].
Qed.

Lemma seedOperands_succeeds MBBNo ops defs :
  Forall (fun MO =>
            isReg MO = true -> isDef MO = true ->
            isStatusReg x86MIRaiser (getReg MO) = false ->
            is64BitPhysReg x86MIRaiser (getReg MO)
            || is32BitPhysReg x86MIRaiser (getReg MO)
            || is16BitPhysReg x86MIRaiser (getReg MO)
            || is8BitPhysReg x86MIRaiser (getReg MO) = true) ops ->
  exists defs', seedOperands x86MIRaiser MBBNo ops defs = Ok defs'.
Proof.
  revert defs. induction ops as [|MO ops IH]; intros defs Hops; simpl; [eauto|].
  apply list.Forall_cons in Hops as [HMO Hops].
  assert (exists defs1, seedOperand x86MIRaiser MBBNo defs MO = Ok defs1) as [defs1 ->].
  { unfold seedOperand, isStatusReg in *.
    destruct (isReg MO), (isDef MO); simpl; eauto.
    destruct (_ || _) eqn:Hstatus; simpl; [eauto|].
    specialize (HMO eq_refl eq_refl eq_refl). unfold physRegSzInBits.
    destruct (is64BitPhysReg _ _); [simpl; eauto|].
    destruct (is32BitPhysReg _ _); [simpl; eauto|].
    destruct (is16BitPhysReg _ _); [simpl; eauto|].
    destruct (is8BitPhysReg _ _); [simpl; eauto|]. discriminate. }
  simpl. by apply IH.
Qed.

(** X23: the construction succeeds when the function has no more
    arguments than there are argument registers, all of an integer
    type, and every register defined by an instruction, the status
    registers apart, is a register of 8, 16, 32 or 64 bits.  Only the
    table is built: the state of the function is left as it is. *)
Theorem X86RaisedValueTracker_succeeds t0 :
  (length (raisedFunctionArgs x86MIRaiser)
     <= length (GPR64ArgRegs64Bit x86MIRaiser))%nat ->
  Forall (fun ty => isIntegerTy ty = true) (raisedFunctionArgs x86MIRaiser) ->
  (forall MBB MI MO,
     MBB ∈ getMF x86MIRaiser -> MI ∈ instrs MBB -> MO ∈ operands MI ->
     isReg MO = true -> isDef MO = true ->
     isStatusReg x86MIRaiser (getReg MO) = false ->
     is64BitPhysReg x86MIRaiser (getReg MO)
     || is32BitPhysReg x86MIRaiser (getReg MO)
     || is16BitPhysReg x86MIRaiser (getReg MO)
     || is8BitPhysReg x86MIRaiser (getReg MO) = true) ->
  exists t,
    X86RaisedValueTracker x86MIRaiser t0 = Ok t /\
    raisedBlocks t = raisedBlocks t0 /\
    entryAllocas t = entryAllocas t0 /\
    frameObjects t = frameObjects t0 /\
    defsToPromote t = defsToPromote t0.
Proof.
  intros Hlen Hint Hregs. unfold X86RaisedValueTracker.
  destruct (seedArguments_succeeds (raisedFunctionArgs x86MIRaiser) 0 ∅) as [defs ->];
    [simpl; lia | done |].
  cbn [mbind result_bind].
  assert (forall MBBs MBBNo defs,
            (forall MBB, MBB ∈ MBBs -> MBB ∈ getMF x86MIRaiser) ->
            exists defs', seedBlocks x86MIRaiser MBBs MBBNo defs = Ok defs') as Hblocks.
  { clear defs. induction MBBs as [|MBB MBBs IH]; intros MBBNo defs Hin; simpl; [eauto|].
    assert (forall MIs defs,
              (forall MI, MI ∈ MIs -> MI ∈ instrs MBB) ->
              exists defs', seedInstrs x86MIRaiser MBBNo MIs defs = Ok defs') as Hinstrs.
    { clear defs. induction MIs as [|MI MIs IHI]; intros defs HMIs; simpl; [eauto|].
      assert (exists defs1, seedInstr x86MIRaiser MBBNo defs MI = Ok defs1) as [defs1 ->].
      { unfold seedInstr. destruct (getNumDefs MI); [eauto|].
        apply seedOperands_succeeds. apply list.Forall_forall.
        intros MO HMO. apply (Hregs MBB MI MO); [apply Hin | apply HMIs | done]; by left. }
      simpl. apply IHI. intros MI' HMI'. apply HMIs. by right. }
    destruct (Hinstrs (instrs MBB) defs) as [defs1 ->]; [done|].
    simpl. apply IH. intros MBB' HMBB'. apply Hin. by right. }
  destruct (Hblocks (getMF x86MIRaiser) 0 defs) as [defs' ->]; [done|].
  cbn [mbind result_bind]. eexists. by split_and!.
Qed.

Lemma X86RaisedValueTracker_table t0 t :
  Forall (fun ty => getPrimitiveSizeInBits ty <> 0%N) (raisedFunctionArgs x86MIRaiser) ->
  X86RaisedValueTracker x86MIRaiser t0 = Ok t ->
  allPending (physRegDefsInMBB t).
Proof.
  intros Hargs H. unfold X86RaisedValueTracker in H.
  inv_bind H. inv_bind H. inversion H; subst. clear H. simpl.
  apply (seedBlocks_seeded _ _ _ _ _ Ha0).
  eapply seedArguments_allPending; [exact Hargs| |exact Ha].
  intros Reg m MBBNo info Hm. by rewrite lookup_empty in Hm.
Qed.

(** X24: right after the construction the arguments of the function are
    the reaching definitions of their registers in the entry block: a
    query for a register that carries an argument the function has
    returns the argument and changes nothing, also when the
    construction has seeded a pending record for the register. *)
Theorem X86RaisedValueTracker_arguments_reach_entry
    t0 t PhysReg ArgTy AllPreds AnySubReg :
  Forall (fun ty => getPrimitiveSizeInBits ty <> 0%N) (raisedFunctionArgs x86MIRaiser) ->
  X86RaisedValueTracker x86MIRaiser t0 = Ok t ->
  is_Some (getBlockNumbered (getMF x86MIRaiser) 0) ->
  0 < getArgumentNumber x86MIRaiser PhysReg ->
  raisedFunctionArgs x86MIRaiser !! Z.to_nat (getArgumentNumber x86MIRaiser PhysReg - 1)
    = Some ArgTy ->
  getReachingDef x86MIRaiser PhysReg 0 AllPreds AnySubReg t
    = Ok (Some (Argument (Z.to_nat (getArgumentNumber x86MIRaiser PhysReg - 1)) ArgTy), t).
Proof.
  intros Hargs Hnew Hblock Hpos Harg.
  pose proof (X86RaisedValueTracker_table _ _ Hargs Hnew) as Hall.
  assert (getInBlockRegOrArgDefVal x86MIRaiser PhysReg 0 t
          = Ok (0, Some (Argument (Z.to_nat (getArgumentNumber x86MIRaiser PhysReg - 1))
                           ArgTy))) as Hl.
  { apply lookupDef_argument; [|done|done].
    unfold storedRecord.
    destruct (physRegDefsInMBB t !! find64BitSuperReg x86MIRaiser PhysReg) as [m|] eqn:Hm;
      [|by left].
    simpl. destruct (m !! 0) as [[Size Val]|] eqn:Hinfo; [|by left].
    destruct (Hall _ _ _ _ Hm Hinfo) as [Hsz Hval]. simpl in *. subst Val.
    right. by exists Size. }
  rewrite (getReachingDef_no_promotion x86MIRaiser _ _ _ AnySubReg _
             [(0, Some (Argument (Z.to_nat (getArgumentNumber x86MIRaiser PhysReg - 1))
                          ArgTy))]);
    [done | | simpl; lia].
  by apply getGlobalReachingDefs_local.
Qed.

End Arguments.

Section Merges.

Variable x86MIRaiser : X86MachineInstructionRaiser.

(** *** The value a promotion returns *)

(** The query, when the search finds several reaching definitions: the
    state before the value read is recorded, and the value. *)
Lemma getReachingDef_promotion PhysReg MBBNo AllPreds AnySubReg t defs :
  getGlobalReachingDefs x86MIRaiser PhysReg MBBNo AllPreds t = Ok defs ->
  (1 < length defs)%nat ->
  (AnySubReg = false -> isIntegerTy (regTypeOf x86MIRaiser PhysReg) = true) ->
  exists n Ret t6,
    let slot := AllocaInst (IntegerTy n) (length (frameObjects t)) in
    allocTyLoop defs None = Some (IntegerTy n) /\
    ((AnySubReg = true \/ regTypeOf x86MIRaiser PhysReg = IntegerTy n) /\
     Ret = LoadInst slot /\
     (forall b, instructionsOf t6 b
        = instructionsOf t b ++ storesFor slot b defs
            ++ (if decide (b = MBBNo) then [LoadInst slot] else [])) \/
     AnySubReg = false /\ regTypeOf x86MIRaiser PhysReg <> IntegerTy n /\
     (exists op,
        getCastOpcode (IntegerTy n) (regTypeOf x86MIRaiser PhysReg) = Some op /\
        Ret = CastInst op (LoadInst slot) (regTypeOf x86MIRaiser PhysReg)) /\
     (forall b, instructionsOf t6 b
        = instructionsOf t b ++ storesFor slot b defs
            ++ (if decide (b = MBBNo) then [LoadInst slot; Ret] else []))) /\
    getReachingDef x86MIRaiser PhysReg MBBNo AllPreds AnySubReg t
      = (t7 ← setPhysRegSSAValue x86MIRaiser PhysReg MBBNo (Some Ret) t6;
         Ok (Some Ret, t7)) /\
    physRegDefsInMBB t6 = physRegDefsInMBB t /\
    entryAllocas t6 = entryAllocas t ++ [slot] /\
    length (frameObjects t6) = S (length (frameObjects t)) /\
    defsToPromote t6 = defsToPromote t ++ pendingFor PhysReg slot defs.
Proof.
  intros Hdefs Hlen Hint.
  destruct (getReachingDef_several x86MIRaiser PhysReg MBBNo AllPreds AnySubReg t defs
              Hdefs Hlen)
    as (n & t4 & Halloc & Htable & Hallocas & Hobjs & Hpend & Hinstr & Hrun).
  cbv zeta in Hrun.
  set (slot := AllocaInst (IntegerTy n) (length (frameObjects t))) in *.
  destruct (AnySubReg || bool_decide (regTypeOf x86MIRaiser PhysReg = IntegerTy n))
    eqn:Hcase.
  - exists n, (LoadInst slot), (pushBack MBBNo (LoadInst slot) t4). cbv zeta.
    split; [done|]. split; [left; split; [|split; [done|]]|].
    + apply orb_true_iff in Hcase as [->|Heq]; [by left|].
      right. by apply bool_decide_eq_true in Heq.
    + intros b. rewrite instructionsOf_pushBack, Hinstr, <- app_assoc.
      do 2 f_equal; by destruct (decide (b = MBBNo)).
    + split; [exact Hrun|]. split; [done|]. split; [done|]. split; [|done].
      cbn [pushBack frameObjects]. rewrite Hobjs, length_app. simpl. lia.
  - apply orb_false_iff in Hcase as [-> Hne]. apply bool_decide_eq_false in Hne.
    specialize (Hint eq_refl).
    destruct (regTypeOf x86MIRaiser PhysReg) as [m| | | | |] eqn:Hrt; try discriminate.
    cbn [getCastOpcode] in Hrun.
    set (op := if (m <? n)%N then Trunc else if (n <? m)%N then ZExt else BitCast) in *.
    exists n, (CastInst op (LoadInst slot) (IntegerTy m)),
      (pushBack MBBNo (CastInst op (LoadInst slot) (IntegerTy m))
         (pushBack MBBNo (LoadInst slot) t4)).
    cbv zeta. split; [done|].
    split; [right; split; [done|]; split; [done|]; split; [by exists op|]|].
    + intros b. rewrite !instructionsOf_pushBack, Hinstr, <- !app_assoc.
      do 2 f_equal; by destruct (decide (b = MBBNo)).
    + split; [exact Hrun|]. split; [done|]. split; [done|]. split; [|done].
      cbn [pushBack frameObjects]. rewrite Hobjs, length_app. simpl. lia.
Qed.



Lemma two_members {A} (l : list A) (x y : A) :
  x ∈ l -> y ∈ l -> x <> y -> (1 < length l)%nat.
Proof.
  intros Hx Hy Hne. destruct l as [|a [|b l]]; simpl; [| |lia].
  - by apply elem_of_nil in Hx.
  - apply list_elem_of_singleton in Hx, Hy. congruence.
Qed.

(** C1 (amended): hits are equal when block and value are equal, and
    the blocks of the hits returned are pairwise distinct.  Two
    distinct predecessors that hold the identical value for the
    register remain two reaching definitions, whatever the other
    predecessors hold: the value is not returned as it is.  The
    register is promoted, one slot of an integer type is allocated, and
    the read of the slot is returned, cast to the type of the register
    exactly when the read is coerced and the types differ.  When the
    definitions are required along all predecessors, the result is
    this promotion or nothing. *)
Theorem getReachingDef_identical_value_in_two_blocks
    PhysReg D B C V CurMBB ld AnySubReg t :
  sizesNonZero t ->
  getBlockNumbered (getMF x86MIRaiser) D = Some CurMBB ->
  B ∈ predecessors CurMBB ->
  C ∈ predecessors CurMBB ->
  B <> C ->
  is_Some (getBlockNumbered (getMF x86MIRaiser) B) ->
  is_Some (getBlockNumbered (getMF x86MIRaiser) C) ->
  getInBlockRegOrArgDefVal x86MIRaiser PhysReg B t = Ok (B, Some V) ->
  getInBlockRegOrArgDefVal x86MIRaiser PhysReg C t = Ok (C, Some V) ->
  getInBlockRegOrArgDefVal x86MIRaiser PhysReg D t = Ok (ld, None) ->
  PhysReg <> X86.NoRegister ->
  getPhysRegSizeInBits x86MIRaiser PhysReg <> 0%N ->
  (AnySubReg = false -> isIntegerTy (regTypeOf x86MIRaiser PhysReg) = true) ->
  (forall PhysReg' MBBNo' AllPreds' defs,
     getGlobalReachingDefs x86MIRaiser PhysReg' MBBNo' AllPreds' t = Ok defs ->
     NoDup defs.*1) /\
  exists defs n Ret t',
    let slot := AllocaInst (IntegerTy n) (length (frameObjects t)) in
    getGlobalReachingDefs x86MIRaiser PhysReg D false t = Ok defs /\
    (B, Some V) ∈ defs /\
    (C, Some V) ∈ defs /\
    allocTyLoop defs None = Some (IntegerTy n) /\
    ((AnySubReg = true \/ regTypeOf x86MIRaiser PhysReg = IntegerTy n) /\
     Ret = LoadInst slot \/
     AnySubReg = false /\ regTypeOf x86MIRaiser PhysReg <> IntegerTy n /\
     exists op,
       getCastOpcode (IntegerTy n) (regTypeOf x86MIRaiser PhysReg) = Some op /\
       Ret = CastInst op (LoadInst slot) (regTypeOf x86MIRaiser PhysReg)) /\
    getReachingDef x86MIRaiser PhysReg D false AnySubReg t = Ok (Some Ret, t') /\
    entryAllocas t' = entryAllocas t ++ [slot] /\
    length (frameObjects t') = S (length (frameObjects t)) /\
    (getReachingDef x86MIRaiser PhysReg D true AnySubReg t = Ok (Some Ret, t') \/
     getReachingDef x86MIRaiser PhysReg D true AnySubReg t = Ok (None, t)).
Proof.
  intros Hnz HD HB HC HBC [? HBv] [? HCv] HlB HlC HlD Hreg Hsz Hint.
  split.
  { intros PhysReg' MBBNo' AllPreds' defs Hd.
    by apply (getGlobalReachingDefs_hits x86MIRaiser _ _ _ _ _ Hd). }
  assert (is_Some (getBlockNumbered (getMF x86MIRaiser) D)) as Hblock by eauto.
  destruct (getGlobalReachingDefs_total x86MIRaiser PhysReg D false t Hnz Hblock)
    as [defs Hdefs].
  assert (forall b, b ∈ predecessors CurMBB ->
            clearReach x86MIRaiser PhysReg t D b) as Hreach.
  { intros b Hb. apply clearReach_pred. unfold predecessorsOf. by rewrite HD. }
  pose proof (getGlobalReachingDefs_complete x86MIRaiser PhysReg D t ld defs Hblock HlD
                Hdefs B (Some V) (Hreach B HB) HlB (getBlockNumbered_valid _ _ _ HBv))
    as HinB.
  pose proof (getGlobalReachingDefs_complete x86MIRaiser PhysReg D t ld defs Hblock HlD
                Hdefs C (Some V) (Hreach C HC) HlC (getBlockNumbered_valid _ _ _ HCv))
    as HinC.
  assert (1 < length defs)%nat as Hlen.
  { apply (two_members defs (B, Some V) (C, Some V)); [done | done | congruence]. }
  destruct (getReachingDef_promotion PhysReg D false AnySubReg t defs Hdefs Hlen Hint)
    as (n & Ret & t6 & Halloc & Hret & Hrun & Htable & Hallocas & Hobjs & Hpend).
  cbv zeta in *.
  rewrite (setPhysRegSSAValue_ok x86MIRaiser _ _ _ _ Hreg Hsz) in Hrun.
  cbn [mbind result_bind] in Hrun.
  eexists defs, n, Ret, _. cbv zeta.
  split; [done|]. split; [done|]. split; [done|]. split; [done|].
  split.
  { destruct Hret as [(Hcase & -> & _)|(Hany & Hne & Hop & _)]; [by left|by right]. }
  split; [exact Hrun|]. split; [done|]. split; [done|].
  destruct (getGlobalReachingDefs_total x86MIRaiser PhysReg D true t Hnz Hblock)
    as [defs' Hdefs'].
  destruct (getGlobalReachingDefs_AllPreds x86MIRaiser _ _ _ _ Hdefs') as [->|Hsame].
  - right.
    by rewrite (getReachingDef_no_promotion x86MIRaiser _ _ _ AnySubReg _ _ Hdefs')
      by (simpl; lia).
  - left. rewrite <- Hrun. unfold getReachingDef. by rewrite Hdefs', Hsame.
Qed.


End Merges.

(** ** The further properties on the sample functions *)

Section FurtherSamples.

Import Sample.

Lemma recorded_value_is_read_back :
  exists t',
    setPhysRegSSAValue (raiser diamond []) RAX 1 (Some V1) emptyTracker = Ok t' /\
    forall SubReg,
      find64BitSuperReg (raiser diamond []) SubReg = find64BitSuperReg (raiser diamond []) RAX ->
      getInBlockRegOrArgDefVal (raiser diamond []) SubReg 1 t' = Ok (1, Some V1) /\
      getInBlockPhysRegSize (raiser diamond []) SubReg 1 t'
        = Ok (getPhysRegSizeInBits (raiser diamond []) RAX).
Proof.
  apply (setPhysRegSSAValue_read_back (raiser diamond []) RAX 1 V1 emptyTracker).
  - by vm_compute.
  - by vm_compute.
Defined.

Lemma new_tracker_is_all_pending :
  exists t,
    X86RaisedValueTracker (raiser definesRAX [i64]) emptyTracker = Ok t /\
    allPending (physRegDefsInMBB t) /\
    sizesNonZero t.
Proof.
  edestruct (X86RaisedValueTracker_all_pending (raiser definesRAX [i64]) emptyTracker)
    as (Hpending & Hsizes & _).
  - by repeat constructor.
  - by vm_compute.
  - eexists. split_and!; [reflexivity | exact Hpending | exact Hsizes].
Defined.

Lemma new_tracker_seeds_RAX :
  exists t Size,
    X86RaisedValueTracker (raiser definesRAX []) emptyTracker = Ok t /\
    storedRecord (raiser definesRAX []) t RAX 1 = Some (Size, None) /\
    isGPRSize Size.
Proof.
  epose proof (X86RaisedValueTracker_seeds_definitions (raiser definesRAX [])
                 emptyTracker _
                 1%nat {| predecessors := [0]; instrs := [defining "MOV64rr" RAX] |}
                 (defining "MOV64rr" RAX)
                 {| isReg := true; isDef := true; getReg := RAX |}) as Hthm.
  edestruct Hthm as (Size & Hrec & Hsize & _).
  - by vm_compute.
  - reflexivity.
  - apply list_elem_of_here.
  - done.
  - apply list_elem_of_here.
  - reflexivity.
  - reflexivity.
  - reflexivity.
  - eexists _, Size. split_and!; [reflexivity | exact Hrec | exact Hsize].
Defined.

Lemma search_fails_outside_the_function :
  (AssertionFailure "Illegal block number" = AssertionFailure "Illegal block number" /\
   getBlockNumbered (getMF (raiser diamond [])) 7 = None) \/
  (AssertionFailure "Illegal block number"
     = AssertionFailure "Found incorrect size of physical register" /\
   ~ sizesNonZero emptyTracker).
Proof.
  apply (getGlobalReachingDefs_failures (raiser diamond []) RAX 7 false emptyTracker).
  reflexivity.
Defined.

Lemma recorded_value_is_the_reaching_definition :
  exists t',
    setPhysRegSSAValue (raiser diamond []) RAX 3 (Some V1) twoValues = Ok t' /\
    getGlobalReachingDefs (raiser diamond []) RAX 3 true t' = Ok [(3, Some V1)] /\
    getReachingDef (raiser diamond []) RAX 3 true false t' = Ok (Some V1, t').
Proof.
  eexists. split; [by vm_compute|].
  apply (getReachingDef_after_set (raiser diamond []) RAX RAX 3 V1 true false twoValues).
  - vm_compute. eauto.
  - by vm_compute.
  - reflexivity.
Defined.

Lemma diamond_promotes_two_values :
  exists n Ret t',
    getReachingDef (raiser diamond []) RAX 3 false false twoValues = Ok (Some Ret, t') /\
    stripCasts Ret = LoadInst (AllocaInst (IntegerTy n) 0) /\
    instructionsOf t' 1 = [StoreInst V1 (AllocaInst (IntegerTy n) 0)] /\
    instructionsOf t' 2 = [StoreInst V2 (AllocaInst (IntegerTy n) 0)].
Proof.
  destruct (getReachingDef_promotes_several (raiser diamond []) RAX 3 false false twoValues
              [(1, Some V1); (2, Some V2)])
    as (n & Ret & t' & Hres & _ & Hstrip & _ & _ & _ & Hstores & _).
  - by vm_compute.
  - simpl. lia.
  - by vm_compute.
  - by vm_compute.
  - reflexivity.
  - exists n, Ret, t'. split_and!; [exact Hres | exact Hstrip | |].
    + apply (Hstores 1 V1). apply list_elem_of_here.
    + apply (Hstores 2 V2). apply list_elem_of_further, list_elem_of_here.
Defined.

Lemma diamond_query_asked_again :
  exists v t',
    getReachingDef (raiser diamond []) RAX 3 false false twoValues = Ok (v, t') /\
    getReachingDef (raiser diamond []) RAX 3 false false t' = Ok (v, t').
Proof.
  edestruct (getReachingDef_idempotent (raiser diamond []) RAX 3 false false twoValues)
    as [Hagain _].
  - by vm_compute.
  - eexists _, _. split; [reflexivity | exact Hagain].
Defined.

Lemma diamond_query_only_adds :
  exists v t',
    getReachingDef (raiser diamond []) RAX 3 false false twoValues = Ok (v, t') /\
    (forall b, instructionsOf twoValues b `prefix_of` instructionsOf t' b) /\
    sizesNonZero t'.
Proof.
  edestruct (getReachingDef_only_adds (raiser diamond []) RAX 3 false false twoValues)
    as (_ & Hinstr & _ & _ & _ & _ & Hsizes).
  - by vm_compute.
  - eexists _, _. split_and!; [reflexivity | exact Hinstr |].
    apply Hsizes. apply (bool_decide_unpack _). by vm_compute.
Defined.

Lemma diamond_slot_below_frame :
  exists v t' obj,
    getReachingDef (raiser diamond []) RAX 3 false false twoValues = Ok (v, t') /\
    frameObjects t' = frameObjects twoValues ++ [obj] /\
    objOffset obj + objSize obj = stackTopOffset (frameObjects twoValues).
Proof.
  edestruct (getReachingDef_slot_below_frame (raiser diamond []) RAX 3 false false
               twoValues)
    as (obj & Alloca & AllocTy & Hobjs & _ & _ & _ & _ & Htop & _).
  - by vm_compute.
  - by vm_compute.
  - eexists _, _, obj. split_and!; [reflexivity | exact Hobjs | exact Htop].
Defined.

Lemma slot_of_a_pending_definition_has_64_bits :
  allocTyLoop [(1, Some (Opaque 1 (IntegerTy 32))); (2, None)] None = Some (IntegerTy 64).
Proof.
  destruct (allocTyLoop_slot_type [(1, Some (Opaque 1 (IntegerTy 32))); (2, None)]
              ltac:(done)) as [_ Hpending].
  apply Hpending. apply Exists_cons_tl, Exists_cons_hd. by left.
Defined.

Lemma diamond_query_returns :
  exists v t',
    getReachingDef (raiser diamond []) RAX 3 false false twoValues = Ok (v, t') /\
    sizesNonZero t'.
Proof.
  apply (getReachingDef_returns (raiser diamond []) RAX 3 false false twoValues).
  - apply (bool_decide_unpack _). by vm_compute.
  - vm_compute. eauto.
  - by vm_compute.
  - by vm_compute.
  - reflexivity.
Defined.

Lemma sign_flag_of_128 :
  exists t' Mask Masked SFTest,
    testAndSetEflagSSAValue (raiser diamond [IntegerTy 8]) EFLAGS.SF (instr "TEST8rr")
      (Argument 0 (IntegerTy 8)) emptyTracker = Ok t' /\
    defInfoAt (physRegDefsInMBB t') EFLAGS.SF 0 = (1%N, Some SFTest) /\
    instructionsOf t' 0 = instructionsOf emptyTracker 0 ++ [Mask; Masked; SFTest] /\
    eval (valuation 128) SFTest = Some 1.
Proof.
  destruct (testAndSetEflagSSAValue_ZF_SF (raiser diamond [IntegerTy 8]) (instr "TEST8rr")
              (Argument 0 (IntegerTy 8)) 8%N emptyTracker (valuation 128) 128)
    as [_ Hsf].
  - vm_compute. eauto.
  - reflexivity.
  - lia.
  - reflexivity.
  - exact Hsf.
Defined.

Lemma carry_of_5_minus_7 :
  exists tc,
    testAndSetEflagSSAValue (raiser diamond [IntegerTy 32]) EFLAGS.CF (instr "SUB32ri")
      (BinaryOperator Sub (Argument 0 (IntegerTy 32)) (ConstantInt 32 7)) emptyTracker
      = Ok tc /\
    eval (valuation 5)
      (ExtractValueInst
         (CallInst usub_with_overflow [Argument 0 (IntegerTy 32); ConstantInt 32 7]) 1)
      = Some 1.
Proof.
  destruct (testAndSetEflagSSAValue_SUB_ADD (raiser diamond [IntegerTy 32])
              (instr "SUB32ri")
              (BinaryOperator Sub (Argument 0 (IntegerTy 32)) (ConstantInt 32 7))
              Sub (Argument 0 (IntegerTy 32)) (ConstantInt 32 7) 32%N emptyTracker
              (valuation 5) 5 7)
    as [Hsub _].
  - vm_compute. eauto.
  - reflexivity.
  - reflexivity.
  - reflexivity.
  - reflexivity.
  - reflexivity.
  - destruct Hsub as (tc & to & Hres & _ & Heval & _); [by left|].
    exists tc. split; [exact Hres | exact Heval].
Defined.

Lemma carry_of_a_rotate_to_the_left :
  exists tc NewCF,
    testAndSetEflagSSAValue (raiser diamond []) EFLAGS.CF (instr "ROL32r1")
      (Opaque 1 (IntegerTy 32)) emptyTracker = Ok tc /\
    defInfoAt (physRegDefsInMBB tc) EFLAGS.CF 0 = (1%N, Some NewCF) /\
    eval (valuation 0) NewCF = Some 0.
Proof.
  destruct (testAndSetEflagSSAValue_rotate (raiser diamond []) (instr "ROL32r1")
              (Opaque 1 (IntegerTy 32)) 32%N emptyTracker (valuation 0) 0)
    as [Hcf _].
  - vm_compute. eauto.
  - reflexivity.
  - reflexivity.
  - lia.
  - reflexivity.
  - by left.
  - exact Hcf.
Defined.

Lemma overflow_after_a_multiplication :
  exists t',
    testAndSetEflagSSAValue (raiser diamond [IntegerTy 32]) EFLAGS.CF (instr "IMUL32rr")
      (BinaryOperator Mul (Argument 0 (IntegerTy 32)) (ConstantInt 32 7)) emptyTracker
      = Ok t' /\
    getEflagReachingDef (raiser diamond [IntegerTy 32]) EFLAGS.OF 0 t'
      = Abort (AssertionFailure "Found incorrect size of physical register").
Proof.
  destruct (testAndSetEflagSSAValue_IMUL (raiser diamond [IntegerTy 32]) (instr "IMUL32rr")
              (BinaryOperator Mul (Argument 0 (IntegerTy 32)) (ConstantInt 32 7))
              Mul (Argument 0 (IntegerTy 32)) (ConstantInt 32 7) emptyTracker)
    as (t' & Hres & _ & _ & _ & Hquery).
  - reflexivity.
  - vm_compute. eauto.
  - reflexivity.
  - reflexivity.
  - exists t'. split; [exact Hres|].
    apply Hquery; reflexivity.
Defined.


Lemma zero_flag_updates_one_record :
  exists t',
    testAndSetEflagSSAValue (raiser diamond [IntegerTy 8]) EFLAGS.ZF (instr "TEST8rr")
      (Argument 0 (IntegerTy 8)) carrySet = Ok t' /\
    updatesIn [EFLAGS.ZF] 0 carrySet t' /\
    sizesNonZero t'.
Proof.
  edestruct (testAndSetEflagSSAValue_updates (raiser diamond [IntegerTy 8]) EFLAGS.ZF
               (instr "TEST8rr") (Argument 0 (IntegerTy 8)) carrySet)
    as (_ & _ & _ & Hupd & Hsizes).
  - by vm_compute.
  - eexists. split_and!; [reflexivity | exact Hupd |].
    apply Hsizes; [reflexivity|]. apply (bool_decide_unpack _). by vm_compute.
Defined.

Lemma diamond_hits_in_block_order :
  orderedBy Z.lt [(1, Some V1); (2, Some V2)].
Proof.
  apply (getGlobalReachingDefs_in_block_order (raiser diamond []) RAX 3 false twoValues).
  by vm_compute.
Defined.

Lemma tracker_of_a_small_function :
  exists t,
    X86RaisedValueTracker (raiser definesRAX [i64]) emptyTracker = Ok t /\
    raisedBlocks t = raisedBlocks emptyTracker.
Proof.
  destruct (X86RaisedValueTracker_succeeds (raiser definesRAX [i64]) emptyTracker)
    as (t & Hres & Hblocks & _).
  - simpl. lia.
  - by repeat constructor.
  - intros MBB MI MO HMBB HMI HMO Hreg Hdef _.
    simpl in HMBB. unfold definesRAX in HMBB.
    apply elem_of_cons in HMBB as [->|HMBB]; [by apply elem_of_nil in HMI|].
    apply list_elem_of_singleton in HMBB as ->.
    apply list_elem_of_singleton in HMI as ->.
    apply elem_of_cons in HMO as [->|HMO]; [reflexivity|].
    apply list_elem_of_singleton in HMO as ->. discriminate.
  - exists t. by split.
Defined.

Lemma first_argument_reaches_entry :
  exists t,
    X86RaisedValueTracker (raiser definesRAX [i64]) emptyTracker = Ok t /\
    getReachingDef (raiser definesRAX [i64]) RDI 0 false false t
      = Ok (Some (Argument 0 i64), t).
Proof.
  eexists. split; [by vm_compute|].
  apply (X86RaisedValueTracker_arguments_reach_entry (raiser definesRAX [i64])
           emptyTracker _ RDI i64 false false).
  - by repeat constructor.
  - by vm_compute.
  - vm_compute. eauto.
  - by vm_compute.
  - reflexivity.
Defined.


Lemma diamond_identical_value :
  exists defs n Ret t',
    getGlobalReachingDefs (raiser diamond []) RAX 3 false sameValue = Ok defs /\
    (1, Some V1) ∈ defs /\
    (2, Some V1) ∈ defs /\
    getReachingDef (raiser diamond []) RAX 3 false false sameValue = Ok (Some Ret, t') /\
    entryAllocas t' = [AllocaInst (IntegerTy n) 0].
Proof.
  destruct (getReachingDef_identical_value_in_two_blocks
              (raiser diamond []) RAX 3 1 2 V1 (block [1; 2]) INVALID_MBB false sameValue)
    as (_ & defs & n & Ret & t' & Hdefs & HinB & HinC & _ & _ & Hres & Hal & _).
  - apply (bool_decide_unpack _). by vm_compute.
  - reflexivity.
  - apply list_elem_of_here.
  - apply list_elem_of_further, list_elem_of_here.
  - lia.
  - vm_compute. eauto.
  - vm_compute. eauto.
  - by vm_compute.
  - by vm_compute.
  - by vm_compute.
  - by vm_compute.
  - by vm_compute.
  - reflexivity.
  - exists defs, n, Ret, t'. by split_and!.
Defined.


End FurtherSamples.
